(** * PII masking utilities of the IEP compliance assistant

    A shallow embedding of [src/lib/pii-masking.ts] (the module that builds
    the real-value -> placeholder table, masks text before it is sent to the
    model, restores it afterwards and re-scans masked text for leaks),
    together with the parts of the JavaScript runtime that the module relies
    on: case mapping, [String.prototype.includes], [split], global [replace]
    with a literal regular expression, own-property enumeration order of
    plain objects and the stable [Array.prototype.sort].

    Modelling conventions.
    - A JavaScript string is a [string], the sequence of its code units
      (code units below 256).  The case mappings ([toLowerCase],
      [toUpperCase], the [i] flag of a regular expression) are modelled
      on the letters A-Z / a-z, which is what they do on a string of
      ASCII code units ([ascii_only]); a property that depends on how
      case is mapped or compared is stated for ASCII texts and tables.
    - A plain object is the list of its own properties in creation order;
      enumeration ([Object.keys], [Object.entries]) lists canonical array
      indices first, in ascending numeric order, then the other keys in
      creation order.  Its prototype is [Object.prototype]: reading a
      name that is not an own property finds the members inherited from
      it ([prototype_names], all truthy), and assigning to [__proto__]
      reaches the setter of the prototype, which creates no property.
    - [Date] parsing and formatting depend on the host (time zone, locale);
      they are operations of a [DateHost] the builder is parameterised by. *)

From Stdlib Require Import List Arith Lia Bool Ascii String NArith ZArith.
From Stdlib Require Import Permutation Sorted.
Import ListNotations.
Open Scope string_scope.

Set Implicit Arguments.

(* ================================================================== *)
(** * JavaScript strings *)
(* ================================================================== *)

Module JsString.

Definition is_upper (c : ascii) : bool :=
  let n := nat_of_ascii c in ((65 <=? n) && (n <=? 90))%nat.

Definition is_lower (c : ascii) : bool :=
  let n := nat_of_ascii c in ((97 <=? n) && (n <=? 122))%nat.

Definition lower_char (c : ascii) : ascii :=
  if is_upper c then ascii_of_nat (nat_of_ascii c + 32) else c.

Definition upper_char (c : ascii) : ascii :=
  if is_lower c then ascii_of_nat (nat_of_ascii c - 32) else c.

Fixpoint map_chars (f : ascii -> ascii) (s : string) : string :=
  match s with
  | EmptyString => EmptyString
  | String c s' => String (f c) (map_chars f s')
  end.

(** [String.prototype.toLowerCase] / [toUpperCase], as they act on a
    string of ASCII code units. *)
Definition toLowerCase (s : string) : string := map_chars lower_char s.
Definition toUpperCase (s : string) : string := map_chars upper_char s.

(** Two code units are equal up to case: the [i] flag of a regular
    expression compares canonicalised (upper-cased) code units; for
    ASCII code units this is the folding of A-Z with a-z. *)
Definition char_eq_ci (a b : ascii) : bool :=
  Ascii.eqb (upper_char a) (upper_char b).

Definition char_eq (ignoreCase : bool) (a b : ascii) : bool :=
  if ignoreCase then char_eq_ci a b else Ascii.eqb a b.

(** [matches_at ic p s]: the literal [p] matches at the very start of
    [s] (up to case when [ic]). *)
Fixpoint matches_at (ic : bool) (p s : string) : bool :=
  match p, s with
  | EmptyString, _ => true
  | String _ _, EmptyString => false
  | String a p', String b s' => char_eq ic a b && matches_at ic p' s'
  end.

(** [String.prototype.includes]. *)
Fixpoint includes (s t : string) : bool :=
  matches_at false t s ||
  match s with
  | EmptyString => false
  | String _ s' => includes s' t
  end.

(** [s.split(sep)[0]] for a one-character separator: the part of [s]
    before the first [sep], all of [s] when there is none. *)
Fixpoint split_head (sep : ascii) (s : string) : string :=
  match s with
  | EmptyString => EmptyString
  | String c s' => if Ascii.eqb c sep then EmptyString
                   else String c (split_head sep s')
  end.

Fixpoint drop (n : nat) (s : string) : string :=
  match n, s with
  | O, _ => s
  | S _, EmptyString => EmptyString
  | S n', String _ s' => drop n' s'
  end.

Fixpoint take (n : nat) (s : string) : string :=
  match n, s with
  | O, _ => EmptyString
  | S _, EmptyString => EmptyString
  | S n', String c s' => String c (take n' s')
  end.

Fixpoint mem_char (c : ascii) (s : string) : bool :=
  match s with
  | EmptyString => false
  | String d s' => Ascii.eqb c d || mem_char c s'
  end.

(** A string is truthy when it is not empty. *)
Definition truthy (s : string) : bool :=
  match s with EmptyString => false | _ => true end.

End JsString.
Import JsString.

(* ================================================================== *)
(** * Literal regular expressions and [String.prototype.replace] *)
(* ================================================================== *)

Module JsRegExp.

(** The characters [escapeRegExp] protects: [. * + ? ^ $ { } ( ) | [ ] \]. *)
Definition syntax_chars : string := ".*+?^${}()|[]\".

Definition is_syntax_char (c : ascii) : bool := mem_char c syntax_chars.

(** The fragment of pattern sources the module ever builds: a pattern
    character that is not a syntax character denotes itself, and a
    backslash followed by a syntax character denotes that character.
    Anything else is outside the fragment. *)
Fixpoint parse_literal (src : string) : option string :=
  match src with
  | EmptyString => Some EmptyString
  | String c rest =>
      if Ascii.eqb c "\" then
        match rest with
        | String d rest' =>
            if is_syntax_char d then
              option_map (String d) (parse_literal rest')
            else None
        | EmptyString => None
        end
      else if is_syntax_char c then None
      else option_map (String c) (parse_literal rest)
  end.

(** A compiled global regular expression. *)
Inductive regex : Type :=
| Literal (lit : string) (ignoreCase : bool)
| Unsupported.

(** [new RegExp(src, 'g')] and [new RegExp(src, 'gi')]. *)
Definition RegExp (src : string) (ignoreCase : bool) : regex :=
  match parse_literal src with
  | Some lit => Literal lit ignoreCase
  | None => Unsupported
  end.

(** [GetSubstitution] for a match without capture groups: in the
    replacement text [$$] is a dollar sign, [$&] the matched text,
    [$`] the text before the match and [$'] the text after it; a dollar
    sign followed by anything else is literal. *)
Fixpoint substitution (repl matched before after : string) : string :=
  match repl with
  | EmptyString => EmptyString
  | String c rest =>
      if Ascii.eqb c "$" then
        match rest with
        | String d rest' =>
            if Ascii.eqb d "$" then
              String "$" (substitution rest' matched before after)
            else if Ascii.eqb d "&" then
              matched ++ substitution rest' matched before after
            else if Ascii.eqb d "`" then
              before ++ substitution rest' matched before after
            else if Ascii.eqb d "'" then
              after ++ substitution rest' matched before after
            else String c (substitution rest matched before after)
        | EmptyString => String c EmptyString
        end
      else String c (substitution rest matched before after)
  end.

(** Global replacement of a non-empty literal, scanning left to right.
    [skip] counts the code units of the current match that are still to
    be consumed; [before] is the text already scanned. *)
Fixpoint replace_scan (ic : bool) (lit repl : string)
         (skip : nat) (before s : string) : string :=
  match s with
  | EmptyString => EmptyString
  | String c s' =>
      match skip with
      | S n => replace_scan ic lit repl n (before ++ String c "") s'
      | O =>
          if matches_at ic lit s then
            substitution repl (take (length lit) s) before
                         (drop (length lit) s)
            ++ replace_scan ic lit repl (length lit - 1)
                            (before ++ String c "") s'
          else
            String c (replace_scan ic lit repl 0
                                   (before ++ String c "") s')
      end
  end.

(** Global replacement of the empty pattern: it matches before every
    code unit and once more at the end. *)
Fixpoint replace_empty (repl : string) (before s : string) : string :=
  substitution repl "" before s ++
  match s with
  | EmptyString => EmptyString
  | String c s' => String c (replace_empty repl (before ++ String c "") s')
  end.

(** [text.replace(regex, repl)] for a global regular expression and a
    replacement string. *)
Definition replace (text : string) (re : regex) (repl : string) : string :=
  match re with
  | Literal EmptyString _ => replace_empty repl "" text
  | Literal lit ic => replace_scan ic lit repl 0 "" text
  | Unsupported => text
  end.

End JsRegExp.
Import JsRegExp.

(* ================================================================== *)
(** * Plain objects and arrays *)
(* ================================================================== *)

Module JsObject.

(** Own properties in creation order. *)
Definition obj (V : Type) : Type := list (string * V).

(** The names of the members of [Object.prototype]: methods, and the
    accessor [__proto__], whose getter returns the prototype.  Read
    through a plain object, each of them is a truthy value. *)
Definition prototype_names : list string :=
  ["constructor"; "__defineGetter__"; "__defineSetter__";
   "hasOwnProperty"; "__lookupGetter__"; "__lookupSetter__";
   "isPrototypeOf"; "propertyIsEnumerable"; "toString"; "valueOf";
   "__proto__"; "toLocaleString"].

Definition inherited (k : string) : bool :=
  existsb (String.eqb k) prototype_names.

Section Operations.
Variable V : Type.

(** Creating or updating the own property [k]: an existing property
    keeps its place. *)
Fixpoint obj_set (o : obj V) (k : string) (v : V) : obj V :=
  match o with
  | [] => [(k, v)]
  | (k', v') :: o' =>
      if String.eqb k' k then (k', v) :: o'
      else (k', v') :: obj_set o' k v
  end.

(** The own property [k] of [o]: [None] when there is none. *)
Fixpoint obj_get (o : obj V) (k : string) : option V :=
  match o with
  | [] => None
  | (k', v') :: o' => if String.eqb k' k then Some v' else obj_get o' k
  end.

Definition has_own (o : obj V) (k : string) : bool :=
  match obj_get o k with Some _ => true | None => false end.

(** [o[k] = v] on a plain object: the own property is created or
    updated, except for the name [__proto__] when it is not an own
    property: the assignment then goes to the setter inherited from
    [Object.prototype] (which sets the prototype when [v] is an object
    or [null]) and the object gets no property. *)
Definition assign (o : obj V) (k : string) (v : V) : obj V :=
  if String.eqb k "__proto__" && negb (has_own o k) then o
  else obj_set o k v.

Definition digit_value (c : ascii) : option N :=
  let n := N_of_ascii c in
  if ((48 <=? n) && (n <=? 57))%N then Some (n - 48)%N else None.

Fixpoint parse_digits (acc : N) (s : string) : option N :=
  match s with
  | EmptyString => Some acc
  | String c s' =>
      match digit_value c with
      | Some d => parse_digits (acc * 10 + d)%N s'
      | None => None
      end
  end.

(** A key is an array index when it is the canonical decimal form of
    an integer between 0 and 2^32 - 2. *)
Definition array_index (k : string) : option N :=
  match k with
  | EmptyString => None
  | String c rest =>
      if Ascii.eqb c "0" then
        match rest with EmptyString => Some 0%N | _ => None end
      else
        match parse_digits 0 k with
        | Some n => if (n <? 4294967295)%N then Some n else None
        | None => None
        end
  end.

Fixpoint insert_index (n : N) (e : string * V)
         (l : list (N * (string * V))) : list (N * (string * V)) :=
  match l with
  | [] => [(n, e)]
  | (m, e') :: l' =>
      if (n <=? m)%N then (n, e) :: (m, e') :: l'
      else (m, e') :: insert_index n e l'
  end.

(** The array-index properties, in ascending numeric order. *)
Fixpoint index_entries (o : obj V) : list (N * (string * V)) :=
  match o with
  | [] => []
  | (k, v) :: o' =>
      match array_index k with
      | Some n => insert_index n (k, v) (index_entries o')
      | None => index_entries o'
      end
  end.

Definition is_index (e : string * V) : bool :=
  match array_index (fst e) with Some _ => true | None => false end.

(** The other properties, in creation order. *)
Definition named_entries (o : obj V) : list (string * V) :=
  filter (fun e => negb (is_index e)) o.

(** [Object.entries(o)]. *)
Definition entries (o : obj V) : list (string * V) :=
  map snd (index_entries o) ++ named_entries o.

(** [Object.keys(o)]. *)
Definition keys (o : obj V) : list string := map fst (entries o).

Definition values (o : obj V) : list V := map snd (entries o).
End Operations.

Section Sort.
Variable A : Type.
(** The comparator: negative when its first argument goes first. *)
Variable cmp : A -> A -> Z.

Fixpoint insert_sorted (x : A) (l : list A) : list A :=
  match l with
  | [] => [x]
  | y :: l' =>
      if (cmp x y <? 0)%Z then x :: y :: l'
      else y :: insert_sorted x l'
  end.

(** [Array.prototype.sort(cmp)]: a stable sort. *)
Definition sort (l : list A) : list A :=
  fold_left (fun acc x => insert_sorted x acc) l [].
End Sort.

End JsObject.
Import JsObject.

(* ================================================================== *)
(** * The masking module *)
(* ================================================================== *)

(** [StudentInfo] of [src/types/iep.ts]. *)
Record StudentInfo : Type := {
  name : string;
  dateOfBirth : string;
  studentId : string;
  school : string;
  grade : string;
  parentName : string;
  parentEmail : option string;
  address : option string
}.

(** [PIIMappings]: real value -> placeholder. *)
Definition PIIMappings : Type := obj string.

(** What the builder needs of the host's [Date]: the time value of
    [new Date(s)] ([None] when it is [NaN]), [toLocaleDateString] and
    [toISOString]. *)
Record DateHost : Type := {
  date_parse : string -> option Z;
  toLocaleDateString : Z -> string;
  toISOString : Z -> string
}.

Module PLACEHOLDERS.
Definition STUDENT_NAME : string := "[STUDENT_NAME]".
Definition STUDENT_FIRST : string := "[STUDENT_FIRST]".
Definition DOB : string := "[DATE_OF_BIRTH]".
Definition STUDENT_ID : string := "[STUDENT_ID]".
Definition SCHOOL : string := "[SCHOOL_NAME]".
Definition GRADE : string := "[GRADE_LEVEL]".
Definition PARENT_NAME : string := "[PARENT_NAME]".
Definition ADDRESS : string := "[ADDRESS]".
Definition HE_SHE : string := "[HE/SHE]".
Definition HIM_HER : string := "[HIM/HER]".
Definition HIS_HER : string := "[HIS/HER]".

Definition all : list string :=
  [STUDENT_NAME; STUDENT_FIRST; DOB; STUDENT_ID; SCHOOL; GRADE;
   PARENT_NAME; ADDRESS; HE_SHE; HIM_HER; HIS_HER].
End PLACEHOLDERS.

(** An optional field is truthy when it is present and not empty. *)
Definition opt_truthy (o : option string) : bool :=
  match o with Some s => truthy s | None => false end.

Definition opt_value (o : option string) : string :=
  match o with Some s => s | None => EmptyString end.

Definition createPIIMappings (host : DateHost) (studentInfo : StudentInfo)
  : PIIMappings :=
  let mappings : PIIMappings := [] in
  let mappings :=
    if truthy (name studentInfo) then
      let mappings :=
        assign mappings (name studentInfo) PLACEHOLDERS.STUDENT_NAME in
      let firstName := split_head " " (name studentInfo) in
      let mappings :=
        if truthy firstName && negb (String.eqb firstName (name studentInfo))
        then assign mappings firstName PLACEHOLDERS.STUDENT_FIRST
        else mappings in
      let mappings :=
        assign mappings (toLowerCase (name studentInfo))
                PLACEHOLDERS.STUDENT_NAME in
      let mappings :=
        assign mappings (toUpperCase (name studentInfo))
                PLACEHOLDERS.STUDENT_NAME in
      let mappings :=
        assign mappings (toLowerCase firstName)
                PLACEHOLDERS.STUDENT_FIRST in
      assign mappings (toUpperCase firstName) PLACEHOLDERS.STUDENT_FIRST
    else mappings in
  let mappings :=
    if truthy (dateOfBirth studentInfo) then
      let mappings :=
        assign mappings (dateOfBirth studentInfo) PLACEHOLDERS.DOB in
      match date_parse host (dateOfBirth studentInfo) with
      | Some dobDate =>
          let mappings :=
            assign mappings (toLocaleDateString host dobDate)
                    PLACEHOLDERS.DOB in
          assign mappings (split_head "T" (toISOString host dobDate))
                  PLACEHOLDERS.DOB
      | None => mappings
      end
    else mappings in
  let mappings :=
    if truthy (studentId studentInfo) then
      assign mappings (studentId studentInfo) PLACEHOLDERS.STUDENT_ID
    else mappings in
  let mappings :=
    if truthy (school studentInfo) then
      let mappings :=
        assign mappings (school studentInfo) PLACEHOLDERS.SCHOOL in
      let mappings :=
        assign mappings (toLowerCase (school studentInfo))
                PLACEHOLDERS.SCHOOL in
      assign mappings (toUpperCase (school studentInfo))
              PLACEHOLDERS.SCHOOL
    else mappings in
  let mappings :=
    if truthy (grade studentInfo) then
      assign mappings (grade studentInfo) PLACEHOLDERS.GRADE
    else mappings in
  let mappings :=
    if truthy (parentName studentInfo) then
      let mappings :=
        assign mappings (parentName studentInfo)
                PLACEHOLDERS.PARENT_NAME in
      let mappings :=
        assign mappings (toLowerCase (parentName studentInfo))
                PLACEHOLDERS.PARENT_NAME in
      assign mappings (toUpperCase (parentName studentInfo))
              PLACEHOLDERS.PARENT_NAME
    else mappings in
  let mappings :=
    if opt_truthy (address studentInfo) then
      assign mappings (opt_value (address studentInfo))
              PLACEHOLDERS.ADDRESS
    else mappings in
  mappings.

(** [string.replace(/[.*+?^${}()|[\]\\]/g, '\\$&')]: a backslash goes
    before every syntax character. *)
Fixpoint escapeRegExp (s : string) : string :=
  match s with
  | EmptyString => EmptyString
  | String c s' =>
      if is_syntax_char c then String "\" (String c (escapeRegExp s'))
      else String c (escapeRegExp s')
  end.

(** [(a, b) => b.length - a.length]. *)
Definition by_length_desc (a b : string) : Z :=
  (Z.of_nat (length b) - Z.of_nat (length a))%Z.

(** A replacement value that is [undefined] is converted to text. *)
Definition replace_value (v : option string) : string :=
  match v with Some s => s | None => "undefined" end.

Definition maskPII (text : string) (mappings : PIIMappings) : string :=
  let sortedKeys := sort by_length_desc (keys mappings) in
  fold_left
    (fun maskedText realValue =>
       let placeholder := replace_value (obj_get mappings realValue) in
       let regex := RegExp (escapeRegExp realValue) true in
       replace maskedText regex placeholder)
    sortedKeys text.

(** [!o[k]] for a plain object of strings: true for an own property
    that is the empty string, and for a name that is neither an own
    property nor inherited from [Object.prototype]. *)
Definition falsy_at (o : obj string) (k : string) : bool :=
  match obj_get o k with
  | Some v => negb (truthy v)
  | None => negb (inherited k)
  end.

Definition reverse_mappings (mappings : PIIMappings) : obj string :=
  fold_left
    (fun reverseMappings e =>
       let '(realValue, placeholder) := e in
       if falsy_at reverseMappings placeholder
       then assign reverseMappings placeholder realValue
       else reverseMappings)
    (entries mappings) [].

Definition unmaskPII (text : string) (mappings : PIIMappings) : string :=
  let reverseMappings := reverse_mappings mappings in
  fold_left
    (fun unmaskedText e =>
       let '(placeholder, realValue) := e in
       let regex := RegExp (escapeRegExp placeholder) false in
       replace unmaskedText regex realValue)
    (entries reverseMappings) text.

Record Validation : Type := {
  isClean : bool;
  exposedValues : list string
}.

Definition validateNoExposedPII (text : string) (mappings : PIIMappings)
  : Validation :=
  let textLower := toLowerCase text in
  let exposedValues :=
    fold_left
      (fun exposed realValue =>
         if (2 <? length realValue)%nat
            && includes textLower (toLowerCase realValue)
         then (exposed ++ [realValue])%list
         else exposed)
      (keys mappings) [] in
  {| isClean := Nat.eqb (List.length exposedValues) 0;
     exposedValues := exposedValues |}.

(** The values [maskPIIInObject] distinguishes: text, arrays, keyed
    records and the remaining primitives, whose payload it never reads. *)
#[warnings="-register-all"] Inductive JsValue : Type :=
| JString (s : string)
| JArray (items : list JsValue)
| JObject (props : obj JsValue)
| JNumber (n : Z)
| JBoolean (b : bool)
| JNull
| JUndefined.

(** The loop of the record case: [masked[key] = value] for each entry. *)
Definition assign_all (V : Type) (es : list (string * V)) : obj V :=
  fold_left (fun masked e => assign masked (fst e) (snd e)) es [].

(** The values of a record are masked in place before its entries are
    enumerated; masking a value does not depend on the others, so this is
    the loop [for ([key, value] of Object.entries(obj))
    masked[key] = maskPIIInObject(value, mappings)]
    (see [maskPIIInObject_record]). *)
Fixpoint maskPIIInObject (o : JsValue) (mappings : PIIMappings) : JsValue :=
  match o with
  | JString s => JString (maskPII s mappings)
  | JArray items =>
      JArray (map (fun item => maskPIIInObject item mappings) items)
  | JObject props =>
      JObject
        (assign_all
           (entries
              (map (fun e => match e with
                             | (key, value) =>
                                 (key, maskPIIInObject value mappings)
                             end) props)))
  | other => other
  end.

(* ================================================================== *)
(** * Notions the properties are stated with *)
(* ================================================================== *)

(** A code unit below 128, and a string of such code units. *)
Definition ascii_unit (c : ascii) : bool := (nat_of_ascii c <? 128)%nat.

Fixpoint ascii_only (s : string) : bool :=
  match s with
  | EmptyString => true
  | String c s' => ascii_unit c && ascii_only s'
  end.

(** A table whose real values and placeholders are ASCII strings. *)
Definition ascii_table (mappings : PIIMappings) : bool :=
  forallb ascii_only (keys mappings) &&
  forallb ascii_only (values mappings).

(** [t] occurs in [s]. *)
Definition occurs (t s : string) : Prop :=
  exists pre post, s = pre ++ t ++ post.

(** [t] occurs in [s] up to the case of its letters. *)
Definition occurs_ci (t s : string) : Prop :=
  exists pre mid post,
    s = pre ++ mid ++ post /\ toLowerCase mid = toLowerCase t.

(** The number of places of [s] at which [t] starts. *)
Fixpoint count_occurrences (t s : string) : nat :=
  (if matches_at false t s then 1 else 0) +
  match s with
  | EmptyString => 0
  | String _ s' => count_occurrences t s'
  end.

Definition is_bracket (c : ascii) : bool :=
  Ascii.eqb c "[" || Ascii.eqb c "]".

Fixpoint bracket_free (s : string) : bool :=
  match s with
  | EmptyString => true
  | String c s' => negb (is_bracket c) && bracket_free s'
  end.

(** The text between the first and the last code unit of [s]. *)
Fixpoint but_last (s : string) : string :=
  match s with
  | EmptyString => EmptyString
  | String c EmptyString => EmptyString
  | String c s' => String c (but_last s')
  end.

Fixpoint last_char (s : string) : option ascii :=
  match s with
  | EmptyString => None
  | String c EmptyString => Some c
  | String _ s' => last_char s'
  end.

(** A bracketed token: [[], a body without brackets and dollar signs,
    []].  Every member of [PLACEHOLDERS] is one. *)
Definition is_token (p : string) : bool :=
  match p with
  | String c rest =>
      Ascii.eqb c "[" &&
      match last_char rest with
      | Some d => Ascii.eqb d "]"
      | None => false
      end &&
      bracket_free (but_last rest) &&
      negb (mem_char "$" (but_last rest))
  | EmptyString => false
  end.

(** [k] occurs up to case in [p], as [validateNoExposedPII] tests it. *)
Definition includes_ci (p k : string) : bool :=
  includes (toLowerCase p) (toLowerCase k).

(** What [validateNoExposedPII] tests of a real value. *)
Definition reportable (text realValue : string) : bool :=
  (2 <? length realValue)%nat && includes_ci text realValue.

(** A table whose placeholders are bracketed tokens and whose non-empty
    real values contain no bracket and occur, up to case, in none of its
    placeholders. *)
Definition separated (mappings : PIIMappings) : bool :=
  forallb is_token (values mappings) &&
  forallb
    (fun k =>
       negb (truthy k) ||
       (bracket_free k &&
        forallb (fun p => negb (includes_ci p k)) (values mappings)))
    (keys mappings).

(** The first real value that [es] associates with placeholder [p]. *)
Fixpoint first_real_value (p : string) (es : list (string * string))
  : option string :=
  match es with
  | [] => None
  | (realValue, placeholder) :: es' =>
      if String.eqb placeholder p then Some realValue
      else first_real_value p es'
  end.

(** Records have pairwise distinct keys, at every depth. *)
Fixpoint distinct_keys (l : list string) : bool :=
  match l with
  | [] => true
  | k :: l' => negb (existsb (String.eqb k) l') && distinct_keys l'
  end.

Fixpoint well_formed (v : JsValue) : bool :=
  match v with
  | JArray items => forallb well_formed items
  | JObject props =>
      distinct_keys (map fst props) &&
      forallb (fun e => match e with (_, x) => well_formed x end) props
  | _ => true
  end.

(** No record has a key [__proto__], at any depth. *)
Fixpoint own_keyed (v : JsValue) : bool :=
  match v with
  | JArray items => forallb own_keyed items
  | JObject props =>
      forallb (fun e => match e with
                        | (k, x) => negb (String.eqb k "__proto__")
                                    && own_keyed x
                        end) props
  | _ => true
  end.

(** [w] is [v] with every text leaf masked: same constructors, same
    array order, same record keys in the same enumeration order. *)
#[warnings="-register-all"] Inductive masked_as (mappings : PIIMappings) : JsValue -> JsValue -> Prop :=
| masked_string s :
    masked_as mappings (JString s) (JString (maskPII s mappings))
| masked_array xs ys :
    Forall2 (masked_as mappings) xs ys ->
    masked_as mappings (JArray xs) (JArray ys)
| masked_object ps qs :
    Forall2 (fun e f => fst e = fst f /\ masked_as mappings (snd e) (snd f))
            (entries ps) (entries qs) ->
    masked_as mappings (JObject ps) (JObject qs)
| masked_number n : masked_as mappings (JNumber n) (JNumber n)
| masked_boolean b : masked_as mappings (JBoolean b) (JBoolean b)
| masked_null : masked_as mappings JNull JNull
| masked_undefined : masked_as mappings JUndefined JUndefined.

(** The array-index part of an enumeration: every entry carries the
    index of its key, in ascending order. *)
Definition indexed (V : Type) (L : list (N * (string * V))) : Prop :=
  Forall (fun ne => array_index (fst (snd ne)) = Some (fst ne)) L.

Definition ascending (V : Type) (L : list (N * (string * V))) : Prop :=
  StronglySorted (fun a b => (fst a <= fst b)%N) L.

(** The same key with the value transformed. *)
Definition on_value (V W : Type) (f : V -> W) (e : string * V)
  : string * W := (fst e, f (snd e)).

(** A record with a date of birth and nothing else. *)
Definition dob_record (dob : string) : StudentInfo :=
  {| name := ""; dateOfBirth := dob; studentId := ""; school := "";
     grade := ""; parentName := ""; parentEmail := None; address := None |}.

(** The keyed record of the specification's example. *)
Definition sample_record : JsValue :=
  JObject [("note", JString "John Smith"); ("count", JNumber 3)].

(** One turn of the loop of [maskPII]. *)
Definition mask_pass (mappings : PIIMappings) (maskedText realValue : string)
  : string :=
  let placeholder := replace_value (obj_get mappings realValue) in
  let regex := RegExp (escapeRegExp realValue) true in
  replace maskedText regex placeholder.

(** One turn of the second loop of [unmaskPII]. *)
Definition unmask_pass (unmaskedText : string) (e : string * string)
  : string :=
  let '(placeholder, realValue) := e in
  let regex := RegExp (escapeRegExp placeholder) false in
  replace unmaskedText regex realValue.

(** One turn of the first loop of [unmaskPII].  When the test lets the
    assignment through, the placeholder is an own property or a name
    that no plain object inherits, so the assignment creates or updates
    an own property (see [reverse_mappings_fold]). *)
Definition reverse_step (reverseMappings : obj string) (e : string * string)
  : obj string :=
  let '(realValue, placeholder) := e in
  if falsy_at reverseMappings placeholder
  then obj_set reverseMappings placeholder realValue
  else reverseMappings.

(** The assignments [o[k] = v] of a list, carried out in order. *)
Definition assign_each (V : Type) (o : obj V) (ws : list (string * V))
  : obj V :=
  fold_left (fun o e => assign o (fst e) (snd e)) ws o.

(** The assignments of a list that create or update an own property of
    an object without an own [__proto__]: all but those to that name. *)
Definition own_writes (V : Type) (ws : list (string * V))
  : list (string * V) :=
  filter (fun e => negb (String.eqb (fst e) "__proto__")) ws.

(** The own properties of a list, created or updated in order. *)
Definition assign_into (V : Type) (o : obj V) (ws : list (string * V))
  : obj V :=
  fold_left (fun o e => obj_set o (fst e) (snd e)) ws o.

(** The last value a list of assignments gives to key [k]. *)
Fixpoint last_write (V : Type) (k : string) (ws : list (string * V))
  : option V :=
  match ws with
  | [] => None
  | (k', v) :: ws' =>
      match last_write k ws' with
      | Some v' => Some v'
      | None => if String.eqb k' k then Some v else None
      end
  end.

(** The assignments of the builder, one list for each [if] of
    [createPIIMappings], in the order of the source. *)
Definition name_writes (studentInfo : StudentInfo) : list (string * string) :=
  if truthy (name studentInfo) then
    let firstName := split_head " " (name studentInfo) in
    [(name studentInfo, PLACEHOLDERS.STUDENT_NAME)] ++
    (if truthy firstName && negb (String.eqb firstName (name studentInfo))
     then [(firstName, PLACEHOLDERS.STUDENT_FIRST)] else []) ++
    [(toLowerCase (name studentInfo), PLACEHOLDERS.STUDENT_NAME);
     (toUpperCase (name studentInfo), PLACEHOLDERS.STUDENT_NAME);
     (toLowerCase firstName, PLACEHOLDERS.STUDENT_FIRST);
     (toUpperCase firstName, PLACEHOLDERS.STUDENT_FIRST)]
  else [].

Definition dob_writes (host : DateHost) (studentInfo : StudentInfo)
  : list (string * string) :=
  if truthy (dateOfBirth studentInfo) then
    (dateOfBirth studentInfo, PLACEHOLDERS.DOB) ::
    match date_parse host (dateOfBirth studentInfo) with
    | Some dobDate =>
        [(toLocaleDateString host dobDate, PLACEHOLDERS.DOB);
         (split_head "T" (toISOString host dobDate), PLACEHOLDERS.DOB)]
    | None => []
    end
  else [].

Definition id_writes (studentInfo : StudentInfo) : list (string * string) :=
  if truthy (studentId studentInfo)
  then [(studentId studentInfo, PLACEHOLDERS.STUDENT_ID)] else [].

Definition school_writes (studentInfo : StudentInfo)
  : list (string * string) :=
  if truthy (school studentInfo) then
    [(school studentInfo, PLACEHOLDERS.SCHOOL);
     (toLowerCase (school studentInfo), PLACEHOLDERS.SCHOOL);
     (toUpperCase (school studentInfo), PLACEHOLDERS.SCHOOL)]
  else [].

Definition grade_writes (studentInfo : StudentInfo)
  : list (string * string) :=
  if truthy (grade studentInfo)
  then [(grade studentInfo, PLACEHOLDERS.GRADE)] else [].

Definition parent_writes (studentInfo : StudentInfo)
  : list (string * string) :=
  if truthy (parentName studentInfo) then
    [(parentName studentInfo, PLACEHOLDERS.PARENT_NAME);
     (toLowerCase (parentName studentInfo), PLACEHOLDERS.PARENT_NAME);
     (toUpperCase (parentName studentInfo), PLACEHOLDERS.PARENT_NAME)]
  else [].

Definition address_writes (studentInfo : StudentInfo)
  : list (string * string) :=
  if opt_truthy (address studentInfo)
  then [(opt_value (address studentInfo), PLACEHOLDERS.ADDRESS)] else [].

(** What is assigned after the date-of-birth block. *)
Definition writes_after_dob (studentInfo : StudentInfo)
  : list (string * string) :=
  id_writes studentInfo ++ school_writes studentInfo ++
  grade_writes studentInfo ++ parent_writes studentInfo ++
  address_writes studentInfo.

Definition writes (host : DateHost) (studentInfo : StudentInfo)
  : list (string * string) :=
  name_writes studentInfo ++ dob_writes host studentInfo ++
  writes_after_dob studentInfo.

(** The keys that the fields other than the name give. *)
Definition other_keys (host : DateHost) (studentInfo : StudentInfo)
  : list string :=
  map fst (dob_writes host studentInfo ++ writes_after_dob studentInfo).

(** The text of the specification's example, and what it becomes when
    the full name, then the first name have been replaced. *)
Definition john_smith_text : string := "John Smith said John is happy".

Definition john_smith_stages : list string :=
  [john_smith_text;
   "[STUDENT_NAME] said John is happy";
   "[STUDENT_NAME] said [STUDENT_FIRST] is happy"].

(** The entries the name ["John Smith"] gives, in the order of the
    source; the tokens of the other fields. *)
Definition john_smith_keys : list (string * string) :=
  [("John Smith", PLACEHOLDERS.STUDENT_NAME);
   ("John", PLACEHOLDERS.STUDENT_FIRST);
   ("john smith", PLACEHOLDERS.STUDENT_NAME);
   ("JOHN SMITH", PLACEHOLDERS.STUDENT_NAME);
   ("john", PLACEHOLDERS.STUDENT_FIRST);
   ("JOHN", PLACEHOLDERS.STUDENT_FIRST)].

Definition other_tokens : list string :=
  [PLACEHOLDERS.DOB; PLACEHOLDERS.STUDENT_ID; PLACEHOLDERS.SCHOOL;
   PLACEHOLDERS.GRADE; PLACEHOLDERS.PARENT_NAME; PLACEHOLDERS.ADDRESS].

(** A record with every field filled in. *)
Definition full_record : StudentInfo :=
  {| name := "John Smith"; dateOfBirth := "2015-04-02";
     studentId := "S-100"; school := "Oak Hill"; grade := "3";
     parentName := "Mary Jones"; parentEmail := Some "mary@example.org";
     address := Some "12 Elm St" |}.

(** No key of [ks] occurs, up to case, in a text of [texts]. *)
Definition apart (texts ks : list string) : bool :=
  forallb (fun k => forallb (fun t => negb (includes_ci t k)) texts) ks.

(** A record with a full name and nothing else. *)
Definition only_name (n : string) : StudentInfo :=
  {| name := n; dateOfBirth := ""; studentId := ""; school := "";
     grade := ""; parentName := ""; parentEmail := None; address := None |}.

(** A host that parses the one date ["2015-04-02"] (midnight UTC,
    rendered for the [en-US] locale) and rejects everything else. *)
Definition sample_host : DateHost :=
  {| date_parse := fun s =>
       if String.eqb s "2015-04-02" then Some 1427932800000%Z else None;
     toLocaleDateString := fun _ => "4/2/2015";
     toISOString := fun _ => "2015-04-02T00:00:00.000Z" |}.

(* ================================================================== *)
(** * The module over a store of objects *)
(* ================================================================== *)

(** The same three functions with the objects they touch kept in a
    store: the mapping table is passed by reference, and the objects a
    call creates ([reverseMappings], the key array, [exposedValues]) are
    allocated next to it.  Local [let] variables holding strings stay
    values. *)
Module Store.

Definition ref : Type := nat.

Inductive cell : Type :=
| Obj (o : obj string)
| Arr (a : list string).

Definition heap : Type := list cell.

Definition M (A : Type) : Type := heap -> A * heap.

Definition ret (A : Type) (a : A) : M A := fun h => (a, h).

Definition bind (A B : Type) (m : M A) (f : A -> M B) : M B :=
  fun h => let (a, h') := m h in f a h'.

Notation "x <- m ;; k" := (bind m (fun x => k))
  (at level 61, m at next level, right associativity).

Fixpoint update (h : heap) (r : ref) (c : cell) : heap :=
  match h, r with
  | [], _ => []
  | _ :: h', O => c :: h'
  | x :: h', S r' => x :: update h' r' c
  end.

Definition alloc (c : cell) : M ref :=
  fun h => (List.length h, (h ++ [c])%list).

Definition read_obj (r : ref) : M (obj string) :=
  fun h => (match nth_error h r with Some (Obj o) => o | _ => [] end, h).

Definition read_arr (r : ref) : M (list string) :=
  fun h => (match nth_error h r with Some (Arr a) => a | _ => [] end, h).

(** [o[k]] for an own property [k]. *)
Definition get_prop (r : ref) (k : string) : M (option string) :=
  o <- read_obj r ;; ret (obj_get o k).

(** [!o[k]]. *)
Definition falsy_prop (r : ref) (k : string) : M bool :=
  o <- read_obj r ;; ret (falsy_at o k).

(** [o[k] = v]. *)
Definition set_prop (r : ref) (k v : string) : M unit :=
  fun h => (tt, match nth_error h r with
                | Some (Obj o) => update h r (Obj (assign o k v))
                | _ => h
                end).

(** [Object.keys(o)]: a new array. *)
Definition Object_keys (r : ref) : M ref :=
  o <- read_obj r ;; alloc (Arr (keys o)).

(** [Object.entries(o)]: the pairs are only iterated over. *)
Definition Object_entries (r : ref) : M (list (string * string)) :=
  o <- read_obj r ;; ret (entries o).

(** [a.sort(cmp)]: sorts the array in place and returns it. *)
Definition Array_sort (cmp : string -> string -> Z) (r : ref) : M ref :=
  fun h => (r, match nth_error h r with
               | Some (Arr a) => update h r (Arr (sort cmp a))
               | _ => h
               end).

(** [a.push(v)]. *)
Definition Array_push (r : ref) (v : string) : M unit :=
  fun h => (tt, match nth_error h r with
                | Some (Arr a) => update h r (Arr (a ++ [v])%list)
                | _ => h
                end).

(** [for (const x of items) body], threading the local variable the
    body assigns. *)
Fixpoint for_of (A S : Type) (items : list A) (body : S -> A -> M S)
         (init : S) : M S :=
  match items with
  | [] => ret init
  | x :: items' => s <- body init x ;; for_of items' body s
  end.

Definition maskPII (text : string) (mappings : ref) : M string :=
  ks <- Object_keys mappings ;;
  sortedKeys <- Array_sort by_length_desc ks ;;
  items <- read_arr sortedKeys ;;
  for_of items
    (fun maskedText realValue =>
       placeholder <- get_prop mappings realValue ;;
       ret (replace maskedText (RegExp (escapeRegExp realValue) true)
                    (replace_value placeholder)))
    text.

Definition unmaskPII (text : string) (mappings : ref) : M string :=
  reverseMappings <- alloc (Obj []) ;;
  es <- Object_entries mappings ;;
  _ <- for_of es
         (fun (_ : unit) e =>
            let '(realValue, placeholder) := e in
            unset <- falsy_prop reverseMappings placeholder ;;
            if unset then set_prop reverseMappings placeholder realValue
            else ret tt)
         tt ;;
  res <- Object_entries reverseMappings ;;
  for_of res
    (fun unmaskedText e =>
       let '(placeholder, realValue) := e in
       ret (replace unmaskedText (RegExp (escapeRegExp placeholder) false)
                    realValue))
    text.

Definition validateNoExposedPII (text : string) (mappings : ref)
  : M Validation :=
  exposedValues <- alloc (Arr []) ;;
  let textLower := toLowerCase text in
  ks <- Object_keys mappings ;;
  items <- read_arr ks ;;
  _ <- for_of items
         (fun (_ : unit) realValue =>
            if (2 <? length realValue)%nat
               && includes textLower (toLowerCase realValue)
            then Array_push exposedValues realValue
            else ret tt)
         tt ;;
  found <- read_arr exposedValues ;;
  ret {| isClean := Nat.eqb (List.length found) 0;
         exposedValues := found |}.

(** Every cell of [h] is still in [h'], unchanged and at its place. *)
Definition preserved (h h' : heap) : Prop :=
  firstn (List.length h) h' = h.

End Store.

(* ================================================================== *)
(** * The builder with the failures of [Date] made explicit *)
(* ================================================================== *)

(** [createPIIMappings] once more, with what its calls can raise: of the
    operations it uses, only [toISOString] can fail, with a [RangeError]
    when the time value of the date is [NaN] ([toLocaleDateString] then
    returns the text [Invalid Date]).  A date is its time value, [None]
    for [NaN]. *)
Module Raising.

Inductive outcome (A : Type) : Type :=
| Returned (a : A)
| Raised (error : string).
Arguments Returned {A} a.
Arguments Raised {A} error.

Definition isNaN (time : option Z) : bool :=
  match time with Some _ => false | None => true end.

Definition Date_toLocaleDateString (host : DateHost) (d : option Z)
  : string :=
  match d with
  | Some t => toLocaleDateString host t
  | None => "Invalid Date"
  end.

Definition Date_toISOString (host : DateHost) (d : option Z)
  : outcome string :=
  match d with
  | Some t => Returned (toISOString host t)
  | None => Raised "RangeError: Invalid time value"
  end.

Definition createPIIMappings (host : DateHost) (studentInfo : StudentInfo)
  : outcome PIIMappings :=
  let mappings : PIIMappings := [] in
  let mappings :=
    if truthy (name studentInfo) then
      let mappings :=
        assign mappings (name studentInfo) PLACEHOLDERS.STUDENT_NAME in
      let firstName := split_head " " (name studentInfo) in
      let mappings :=
        if truthy firstName && negb (String.eqb firstName (name studentInfo))
        then assign mappings firstName PLACEHOLDERS.STUDENT_FIRST
        else mappings in
      let mappings :=
        assign mappings (toLowerCase (name studentInfo))
               PLACEHOLDERS.STUDENT_NAME in
      let mappings :=
        assign mappings (toUpperCase (name studentInfo))
               PLACEHOLDERS.STUDENT_NAME in
      let mappings :=
        assign mappings (toLowerCase firstName)
               PLACEHOLDERS.STUDENT_FIRST in
      assign mappings (toUpperCase firstName) PLACEHOLDERS.STUDENT_FIRST
    else mappings in
  let after_dob : outcome PIIMappings :=
    if truthy (dateOfBirth studentInfo) then
      let mappings :=
        assign mappings (dateOfBirth studentInfo) PLACEHOLDERS.DOB in
      let dobDate := date_parse host (dateOfBirth studentInfo) in
      if negb (isNaN dobDate) then
        let mappings :=
          assign mappings (Date_toLocaleDateString host dobDate)
                 PLACEHOLDERS.DOB in
        match Date_toISOString host dobDate with
        | Returned iso =>
            Returned (assign mappings (split_head "T" iso) PLACEHOLDERS.DOB)
        | Raised error => Raised error
        end
      else Returned mappings
    else Returned mappings in
  match after_dob with
  | Raised error => Raised error
  | Returned mappings =>
      let mappings :=
        if truthy (studentId studentInfo) then
          assign mappings (studentId studentInfo) PLACEHOLDERS.STUDENT_ID
        else mappings in
      let mappings :=
        if truthy (school studentInfo) then
          let mappings :=
            assign mappings (school studentInfo) PLACEHOLDERS.SCHOOL in
          let mappings :=
            assign mappings (toLowerCase (school studentInfo))
                   PLACEHOLDERS.SCHOOL in
          assign mappings (toUpperCase (school studentInfo))
                 PLACEHOLDERS.SCHOOL
        else mappings in
      let mappings :=
        if truthy (grade studentInfo) then
          assign mappings (grade studentInfo) PLACEHOLDERS.GRADE
        else mappings in
      let mappings :=
        if truthy (parentName studentInfo) then
          let mappings :=
            assign mappings (parentName studentInfo)
                   PLACEHOLDERS.PARENT_NAME in
          let mappings :=
            assign mappings (toLowerCase (parentName studentInfo))
                   PLACEHOLDERS.PARENT_NAME in
          assign mappings (toUpperCase (parentName studentInfo))
                 PLACEHOLDERS.PARENT_NAME
        else mappings in
      let mappings :=
        if opt_truthy (address studentInfo) then
          assign mappings (opt_value (address studentInfo))
                 PLACEHOLDERS.ADDRESS
        else mappings in
      Returned mappings
  end.

End Raising.

(* ================================================================== *)
(** * The chat route and the model client *)
(* ================================================================== *)

(** The part of [POST] in [src/app/api/chat/route.ts] that prepares what
    is sent to the model (the record built from the case row, the masked
    messages, the check of the last one), and the part of [chat] in
    [src/lib/gemini.ts] that splits the messages into a history and the
    message to send.  Authentication, the database and the model service
    itself are outside. *)
Module ChatRoute.

Inductive Role : Type := user | model.

Record ChatMessage : Type := {
  role : Role;
  content : string
}.

(** The identifying columns of a row of [iep_cases]; a nullable column is
    an [option]. *)
Record IEPCase : Type := {
  student_name : string;
  student_dob : string;
  student_id : option string;
  school_name : string;
  grade_level : string;
  parent_name : string;
  parent_email : option string;
  student_address : option string
}.

(** [x || '']. *)
Definition or_empty (x : option string) : string :=
  match x with Some s => s | None => EmptyString end.

(** [x || undefined]. *)
Definition or_undefined (x : option string) : option string :=
  match x with
  | Some s => if truthy s then Some s else None
  | None => None
  end.

(** The argument of [createPIIMappings] in [POST]. *)
Definition student_info (iepCase : IEPCase) : StudentInfo :=
  {| name := student_name iepCase;
     dateOfBirth := student_dob iepCase;
     studentId := or_empty (student_id iepCase);
     school := school_name iepCase;
     grade := grade_level iepCase;
     parentName := parent_name iepCase;
     parentEmail := or_undefined (parent_email iepCase);
     address := or_undefined (student_address iepCase) |}.

(** [a[i]] for an index that can be [-1]: [None] stands for
    [undefined]. *)
Definition at_index (A : Type) (a : list A) (i : Z) : option A :=
  if (i <? 0)%Z then None else nth_error a (Z.to_nat i).

(** What [POST] has computed when it calls [chat]: the masked messages,
    and the result of the check of the last one (which is only logged).
    [None]: [lastMessage] is [undefined], reading its [content] throws and
    the handler answers with status 500. *)
Definition masked_messages (host : DateHost) (iepCase : IEPCase)
           (messages : list ChatMessage)
  : option (list ChatMessage * Validation) :=
  let piiMappings := createPIIMappings host (student_info iepCase) in
  let maskedMessages :=
    map (fun msg => {| role := role msg;
                       content := maskPII (content msg) piiMappings |})
        messages in
  match at_index maskedMessages
                 (Z.of_nat (List.length maskedMessages) - 1)%Z with
  | None => None
  | Some lastMessage =>
      let validation :=
        validateNoExposedPII (content lastMessage) piiMappings in
      Some (maskedMessages, validation)
  end.

(** An entry of the history given to the model: a role and one text. *)
Record Content : Type := {
  content_role : Role;
  parts : list string
}.

(** [a.slice(0, -1)]. *)
Definition slice_but_last (A : Type) (a : list A) : list A :=
  firstn (List.length a - 1) a.

(** How far [chat] gets before it waits for the model. *)
Inductive chat_call : Type :=
| MissingKey
| NoLastMessage
| SendMessage (systemInstruction : option string)
              (history : list Content) (text : string).

(** [chat(messages, systemPrompt)] up to [chat.sendMessage]: [MissingKey]
    is the error of [getGeminiClient] when the environment has no key,
    [NoLastMessage] the failure to read [content] of [undefined]. *)
Definition chat (apiKey : option string) (messages : list ChatMessage)
           (systemPrompt : option string) : chat_call :=
  if negb (opt_truthy apiKey) then MissingKey
  else
    let history :=
      map (fun msg =>
             {| content_role :=
                  match role msg with user => user | model => model end;
                parts := [content msg] |})
          (slice_but_last messages) in
    match at_index messages (Z.of_nat (List.length messages) - 1)%Z with
    | None => NoLastMessage
    | Some lastMessage =>
        SendMessage systemPrompt history (content lastMessage)
    end.

(** Every text a call hands to the model, in order. *)
Definition texts_sent (c : chat_call) : list string :=
  match c with
  | SendMessage _ history text => (flat_map parts history ++ [text])%list
  | _ => []
  end.

End ChatRoute.

(* ================================================================== *)
(** * Further notions *)
(* ================================================================== *)

(** A case with a name only. *)
Definition sample_case : ChatRoute.IEPCase :=
  {| ChatRoute.student_name := "John Smith";
     ChatRoute.student_dob := "";
     ChatRoute.student_id := None;
     ChatRoute.school_name := "";
     ChatRoute.grade_level := "";
     ChatRoute.parent_name := "";
     ChatRoute.parent_email := None;
     ChatRoute.student_address := None |}.

(** The eight tokens the builder uses. *)
Definition data_tokens : list string :=
  [PLACEHOLDERS.STUDENT_NAME; PLACEHOLDERS.STUDENT_FIRST; PLACEHOLDERS.DOB;
   PLACEHOLDERS.STUDENT_ID; PLACEHOLDERS.SCHOOL; PLACEHOLDERS.GRADE;
   PLACEHOLDERS.PARENT_NAME; PLACEHOLDERS.ADDRESS].

(** The empty string is not a key. *)
Definition no_empty_key (mappings : PIIMappings) : bool :=
  forallb truthy (keys mappings).

(** No real value contains a dollar sign. *)
Definition plain_keys (mappings : PIIMappings) : bool :=
  forallb (fun k => negb (mem_char "$" k)) (keys mappings).

(** No key of the table occurs in the text, in any casing. *)
Definition free_of_keys (text : string) (mappings : PIIMappings) : bool :=
  forallb (fun k => negb (includes_ci text k)) (keys mappings).

(** No placeholder of the table occurs in the text. *)
Definition free_of_placeholders (text : string) (mappings : PIIMappings)
  : bool :=
  forallb (fun p => negb (includes text p)) (values mappings).

(** Every key equal to [k] up to case carries the placeholder [p]. *)
Definition variants_carry (mappings : PIIMappings) (k p : string) : bool :=
  forallb
    (fun e =>
       negb (String.eqb (toLowerCase (fst e)) (toLowerCase k))
       || String.eqb (snd e) p)
    (entries mappings).

(** A value with its lower-case and upper-case forms. *)
Definition variants (s : string) : list string :=
  [s; toLowerCase s; toUpperCase s].

(** The text leaves of a value. *)
Fixpoint leaves (v : JsValue) : list string :=
  match v with
  | JString s => [s]
  | JArray items => flat_map leaves items
  | JObject props =>
      flat_map (fun e => match e with (_, x) => leaves x end) props
  | _ => []
  end.

(* ================================================================== *)
(** * Facts about strings *)
(* ================================================================== *)

Unset Implicit Arguments.

Lemma append_nil_r (s : string) : s ++ "" = s.
Proof. induction s as [|c s IH]; simpl; [reflexivity | now rewrite IH]. Qed.

Lemma append_assoc (a b c : string) : (a ++ b) ++ c = a ++ (b ++ c).
Proof. induction a as [|x a IH]; simpl; [reflexivity | now rewrite IH]. Qed.

Lemma length_append (a b : string) :
  length (a ++ b) = length a + length b.
Proof. induction a as [|x a IH]; simpl; [reflexivity | now rewrite IH]. Qed.

Lemma map_chars_append f (a b : string) :
  map_chars f (a ++ b) = map_chars f a ++ map_chars f b.
Proof. induction a as [|x a IH]; simpl; [reflexivity | now rewrite IH]. Qed.

Lemma map_chars_length f (s : string) : length (map_chars f s) = length s.
Proof. induction s as [|c s IH]; simpl; [reflexivity | now rewrite IH]. Qed.

Lemma map_chars_split f (a b s : string) :
  map_chars f s = a ++ b ->
  exists s1 s2, s = s1 ++ s2 /\ map_chars f s1 = a /\ map_chars f s2 = b.
Proof.
  revert s. induction a as [|x a IH]; intros s H.
  - exists "", s. simpl in *. auto.
  - destruct s as [|c s]; simpl in H; [discriminate|].
    injection H as Hc Hs. destruct (IH _ Hs) as (s1 & s2 & -> & H1 & H2).
    exists (String c s1), s2. simpl. now rewrite Hc, H1, H2.
Qed.

Lemma toLowerCase_length (s : string) : length (toLowerCase s) = length s.
Proof. apply map_chars_length. Qed.

Lemma toUpperCase_length (s : string) : length (toUpperCase s) = length s.
Proof. apply map_chars_length. Qed.

Ltac each_char c :=
  destruct c as [[] [] [] [] [] [] [] []]; vm_compute; reflexivity.

Lemma lower_upper_char (c : ascii) : lower_char (upper_char c) = lower_char c.
Proof. each_char c. Qed.

Lemma upper_lower_char (c : ascii) : upper_char (lower_char c) = upper_char c.
Proof. each_char c. Qed.

Lemma lower_lower_char (c : ascii) : lower_char (lower_char c) = lower_char c.
Proof. each_char c. Qed.

Lemma is_bracket_lower (c : ascii) : is_bracket (lower_char c) = is_bracket c.
Proof. each_char c. Qed.

Lemma is_bracket_upper (c : ascii) : is_bracket (upper_char c) = is_bracket c.
Proof. each_char c. Qed.

Lemma char_eq_ci_iff (a b : ascii) :
  char_eq_ci a b = true <-> lower_char a = lower_char b.
Proof.
  unfold char_eq_ci. rewrite Ascii.eqb_eq. split; intros H.
  - rewrite <- (lower_upper_char a), <- (lower_upper_char b). now rewrite H.
  - rewrite <- (upper_lower_char a), <- (upper_lower_char b). now rewrite H.
Qed.

Lemma toLowerCase_idem (s : string) : toLowerCase (toLowerCase s) = toLowerCase s.
Proof.
  induction s as [|c s IH]; simpl; [reflexivity|].
  unfold toLowerCase in *. simpl. now rewrite lower_lower_char, IH.
Qed.

Lemma toLowerCase_upper (s : string) : toLowerCase (toUpperCase s) = toLowerCase s.
Proof.
  induction s as [|c s IH]; simpl; [reflexivity|].
  unfold toLowerCase, toUpperCase in *. simpl. now rewrite lower_upper_char, IH.
Qed.

Lemma matches_at_exact (p s : string) :
  matches_at false p s = true <-> exists r, s = p ++ r.
Proof.
  revert s. induction p as [|a p IH]; intros s; simpl.
  - split; [intros _; now exists s | reflexivity].
  - destruct s as [|b s]; simpl.
    + split; [discriminate | intros [r H]; discriminate].
    + rewrite andb_true_iff, Ascii.eqb_eq, IH. split.
      * intros [-> [r ->]]. now exists r.
      * intros [r H]. injection H as -> ->. split; [reflexivity | now exists r].
Qed.

Lemma matches_at_ci (p s : string) :
  matches_at true p s = true <->
  exists mid r, s = mid ++ r /\ toLowerCase mid = toLowerCase p.
Proof.
  revert s. induction p as [|a p IH]; intros s; simpl.
  - split; [intros _; now exists "", s | reflexivity].
  - destruct s as [|b s]; simpl.
    + split; [discriminate|].
      intros (mid & r & H & Hm). destruct mid; simpl in *; discriminate.
    + rewrite andb_true_iff, char_eq_ci_iff, IH. split.
      * intros [Hc (mid & r & -> & Hm)].
        exists (String b mid), r. split; [reflexivity|].
        unfold toLowerCase in *. simpl. now rewrite Hm, Hc.
      * intros (mid & r & H & Hm).
        destruct mid as [|c mid]; [discriminate|].
        simpl in H. injection H as -> ->.
        unfold toLowerCase in *. simpl in Hm. injection Hm as Hc Hm.
        split; [now symmetry | now exists mid, r].
Qed.

Lemma includes_occurs (s t : string) : includes s t = true <-> occurs t s.
Proof.
  unfold occurs. induction s as [|c s IH]; simpl.
  - rewrite orb_false_r, matches_at_exact. split.
    + intros [r H]. exists "", r. exact H.
    + intros (pre & post & H). destruct pre; simpl in H.
      * now exists post.
      * discriminate.
  - rewrite orb_true_iff, matches_at_exact, IH. split.
    + intros [[r H] | (pre & post & H)].
      * exists "", r. exact H.
      * exists (String c pre), post. simpl. now rewrite H.
    + intros (pre & post & H). destruct pre as [|d pre]; simpl in H.
      * left. now exists post.
      * right. injection H as _ H. now exists pre, post.
Qed.

Lemma includes_ci_occurs (s t : string) :
  includes_ci s t = true <-> occurs_ci t s.
Proof.
  unfold includes_ci, occurs_ci. rewrite includes_occurs. unfold occurs. split.
  - intros (pre & post & H).
    destruct (map_chars_split _ _ _ _ H) as (s1 & s23 & -> & H1 & H23).
    destruct (map_chars_split _ _ _ _ H23) as (s2 & s3 & -> & H2 & H3).
    exists s1, s2, s3. split; [reflexivity|]. exact H2.
  - intros (pre & mid & post & -> & Hm).
    exists (toLowerCase pre), (toLowerCase post).
    unfold toLowerCase in *. now rewrite !map_chars_append, Hm.
Qed.

Lemma occurs_ci_append_r (t a b : string) : occurs_ci t b -> occurs_ci t (a ++ b).
Proof.
  intros (pre & mid & post & -> & H). exists (a ++ pre), mid, post.
  now rewrite append_assoc.
Qed.

Lemma occurs_ci_cons (t : string) c (s : string) :
  occurs_ci t s -> occurs_ci t (String c s).
Proof. apply (occurs_ci_append_r t (String c "") s). Qed.

Lemma occurs_ci_prefix_or_tail (t : string) c (s : string) :
  occurs_ci t (String c s) ->
  matches_at true t (String c s) = true \/ occurs_ci t s.
Proof.
  intros (pre & mid & post & H & Hm). destruct pre as [|d pre]; simpl in H.
  - left. apply matches_at_ci. now exists mid, post.
  - right. injection H as _ ->. now exists pre, mid, post.
Qed.

Lemma matches_at_occurs_ci (t s : string) :
  matches_at true t s = true -> occurs_ci t s.
Proof.
  rewrite matches_at_ci. intros (mid & r & -> & H). now exists "", mid, r.
Qed.

Lemma occurs_ci_nil (t : string) : occurs_ci t "" -> t = "".
Proof.
  intros (pre & mid & post & H & Hm).
  destruct pre; [|discriminate]. destruct mid; [|discriminate].
  destruct t; [reflexivity | discriminate].
Qed.


(* ================================================================== *)
(** * Facts about objects and sorting *)
(* ================================================================== *)

Section ObjectFacts.
Variable V : Type.
Implicit Types (o : obj V) (k : string) (v : V).

Lemma insert_index_perm n (e : string * V) l :
  Permutation (insert_index n e l) ((n, e) :: l).
Proof.
  induction l as [|[m e'] l IH]; simpl; [reflexivity|].
  destruct (n <=? m)%N; [reflexivity|].
  rewrite IH. apply perm_swap.
Qed.

Lemma index_entries_perm o :
  Permutation (map snd (index_entries o)) (filter (@is_index V) o).
Proof.
  induction o as [|[k v] o IH]; simpl; [reflexivity|].
  unfold is_index at 1. simpl. destruct (array_index k) as [n|]; [|exact IH].
  rewrite (Permutation_map snd (insert_index_perm n (k, v) (index_entries o))).
  simpl. now constructor.
Qed.

Lemma filter_split_perm (A : Type) (f : A -> bool) (l : list A) :
  Permutation (filter f l ++ filter (fun x => negb (f x)) l) l.
Proof.
  induction l as [|x l IH]; simpl; [reflexivity|].
  destruct (f x); simpl.
  - now constructor.
  - symmetry. apply Permutation_cons_app. now symmetry.
Qed.

Lemma entries_perm o : Permutation (entries o) o.
Proof.
  unfold entries, named_entries. rewrite index_entries_perm.
  apply filter_split_perm.
Qed.

Lemma in_entries o (e : string * V) : In e (entries o) <-> In e o.
Proof.
  split; apply Permutation_in; [|symmetry]; apply entries_perm.
Qed.

Lemma keys_perm o : Permutation (keys o) (map fst o).
Proof. unfold keys. apply Permutation_map, entries_perm. Qed.

Lemma in_keys o k : In k (keys o) <-> In k (map fst o).
Proof.
  split; apply Permutation_in; [|symmetry]; apply keys_perm.
Qed.

Lemma values_perm o : Permutation (values o) (map snd o).
Proof. unfold values. apply Permutation_map, entries_perm. Qed.

Lemma in_values o v : In v (values o) <-> In v (map snd o).
Proof.
  split; apply Permutation_in; [|symmetry]; apply values_perm.
Qed.

Lemma obj_get_set o k v k' :
  obj_get (obj_set o k v) k' =
  if String.eqb k k' then Some v else obj_get o k'.
Proof.
  induction o as [|[k0 v0] o IH]; simpl.
  - reflexivity.
  - destruct (String.eqb_spec k0 k) as [->|Hk]; simpl.
    + now destruct (String.eqb k k').
    + rewrite IH. destruct (String.eqb_spec k0 k') as [->|Hk'].
      * destruct (String.eqb_spec k k'); [congruence | reflexivity].
      * reflexivity.
Qed.

Lemma obj_get_set_same o k v : obj_get (obj_set o k v) k = Some v.
Proof. now rewrite obj_get_set, String.eqb_refl. Qed.

Lemma obj_get_set_other o k v k' :
  k <> k' -> obj_get (obj_set o k v) k' = obj_get o k'.
Proof. intros H. rewrite obj_get_set. now apply String.eqb_neq in H as ->. Qed.

Lemma in_obj_set_keys o k v k' :
  In k' (map fst (obj_set o k v)) <-> k' = k \/ In k' (map fst o).
Proof.
  induction o as [|[k0 v0] o IH]; simpl.
  - intuition.
  - destruct (String.eqb_spec k0 k) as [->|Hk]; simpl.
    + intuition.
    + rewrite IH. intuition.
Qed.

Lemma in_obj_set_values o k v v' :
  In v' (map snd (obj_set o k v)) -> v' = v \/ In v' (map snd o).
Proof.
  induction o as [|[k0 v0] o IH]; simpl.
  - intuition.
  - destruct (String.eqb k0 k); simpl; intuition.
Qed.

Lemma obj_get_in o k v : obj_get o k = Some v -> In (k, v) o.
Proof.
  induction o as [|[k0 v0] o IH]; simpl; [discriminate|].
  destruct (String.eqb_spec k0 k) as [->|Hk].
  - intros [= ->]. now left.
  - intros H. right. now apply IH.
Qed.

Lemma obj_get_none o k : obj_get o k = None <-> ~ In k (map fst o).
Proof.
  induction o as [|[k0 v0] o IH]; simpl; [intuition|].
  destruct (String.eqb_spec k0 k) as [->|Hk].
  - split; [discriminate | intros H; exfalso; apply H; now left].
  - rewrite IH. intuition.
Qed.

Lemma in_obj_get o k :
  In k (map fst o) -> exists v, obj_get o k = Some v.
Proof.
  intros H. destruct (obj_get o k) as [v|] eqn:E; [now exists v|].
  now apply obj_get_none in E.
Qed.

Lemma nodup_obj_set o k v :
  NoDup (map fst o) -> NoDup (map fst (obj_set o k v)).
Proof.
  induction o as [|[k0 v0] o IH]; simpl; intros H.
  - constructor; [intros [] | constructor].
  - inversion H as [|? ? Hn Hd]; subst.
    destruct (String.eqb_spec k0 k) as [->|Hk]; simpl.
    + now constructor.
    + constructor; [|now apply IH].
      rewrite in_obj_set_keys. intros [->|Hin]; [now apply Hk | now apply Hn].
Qed.

End ObjectFacts.

Section SortFacts.
Variable A : Type.
Variable cmp : A -> A -> Z.

Lemma insert_sorted_perm x (l : list A) :
  Permutation (insert_sorted cmp x l) (x :: l).
Proof.
  induction l as [|y l IH]; simpl; [reflexivity|].
  destruct (cmp x y <? 0)%Z; [reflexivity|].
  rewrite IH. apply perm_swap.
Qed.

Lemma sort_perm (l : list A) : Permutation (sort cmp l) l.
Proof.
  unfold sort.
  assert (G : forall acc, Permutation
            (fold_left (fun acc x => insert_sorted cmp x acc) l acc)
            (acc ++ l)).
  { induction l as [|x l IH]; intros acc; simpl.
    - now rewrite app_nil_r.
    - rewrite IH, insert_sorted_perm. apply Permutation_middle. }
  apply (G []).
Qed.

End SortFacts.

Lemma insert_sorted_by_length x (l : list string) :
  StronglySorted (fun a b => length b <= length a) l ->
  StronglySorted (fun a b => length b <= length a)
                 (insert_sorted by_length_desc x l).
Proof.
  induction l as [|y l IH]; simpl; intros H.
  - repeat constructor.
  - inversion H as [|? ? Hs Hall]; subst.
    unfold by_length_desc at 1.
    destruct (Z.ltb_spec (Z.of_nat (length y) - Z.of_nat (length x)) 0).
    + constructor; [exact H|]. constructor; [lia|].
      eapply Forall_impl; [|exact Hall]. simpl. intros; lia.
    + constructor; [now apply IH|].
      apply (Permutation_Forall
               (Permutation_sym (insert_sorted_perm _ by_length_desc x l))).
      constructor; [lia | exact Hall].
Qed.

Lemma sort_by_length_sorted (l : list string) :
  StronglySorted (fun a b => length b <= length a) (sort by_length_desc l).
Proof.
  unfold sort.
  assert (G : forall acc,
             StronglySorted (fun a b => length b <= length a) acc ->
             StronglySorted (fun a b => length b <= length a)
               (fold_left (fun acc x => insert_sorted by_length_desc x acc)
                          l acc)).
  { induction l as [|x l IH]; intros acc Hacc; simpl; [exact Hacc|].
    apply IH. now apply insert_sorted_by_length. }
  apply G. constructor.
Qed.

(* ================================================================== *)
(** * The leak validator *)
(* ================================================================== *)

Lemma exposedValues_filter (text : string) (mappings : PIIMappings) :
  exposedValues (validateNoExposedPII text mappings) =
  filter (reportable text) (keys mappings).
Proof.
  unfold validateNoExposedPII. simpl.
  change (fun exposed realValue =>
            if (2 <? length realValue)%nat
               && includes (toLowerCase text) (toLowerCase realValue)
            then (exposed ++ [realValue])%list else exposed)
    with (fun exposed realValue =>
            if reportable text realValue
            then (exposed ++ [realValue])%list else exposed).
  assert (G : forall ks acc,
             fold_left (fun exposed realValue =>
                          if reportable text realValue
                          then (exposed ++ [realValue])%list else exposed)
                       ks acc
             = (acc ++ filter (reportable text) ks)%list).
  { induction ks as [|k ks IH]; intros acc; simpl.
    - now rewrite app_nil_r.
    - rewrite IH. destruct (reportable text k); [|reflexivity].
      now rewrite <- app_assoc. }
  apply (G _ []).
Qed.

Lemma in_exposedValues (text : string) (mappings : PIIMappings) k :
  In k (exposedValues (validateNoExposedPII text mappings)) <->
  In k (keys mappings) /\ 2 < length k /\ occurs_ci k text.
Proof.
  rewrite exposedValues_filter, filter_In. unfold reportable.
  rewrite andb_true_iff, Nat.ltb_lt, includes_ci_occurs. tauto.
Qed.



(** The grade ["K"] is in the text and in the table, and is not listed. *)
Example validateNoExposedPII_short_value :
  validateNoExposedPII "grade K" [("K", PLACEHOLDERS.GRADE)]
  = {| isClean := true; exposedValues := [] |}.
Proof. reflexivity. Qed.

(* ================================================================== *)
(** * The mapping builder *)
(* ================================================================== *)

Section AssignFacts.
Variable V : Type.
Implicit Types (o : obj V) (ws : list (string * V)).

Lemma assign_into_app o ws1 ws2 :
  assign_into o (ws1 ++ ws2) = assign_into (assign_into o ws1) ws2.
Proof. unfold assign_into. apply fold_left_app. Qed.

Lemma obj_get_assign_into ws : forall o k,
  obj_get (assign_into o ws) k =
  match last_write k ws with
  | Some v => Some v
  | None => obj_get o k
  end.
Proof.
  induction ws as [|[k' v] ws IH]; intros o k; simpl; [reflexivity|].
  unfold assign_into in *. simpl. rewrite IH.
  destruct (last_write k ws); [reflexivity|].
  rewrite obj_get_set. now destruct (String.eqb k' k).
Qed.

Lemma in_assign_into_keys ws : forall o k,
  In k (map fst (assign_into o ws)) <->
  In k (map fst o) \/ In k (map fst ws).
Proof.
  induction ws as [|[k' v] ws IH]; intros o k; simpl; [tauto|].
  unfold assign_into in *. simpl. rewrite IH, in_obj_set_keys.
  intuition.
Qed.

Lemma nodup_assign_into ws : forall o,
  NoDup (map fst o) -> NoDup (map fst (assign_into o ws)).
Proof.
  induction ws as [|[k' v] ws IH]; intros o H; simpl; [exact H|].
  apply IH. now apply nodup_obj_set.
Qed.

Lemma last_write_app k ws1 ws2 :
  last_write k (ws1 ++ ws2) =
  match last_write k ws2 with
  | Some v => Some v
  | None => last_write k ws1
  end.
Proof.
  induction ws1 as [|[k' v] ws1 IH]; simpl.
  - now destruct (last_write k ws2).
  - rewrite IH. now destruct (last_write k ws2).
Qed.

Lemma last_write_none k ws :
  ~ In k (map fst ws) -> last_write k ws = None.
Proof.
  induction ws as [|[k' v] ws IH]; simpl; [reflexivity|].
  intros H. rewrite IH by tauto.
  destruct (String.eqb_spec k' k); [|reflexivity]. exfalso. tauto.
Qed.

Lemma last_write_in k v ws : last_write k ws = Some v -> In (k, v) ws.
Proof.
  induction ws as [|[k' v'] ws IH]; simpl; [discriminate|].
  destruct (last_write k ws) as [w|].
  - intros [= ->]. right. now apply IH.
  - destruct (String.eqb_spec k' k) as [->|]; [|discriminate].
    intros [= ->]. now left.
Qed.

Lemma assign_each_app o ws1 ws2 :
  assign_each o (ws1 ++ ws2) = assign_each (assign_each o ws1) ws2.
Proof. unfold assign_each. apply fold_left_app. Qed.

Lemma assign_other o k (v : V) :
  k <> "__proto__" -> assign o k v = obj_set o k v.
Proof.
  intros H. unfold assign. apply String.eqb_neq in H. now rewrite H.
Qed.

Lemma assign_setter o (v : V) :
  has_own o "__proto__" = false -> assign o "__proto__" v = o.
Proof. intros H. unfold assign. now rewrite H. Qed.

Lemma has_own_set_other o k (v : V) k' :
  k <> k' -> has_own (obj_set o k v) k' = has_own o k'.
Proof. intros H. unfold has_own. now rewrite obj_get_set_other. Qed.

(** On an object without an own [__proto__], a list of assignments
    creates or updates the own properties of its other names. *)
Lemma assign_each_own ws : forall o,
  has_own o "__proto__" = false ->
  assign_each o ws = assign_into o (own_writes ws).
Proof.
  induction ws as [|[k v] ws IH]; intros o H; [reflexivity|].
  unfold assign_each, assign_into, own_writes in *. cbn [fold_left filter fst snd].
  destruct (String.eqb_spec k "__proto__") as [->|Hk]; cbn [negb].
  - rewrite assign_setter by exact H. now apply IH.
  - rewrite assign_other by exact Hk. cbn [fold_left fst snd].
    apply IH. now rewrite has_own_set_other.
Qed.

Lemma in_own_writes ws (e : string * V) :
  In e (own_writes ws) <-> fst e <> "__proto__" /\ In e ws.
Proof.
  unfold own_writes. rewrite filter_In, negb_true_iff, String.eqb_neq. tauto.
Qed.

Lemma in_own_writes_keys ws k :
  In k (map fst (own_writes ws)) <-> k <> "__proto__" /\ In k (map fst ws).
Proof.
  rewrite !in_map_iff. split.
  - intros (e & <- & He). apply in_own_writes in He as [Hk He].
    split; [exact Hk|]. now exists e.
  - intros (Hk & e & <- & He). exists e. split; [reflexivity|].
    now apply in_own_writes.
Qed.

Lemma last_write_filter (p : string) k ws :
  last_write k (filter (fun e => negb (String.eqb (fst e) p)) ws) =
  if String.eqb k p then None else last_write k ws.
Proof.
  induction ws as [|[k' v] ws IH]; simpl.
  - now destruct (String.eqb k p).
  - destruct (String.eqb_spec k' p) as [->|Hk']; simpl; rewrite IH.
    + destruct (String.eqb_spec k p) as [->|Hk]; [reflexivity|].
      destruct (last_write k ws); [reflexivity|].
      destruct (String.eqb_spec p k); [congruence | reflexivity].
    + destruct (String.eqb_spec k p) as [->|Hk]; [|reflexivity].
      destruct (String.eqb_spec k' p); [contradiction | reflexivity].
Qed.

Lemma last_write_own k ws :
  last_write k (own_writes ws) =
  if String.eqb k "__proto__" then None else last_write k ws.
Proof. apply last_write_filter. Qed.

End AssignFacts.

Lemma createPIIMappings_assignments (host : DateHost) (studentInfo : StudentInfo) :
  createPIIMappings host studentInfo = assign_each [] (writes host studentInfo).
Proof.
  unfold writes, writes_after_dob. rewrite !assign_each_app.
  unfold createPIIMappings. cbv zeta.
  assert (Hn : forall o, assign_each o (name_writes studentInfo) =
    if truthy (name studentInfo) then
      assign (assign (assign (assign
        (if truthy (split_head " " (name studentInfo))
            && negb (String.eqb (split_head " " (name studentInfo))
                                (name studentInfo))
         then assign (assign o (name studentInfo)
                               PLACEHOLDERS.STUDENT_NAME)
                      (split_head " " (name studentInfo))
                      PLACEHOLDERS.STUDENT_FIRST
         else assign o (name studentInfo) PLACEHOLDERS.STUDENT_NAME)
        (toLowerCase (name studentInfo)) PLACEHOLDERS.STUDENT_NAME)
        (toUpperCase (name studentInfo)) PLACEHOLDERS.STUDENT_NAME)
        (toLowerCase (split_head " " (name studentInfo)))
        PLACEHOLDERS.STUDENT_FIRST)
        (toUpperCase (split_head " " (name studentInfo)))
        PLACEHOLDERS.STUDENT_FIRST
    else o).
  { intros o. unfold name_writes.
    destruct (truthy (name studentInfo)); [|reflexivity].
    cbv zeta.
    destruct (truthy (split_head " " (name studentInfo))
              && negb (String.eqb (split_head " " (name studentInfo))
                                  (name studentInfo))); reflexivity. }
  rewrite Hn.
  assert (Hd : forall o, assign_each o (dob_writes host studentInfo) =
    if truthy (dateOfBirth studentInfo) then
      match date_parse host (dateOfBirth studentInfo) with
      | Some dobDate =>
          assign (assign (assign o (dateOfBirth studentInfo)
                                    PLACEHOLDERS.DOB)
                           (toLocaleDateString host dobDate)
                           PLACEHOLDERS.DOB)
                  (split_head "T" (toISOString host dobDate))
                  PLACEHOLDERS.DOB
      | None => assign o (dateOfBirth studentInfo) PLACEHOLDERS.DOB
      end
    else o).
  { intros o. unfold dob_writes.
    destruct (truthy (dateOfBirth studentInfo)); [|reflexivity].
    destruct (date_parse host (dateOfBirth studentInfo)); reflexivity. }
  rewrite Hd.
  unfold id_writes, school_writes, grade_writes, parent_writes, address_writes.
  destruct (truthy (studentId studentInfo));
    destruct (truthy (school studentInfo));
    destruct (truthy (grade studentInfo));
    destruct (truthy (parentName studentInfo));
    destruct (opt_truthy (address studentInfo)); reflexivity.
Qed.

Lemma createPIIMappings_writes (host : DateHost) (studentInfo : StudentInfo) :
  createPIIMappings host studentInfo =
  assign_into [] (own_writes (writes host studentInfo)).
Proof.
  rewrite createPIIMappings_assignments. now apply assign_each_own.
Qed.

Lemma in_createPIIMappings_keys (host : DateHost) (studentInfo : StudentInfo) k :
  In k (keys (createPIIMappings host studentInfo)) <->
  k <> "__proto__" /\ In k (map fst (writes host studentInfo)).
Proof.
  rewrite in_keys, createPIIMappings_writes, in_assign_into_keys,
    in_own_writes_keys. simpl. tauto.
Qed.

Lemma obj_get_createPIIMappings (host : DateHost) (studentInfo : StudentInfo) k :
  obj_get (createPIIMappings host studentInfo) k =
  if String.eqb k "__proto__" then None
  else last_write k (writes host studentInfo).
Proof.
  rewrite createPIIMappings_writes, obj_get_assign_into, last_write_own.
  simpl. destruct (String.eqb k "__proto__"); [reflexivity|].
  now destruct (last_write k (writes host studentInfo)).
Qed.




(** One upper-case occurrence of the name is reported as six keys, five
    of which are not in the text as they are spelt. *)
Example exposedValues_upper_case_text (host : DateHost) :
  exposedValues
    (validateNoExposedPII "JOHN SMITH was here"
       (createPIIMappings host (only_name "John Smith")))
  = ["John Smith"; "John"; "john smith"; "JOHN SMITH"; "john"; "JOHN"] /\
  includes "JOHN SMITH was here" "john smith" = false.
Proof. split; reflexivity. Qed.

(** C4. For the single-word name ["John"] the builder writes the
    lower-case and upper-case forms under the first-name token: the two
    assignments are outside the test that compares the first name with
    the full name, and they overwrite the full-name variants. *)
Theorem single_word_name_table (host : DateHost) :
  createPIIMappings host (only_name "John") =
  [("John", PLACEHOLDERS.STUDENT_NAME);
   ("john", PLACEHOLDERS.STUDENT_FIRST);
   ("JOHN", PLACEHOLDERS.STUDENT_FIRST)].
Proof. reflexivity. Qed.

(** For a name of two words the table is the one the contract describes. *)
Example two_word_name_table (host : DateHost) :
  createPIIMappings host (only_name "John Smith") =
  [("John Smith", PLACEHOLDERS.STUDENT_NAME);
   ("John", PLACEHOLDERS.STUDENT_FIRST);
   ("john smith", PLACEHOLDERS.STUDENT_NAME);
   ("JOHN SMITH", PLACEHOLDERS.STUDENT_NAME);
   ("john", PLACEHOLDERS.STUDENT_FIRST);
   ("JOHN", PLACEHOLDERS.STUDENT_FIRST)].
Proof. reflexivity. Qed.

(** A name that starts with a space has an empty first name, which the
    unguarded assignments enter as a key. *)
Example leading_space_name_table (host : DateHost) :
  createPIIMappings host (only_name " John") =
  [(" John", PLACEHOLDERS.STUDENT_NAME);
   (" john", PLACEHOLDERS.STUDENT_NAME);
   (" JOHN", PLACEHOLDERS.STUDENT_NAME);
   ("", PLACEHOLDERS.STUDENT_FIRST)].
Proof. reflexivity. Qed.

Lemma last_write_constant (V : Type) (v : V) k (ws : list (string * V)) :
  Forall (fun e => snd e = v) ws -> In k (map fst ws) ->
  last_write k ws = Some v.
Proof.
  induction ws as [|[k' v'] ws IH]; simpl; intros Hall Hin; [contradiction|].
  inversion Hall as [|? ? Hv Hall']; subst. simpl in *.
  destruct (last_write k ws) as [w|] eqn:E.
  - apply last_write_in in E.
    rewrite Forall_forall in Hall'. now rewrite <- (Hall' _ E).
  - destruct (String.eqb_spec k' k) as [->|Hk]; [reflexivity|].
    destruct Hin as [->|Hin]; [contradiction|].
    discriminate (IH Hall' Hin).
Qed.

Lemma dob_writes_values (host : DateHost) (studentInfo : StudentInfo) :
  Forall (fun e => snd e = PLACEHOLDERS.DOB) (dob_writes host studentInfo).
Proof.
  unfold dob_writes. destruct (truthy (dateOfBirth studentInfo)); [|constructor].
  destruct (date_parse host (dateOfBirth studentInfo)); repeat constructor.
Qed.

(** What the table holds at a key of the date-of-birth block: the token
    of the last later assignment to that key, the date-of-birth token
    when there is none. *)
Lemma obj_get_dob_key (host : DateHost) (studentInfo : StudentInfo) k :
  In k (map fst (dob_writes host studentInfo)) ->
  obj_get (createPIIMappings host studentInfo) k =
  if String.eqb k "__proto__" then None
  else match last_write k (writes_after_dob studentInfo) with
       | Some later => Some later
       | None => Some PLACEHOLDERS.DOB
       end.
Proof.
  intros Hin. rewrite obj_get_createPIIMappings. unfold writes.
  rewrite !last_write_app.
  rewrite (last_write_constant _ PLACEHOLDERS.DOB k _
             (dob_writes_values host studentInfo) Hin).
  now destruct (last_write k (writes_after_dob studentInfo)).
Qed.

(** The test of the time value keeps [toISOString] from raising. *)
Lemma createPIIMappings_returns (host : DateHost) (studentInfo : StudentInfo) :
  Raising.createPIIMappings host studentInfo
  = Raising.Returned (createPIIMappings host studentInfo).
Proof.
  unfold Raising.createPIIMappings, createPIIMappings. cbv zeta.
  destruct (truthy (dateOfBirth studentInfo)); [|reflexivity].
  destruct (date_parse host (dateOfBirth studentInfo)); reflexivity.
Qed.

Ltac unfold_tokens :=
  unfold PLACEHOLDERS.STUDENT_NAME, PLACEHOLDERS.STUDENT_FIRST,
    PLACEHOLDERS.DOB, PLACEHOLDERS.STUDENT_ID, PLACEHOLDERS.SCHOOL,
    PLACEHOLDERS.GRADE, PLACEHOLDERS.PARENT_NAME, PLACEHOLDERS.ADDRESS in *.

Lemma only_dob_writes_dob (host : DateHost) (studentInfo : StudentInfo) k :
  In (k, PLACEHOLDERS.DOB) (writes host studentInfo) ->
  In k (map fst (dob_writes host studentInfo)).
Proof.
  unfold writes, writes_after_dob. rewrite !in_app_iff.
  intros [H | [H | H]].
  - exfalso. unfold name_writes in H.
    destruct (truthy (name studentInfo)); [|contradiction].
    cbv zeta in H.
    destruct (truthy (split_head " " (name studentInfo))
              && negb (String.eqb (split_head " " (name studentInfo))
                                  (name studentInfo)));
      simpl in H; unfold_tokens; intuition congruence.
  - apply (in_map fst) in H. exact H.
  - exfalso.
    unfold id_writes, school_writes, grade_writes, parent_writes,
      address_writes in H.
    destruct (truthy (studentId studentInfo));
      destruct (truthy (school studentInfo));
      destruct (truthy (grade studentInfo));
      destruct (truthy (parentName studentInfo));
      destruct (opt_truthy (address studentInfo));
      simpl in H; unfold_tokens; intuition congruence.
Qed.

(** C5 (as amended). For a record with a non-empty date of birth, the
    table maps the stored value to the date-of-birth token, unless an
    assignment of a later field uses the same literal: the table then
    keeps the token of the last such assignment.  When the value parses,
    the same holds of the locale rendering and of the ISO year-month-day
    rendering; when it does not parse, the stored value is the only key
    the table can map to the date-of-birth token.  A plain object takes
    no key [__proto__], so a value spelt like it is left out.  No call
    of the builder raises: the test of the time value covers the one
    operation that can, [toISOString]. *)
Theorem createPIIMappings_date_of_birth
        (host : DateHost) (studentInfo : StudentInfo) :
  truthy (dateOfBirth studentInfo) = true ->
  let table := createPIIMappings host studentInfo in
  let kept (k : string) : option string :=
    if String.eqb k "__proto__" then None
    else match last_write k (writes_after_dob studentInfo) with
         | Some later => Some later
         | None => Some PLACEHOLDERS.DOB
         end in
  obj_get table (dateOfBirth studentInfo) = kept (dateOfBirth studentInfo) /\
  (forall dobDate,
      date_parse host (dateOfBirth studentInfo) = Some dobDate ->
      obj_get table (toLocaleDateString host dobDate)
      = kept (toLocaleDateString host dobDate) /\
      obj_get table (split_head "T" (toISOString host dobDate))
      = kept (split_head "T" (toISOString host dobDate))) /\
  (date_parse host (dateOfBirth studentInfo) = None ->
   forall k, obj_get table k = Some PLACEHOLDERS.DOB ->
             k = dateOfBirth studentInfo) /\
  Raising.createPIIMappings host studentInfo = Raising.Returned table.
Proof.
  intros Hdob table kept. split; [|split; [|split]].
  - apply obj_get_dob_key. unfold dob_writes. rewrite Hdob. now left.
  - intros d Hd. split; apply obj_get_dob_key;
      unfold dob_writes; rewrite Hdob, Hd; simpl; auto.
  - intros Hd k Hk. unfold table in Hk.
    rewrite obj_get_createPIIMappings in Hk.
    destruct (String.eqb k "__proto__"); [discriminate|].
    apply last_write_in, only_dob_writes_dob in Hk.
    unfold dob_writes in Hk. rewrite Hdob, Hd in Hk.
    simpl in Hk. destruct Hk as [Hk|[]]. now symmetry.
  - apply createPIIMappings_returns.
Qed.

Lemma createPIIMappings_date_of_birth_witness :
  let table := createPIIMappings sample_host (dob_record "2015-04-02") in
  obj_get table "2015-04-02" = Some PLACEHOLDERS.DOB /\
  obj_get table "4/2/2015" = Some PLACEHOLDERS.DOB /\
  Raising.createPIIMappings sample_host (dob_record "2015-04-02")
  = Raising.Returned table.
Proof.
  destruct (createPIIMappings_date_of_birth sample_host
              (dob_record "2015-04-02") eq_refl) as (H1 & H2 & _ & H4).
  split; [exact H1|]. split; [|exact H4].
  exact (proj1 (H2 1427932800000%Z eq_refl)).
Defined.

(** A host whose parse fails, and a value spelt like the name that
    reaches the setter of the prototype. *)
Example createPIIMappings_unparseable_date :
  createPIIMappings sample_host (dob_record "next spring")
  = [("next spring", PLACEHOLDERS.DOB)] /\
  createPIIMappings sample_host (dob_record "__proto__") = [].
Proof. split; reflexivity. Qed.

(** A student identifier spelt like the date of birth takes the key:
    the table maps the stored date to the identifier token. *)
Lemma createPIIMappings_date_of_birth_collision :
  obj_get
    (createPIIMappings sample_host
       {| name := "John Smith"; dateOfBirth := "2015-04-02";
          studentId := "2015-04-02"; school := ""; grade := "";
          parentName := ""; parentEmail := None; address := None |})
    "2015-04-02"
  = Some PLACEHOLDERS.STUDENT_ID.
Proof. reflexivity. Qed.

(* ================================================================== *)
(** * The round trip of the specification's example *)
(* ================================================================== *)

(** A guardian with the subject's name takes over the full-name keys:
    the masked text carries the guardian token, not the full-name token. *)
Lemma john_smith_same_guardian_name :
  maskPII "John Smith said John is happy"
    (createPIIMappings sample_host
       {| name := "John Smith"; dateOfBirth := ""; studentId := "";
          school := ""; grade := ""; parentName := "John Smith";
          parentEmail := None; address := None |})
  = "[PARENT_NAME] said [STUDENT_FIRST] is happy".
Proof. reflexivity. Qed.

(* ================================================================== *)
(** * The structured walker *)
(* ================================================================== *)

Section EntriesFacts.
Variable V : Type.
Implicit Types (o : obj V).

Lemma insert_index_indexed n (e : string * V) L :
  array_index (fst e) = Some n -> indexed L -> indexed (insert_index n e L).
Proof.
  intros He HL. apply (Permutation_Forall
                         (Permutation_sym (insert_index_perm V n e L))).
  now constructor.
Qed.

Lemma insert_index_ascending n (e : string * V) L :
  ascending L -> ascending (insert_index n e L).
Proof.
  induction L as [|[m e'] L IH]; simpl; intros H.
  - repeat constructor.
  - inversion H as [|? ? Hs Hall]; subst.
    destruct (N.leb_spec n m).
    + constructor; [exact H|]. constructor; [assumption|].
      eapply Forall_impl; [|exact Hall]. simpl. intros; lia.
    + constructor; [now apply IH|].
      apply (Permutation_Forall
               (Permutation_sym (insert_index_perm V n e L))).
      constructor; [simpl; lia | exact Hall].
Qed.

Lemma index_entries_indexed o : indexed (index_entries o).
Proof.
  induction o as [|[k v] o IH]; simpl; [constructor|].
  destruct (array_index k) as [n|] eqn:E; [|exact IH].
  now apply insert_index_indexed.
Qed.

Lemma index_entries_ascending o : ascending (index_entries o).
Proof.
  induction o as [|[k v] o IH]; simpl; [constructor|].
  destruct (array_index k) as [n|]; [|exact IH].
  now apply insert_index_ascending.
Qed.

Lemma index_entries_named o :
  index_entries (named_entries o) = [].
Proof.
  unfold named_entries.
  induction o as [|[k v] o IH]; simpl; [reflexivity|].
  unfold is_index at 1. simpl.
  destruct (array_index k) eqn:E; simpl; [exact IH|].
  now rewrite E.
Qed.

Lemma index_entries_sorted_fixed L o :
  indexed L -> ascending L ->
  index_entries (map snd L ++ named_entries o)%list = L.
Proof.
  induction L as [|[n [k v]] L IH]; simpl; intros Hi Ha.
  - apply index_entries_named.
  - inversion Hi as [|? ? Hn Hi']; subst. simpl in Hn.
    inversion Ha as [|? ? Ha' Hall]; subst.
    rewrite Hn, (IH Hi' Ha').
    destruct L as [|[m e'] L']; simpl; [reflexivity|].
    inversion Hall as [|? ? Hm _]; subst. simpl in Hm.
    now apply N.leb_le in Hm as ->.
Qed.

Lemma named_entries_fixed L o :
  indexed L ->
  named_entries (map snd L ++ named_entries o)%list = named_entries o.
Proof.
  intros Hi. unfold named_entries. rewrite filter_app.
  assert (E : filter (fun e => negb (is_index e)) (map snd L) = []).
  { induction Hi as [|[n [k v]] L Hn _ IH]; simpl; [reflexivity|].
    unfold is_index at 1. simpl in *. now rewrite Hn. }
  rewrite E. simpl.
  induction o as [|e o IH]; simpl; [reflexivity|].
  destruct (negb (is_index e)) eqn:Ee; simpl; [|exact IH].
  now rewrite Ee, IH.
Qed.

(** Enumerating an enumeration changes nothing. *)
Lemma entries_idempotent o : entries (entries o) = entries o.
Proof.
  unfold entries at 1 3.
  change (map snd (index_entries o) ++ named_entries o)%list
    with (entries o).
  unfold entries at 1 2.
  rewrite index_entries_sorted_fixed, named_entries_fixed;
    auto using index_entries_indexed, index_entries_ascending.
Qed.

Lemma obj_set_fresh o k (v : V) :
  ~ In k (map fst o) -> obj_set o k v = (o ++ [(k, v)])%list.
Proof.
  induction o as [|[k0 v0] o IH]; simpl; intros H; [reflexivity|].
  destruct (String.eqb_spec k0 k) as [->|]; [exfalso; tauto|].
  rewrite IH; tauto.
Qed.

Lemma assign_into_fresh (ws : list (string * V)) : forall o,
  NoDup (map fst (o ++ ws)) -> assign_into o ws = (o ++ ws)%list.
Proof.
  induction ws as [|[k v] ws IH]; intros o H; simpl.
  - now rewrite app_nil_r.
  - unfold assign_into in *. simpl.
    assert (Hk : ~ In k (map fst o)).
    { rewrite map_app in H. simpl in H. apply NoDup_remove_2 in H.
      intros Hin. apply H. apply in_or_app. now left. }
    rewrite (obj_set_fresh o k v Hk), IH.
    + now rewrite <- app_assoc.
    + now rewrite <- app_assoc.
Qed.

Lemma own_writes_all (es : list (string * V)) :
  (forall e, In e es -> fst e <> "__proto__") -> own_writes es = es.
Proof.
  intros H. unfold own_writes.
  induction es as [|e es IH]; [reflexivity|]. cbn [filter].
  assert (He : fst e <> "__proto__") by (apply H; now left).
  apply String.eqb_neq in He. rewrite He. cbn [negb]. f_equal.
  apply IH. intros e' He'. apply H. now right.
Qed.

Lemma assign_all_distinct (es : list (string * V)) :
  NoDup (map fst es) -> (forall e, In e es -> fst e <> "__proto__") ->
  assign_all es = es.
Proof.
  intros H Hown. unfold assign_all.
  change (assign_each [] es = es).
  rewrite (assign_each_own V es []) by reflexivity.
  rewrite (own_writes_all es Hown).
  apply (assign_into_fresh es []). exact H.
Qed.

End EntriesFacts.

Section MapValues.
Variables (V W : Type) (f : V -> W).

Local Abbreviation on_value := (on_value f).

Lemma insert_index_on_value n (e : string * V) L :
  insert_index n (on_value e)
               (map (fun ne => (fst ne, on_value (snd ne))) L)
  = map (fun ne => (fst ne, on_value (snd ne))) (insert_index n e L).
Proof.
  induction L as [|[m e'] L IH]; simpl; [reflexivity|].
  destruct (n <=? m)%N; simpl; [reflexivity|]. now rewrite IH.
Qed.

Lemma index_entries_on_value (o : obj V) :
  index_entries (map on_value o)
  = map (fun ne => (fst ne, on_value (snd ne))) (index_entries o).
Proof.
  induction o as [|[k v] o IH]; simpl; [reflexivity|].
  destruct (array_index k) as [n|]; [|exact IH].
  rewrite IH. apply (insert_index_on_value n (k, v)).
Qed.

(** Enumeration order depends on the keys only. *)
Lemma entries_on_value (o : obj V) :
  entries (map on_value o) = map on_value (entries o).
Proof.
  unfold entries. rewrite index_entries_on_value, !map_app, !map_map.
  simpl. f_equal. unfold named_entries.
  induction o as [|[k v] o IH]; [reflexivity|].
  cbn [map filter].
  assert (E : @is_index W (on_value (k, v)) = @is_index V (k, v))
    by reflexivity.
  rewrite E. destruct (is_index (k, v)); simpl; [exact IH | now rewrite IH].
Qed.

End MapValues.

Lemma distinct_keys_NoDup (l : list string) :
  distinct_keys l = true <-> NoDup l.
Proof.
  induction l as [|k l IH]; simpl.
  - split; [constructor | reflexivity].
  - rewrite andb_true_iff, negb_true_iff, IH. split.
    + intros [Hk Hl]. constructor; [|exact Hl].
      intros Hin. assert (E : existsb (String.eqb k) l = true).
      { apply existsb_exists. exists k. now rewrite String.eqb_refl. }
      congruence.
    + intros H. inversion H as [|? ? Hn Hd]; subst. split; [|exact Hd].
      destruct (existsb (String.eqb k) l) eqn:E; [|reflexivity].
      apply existsb_exists in E as (x & Hx & Hkx).
      apply String.eqb_eq in Hkx as ->. contradiction.
Qed.

(** Induction on values, with the hypothesis for every item of an array
    and for every value of a record. *)
Lemma JsValue_induction (P : JsValue -> Prop) :
  (forall s, P (JString s)) ->
  (forall items, Forall P items -> P (JArray items)) ->
  (forall props, Forall (fun e => P (snd e)) props -> P (JObject props)) ->
  (forall n, P (JNumber n)) ->
  (forall b, P (JBoolean b)) ->
  P JNull -> P JUndefined ->
  forall v, P v.
Proof.
  intros Hs Ha Ho Hn Hb Hnull Hundef.
  fix IH 1. intros [s|items|props|n|b| |].
  - apply Hs.
  - apply Ha. induction items as [|x items IHl]; constructor.
    + apply IH.
    + exact IHl.
  - apply Ho. induction props as [|[k x] props IHl]; constructor.
    + apply IH.
    + exact IHl.
  - apply Hn.
  - apply Hb.
  - exact Hnull.
  - exact Hundef.
Qed.

(** The record case is the loop of the source: one assignment per entry
    of the record, in enumeration order, of the masked value. *)
Lemma maskPIIInObject_record (props : obj JsValue) (mappings : PIIMappings) :
  maskPIIInObject (JObject props) mappings =
  JObject
    (fold_left
       (fun masked e =>
          assign masked (fst e) (maskPIIInObject (snd e) mappings))
       (entries props) []).
Proof.
  simpl. f_equal. unfold assign_all.
  rewrite (map_ext _ (on_value (fun x => maskPIIInObject x mappings)))
    by (intros [k v]; reflexivity).
  rewrite entries_on_value.
  assert (G : forall es (acc : obj JsValue),
             fold_left (fun masked e => assign masked (fst e) (snd e))
               (map (on_value (fun x => maskPIIInObject x mappings)) es) acc
             = fold_left
                 (fun masked e =>
                    assign masked (fst e) (maskPIIInObject (snd e) mappings))
                 es acc).
  { induction es as [|e es IH]; intros acc; simpl; [reflexivity | apply IH]. }
  apply G.
Qed.

Lemma maskPIIInObject_record_entries (props : obj JsValue)
      (mappings : PIIMappings) :
  NoDup (map fst props) ->
  (forall e, In e props -> fst e <> "__proto__") ->
  exists qs,
    maskPIIInObject (JObject props) mappings = JObject qs /\
    entries qs =
    map (on_value (fun x => maskPIIInObject x mappings)) (entries props).
Proof.
  intros Hnd Hown.
  exists (entries (map (on_value (fun x => maskPIIInObject x mappings))
                       props)).
  split.
  - simpl. f_equal.
    rewrite (map_ext _ (on_value (fun x => maskPIIInObject x mappings)))
      by (intros [k v]; reflexivity).
    apply assign_all_distinct.
    + apply (Permutation_NoDup (l := map fst props)); [|exact Hnd].
      symmetry. rewrite entries_on_value, map_map. simpl.
      apply keys_perm.
    + intros e He. apply (proj1 (in_entries _ _ _)) in He.
      apply in_map_iff in He as (e' & <- & He'). exact (Hown e' He').
  - now rewrite entries_idempotent, entries_on_value.
Qed.

Lemma own_keyed_record (props : obj JsValue) :
  own_keyed (JObject props) = true ->
  (forall e, In e props -> fst e <> "__proto__") /\
  (forall e, In e props -> own_keyed (snd e) = true).
Proof.
  cbn [own_keyed]. rewrite forallb_forall. intros H.
  split; intros [k x] He; specialize (H _ He);
    apply andb_true_iff in H as [Hk Hx].
  - apply negb_true_iff in Hk. now apply String.eqb_neq in Hk.
  - exact Hx.
Qed.

Lemma masked_as_maskPIIInObject (mappings : PIIMappings) (v : JsValue) :
  well_formed v = true -> own_keyed v = true ->
  masked_as mappings v (maskPIIInObject v mappings).
Proof.
  induction v as [s|items IH|props IH|n|b| |] using JsValue_induction;
    intros Hwf Hown.
  - constructor.
  - simpl. constructor. simpl in Hwf. cbn [own_keyed] in Hown.
    induction IH as [|x items Hx _ IHl]; simpl; constructor.
    + simpl in Hwf, Hown. apply andb_true_iff in Hwf, Hown. now apply Hx.
    + simpl in Hwf, Hown. apply andb_true_iff in Hwf, Hown. now apply IHl.
  - simpl in Hwf. apply andb_true_iff in Hwf as [Hd Hall].
    apply distinct_keys_NoDup in Hd.
    apply own_keyed_record in Hown as [Hkeys Hvals].
    destruct (maskPIIInObject_record_entries props mappings Hd Hkeys)
      as (qs & -> & Hqs).
    constructor. rewrite Hqs.
    assert (Hin : forall e, In e (entries props) ->
                            masked_as mappings (snd e)
                              (maskPIIInObject (snd e) mappings)).
    { intros e He. apply (proj1 (in_entries _ _ _)) in He.
      rewrite Forall_forall in IH. apply (IH e He).
      - rewrite forallb_forall in Hall. specialize (Hall e He).
        now destruct e.
      - now apply Hvals. }
    clear Hqs. induction (entries props) as [|e es IHes]; simpl; constructor.
    + split; [reflexivity|]. apply Hin. now left.
    + apply IHes. intros e' He'. apply Hin. now right.
  - constructor.
  - constructor.
  - constructor.
  - constructor.
Qed.

(** C7 (as amended). For a value none of whose records has a key
    [__proto__], [maskPIIInObject] returns a value of the same shape:
    text leaves are masked with [maskPII], numbers, booleans, [null] and
    [undefined] are returned as they are, arrays keep their order, and a
    record keeps its keys, in the same enumeration order. *)
Theorem maskPIIInObject_same_shape (v : JsValue) (mappings : PIIMappings) :
  well_formed v = true -> own_keyed v = true ->
  masked_as mappings v (maskPIIInObject v mappings) /\
  (forall props,
      v = JObject props ->
      exists qs, maskPIIInObject v mappings = JObject qs /\
                 keys qs = keys props) /\
  (forall items,
      v = JArray items ->
      maskPIIInObject v mappings =
      JArray (map (fun item => maskPIIInObject item mappings) items)) /\
  (forall s, v = JString s ->
             maskPIIInObject v mappings = JString (maskPII s mappings)) /\
  (match v with
   | JNumber _ | JBoolean _ | JNull | JUndefined =>
       maskPIIInObject v mappings = v
   | _ => True
   end).
Proof.
  intros Hwf Hown. split; [now apply masked_as_maskPIIInObject|].
  split; [|split; [|split]].
  - intros props ->. simpl in Hwf. apply andb_true_iff in Hwf as [Hd _].
    apply distinct_keys_NoDup in Hd.
    apply own_keyed_record in Hown as [Hkeys _].
    destruct (maskPIIInObject_record_entries props mappings Hd Hkeys)
      as (qs & Hq & Hqs).
    exists qs. split; [exact Hq|].
    unfold keys. rewrite Hqs, map_map. reflexivity.
  - intros items ->. reflexivity.
  - intros s ->. reflexivity.
  - destruct v; exact I || reflexivity.
Qed.

Lemma maskPIIInObject_same_shape_witness :
  masked_as (createPIIMappings sample_host (only_name "John Smith"))
    sample_record
    (maskPIIInObject sample_record
       (createPIIMappings sample_host (only_name "John Smith"))).
Proof.
  apply (maskPIIInObject_same_shape sample_record
           (createPIIMappings sample_host (only_name "John Smith"))
           eq_refl eq_refl).
Defined.

(** A record with an own key [__proto__], as [JSON.parse] builds one:
    the assignment [masked[key] = ...] reaches the setter of the
    prototype, and the result has one key less than the record. *)
Lemma maskPIIInObject_drops_proto_key :
  let v := JObject [("__proto__", JString "John Smith");
                    ("note", JString "John Smith")] in
  well_formed v = true /\
  maskPIIInObject v (createPIIMappings sample_host (only_name "John Smith"))
  = JObject [("note", JString "[STUDENT_NAME]")].
Proof. split; reflexivity. Qed.

(** The record of the specification's example: same two keys, the text
    masked, the number unchanged. *)
Example maskPIIInObject_sample (host : DateHost) :
  maskPIIInObject sample_record
    (createPIIMappings host (only_name "John Smith"))
  = JObject [("note", JString "[STUDENT_NAME]"); ("count", JNumber 3)].
Proof. reflexivity. Qed.

(* ================================================================== *)
(** * The table is read, never written *)
(* ================================================================== *)

Section StoreFacts.
Local Abbreviation pure_maskPII := maskPII.
Local Abbreviation pure_unmaskPII := unmaskPII.
Local Abbreviation pure_validateNoExposedPII := validateNoExposedPII.
Import Store.
Local Open Scope list_scope.

Lemma nth_error_last (h : heap) (c : cell) :
  nth_error (h ++ [c]) (List.length h) = Some c.
Proof. rewrite nth_error_app2, Nat.sub_diag by lia. reflexivity. Qed.

Lemma nth_error_old (h l : heap) (r : ref) (c : cell) :
  nth_error h r = Some c -> nth_error (h ++ l) r = Some c.
Proof.
  intros H. rewrite nth_error_app1; [exact H|].
  apply nth_error_Some. congruence.
Qed.

Lemma update_last (h l : heap) (c c' : cell) :
  update (h ++ c :: l) (List.length h) c' = (h ++ c' :: l)%list.
Proof. induction h as [|x h IH]; simpl; [reflexivity | now rewrite IH]. Qed.

Lemma nth_error_middle (h l : heap) (c : cell) :
  nth_error (h ++ c :: l) (List.length h) = Some c.
Proof. rewrite nth_error_app2, Nat.sub_diag by lia. reflexivity. Qed.

Lemma preserved_app (h l : heap) : preserved h (h ++ l).
Proof.
  unfold preserved. rewrite firstn_app, Nat.sub_diag, firstn_all. simpl.
  apply app_nil_r.
Qed.

(** A loop whose body only reads the store. *)
Lemma for_of_reading (A S : Type) (body : S -> A -> M S)
      (step : S -> A -> S) (h : heap) :
  (forall s x, body s x h = (step s x, h)) ->
  forall items s, for_of items body s h = (fold_left step items s, h).
Proof.
  intros Hbody. induction items as [|x items IH]; intros s; simpl.
  - reflexivity.
  - unfold bind. rewrite Hbody. apply IH.
Qed.

Lemma run_bind (A B : Type) (m : M A) (f : A -> M B) (h : heap) :
  bind m f h = f (fst (m h)) (snd (m h)).
Proof. unfold bind. now destruct (m h). Qed.

Lemma run_read_obj (h : heap) (r : ref) (o : obj string) :
  nth_error h r = Some (Obj o) -> read_obj r h = (o, h).
Proof. intros H. unfold read_obj. now rewrite H. Qed.

Lemma run_read_arr (h : heap) (r : ref) (a : list string) :
  nth_error h r = Some (Arr a) -> read_arr r h = (a, h).
Proof. intros H. unfold read_arr. now rewrite H. Qed.

Lemma run_get_prop (h : heap) (r : ref) (o : obj string) (k : string) :
  nth_error h r = Some (Obj o) -> get_prop r k h = (obj_get o k, h).
Proof.
  intros H. unfold get_prop. now rewrite run_bind, (run_read_obj h r o H).
Qed.

Lemma run_alloc (h : heap) (c : cell) :
  alloc c h = (List.length h, h ++ [c]).
Proof. reflexivity. Qed.

Lemma run_ret (A : Type) (a : A) (h : heap) : ret a h = (a, h).
Proof. reflexivity. Qed.

Lemma run_Array_sort (h : heap) (cmp : string -> string -> Z) (r : ref)
      (a : list string) :
  nth_error h r = Some (Arr a) ->
  Array_sort cmp r h = (r, update h r (Arr (sort cmp a))).
Proof. intros H. unfold Array_sort. now rewrite H. Qed.

Ltac run_step := rewrite run_bind; cbn beta iota delta [fst snd].

Lemma maskPII_store (h : heap) (mappings : ref) (table : PIIMappings)
      (text : string) :
  nth_error h mappings = Some (Obj table) ->
  Store.maskPII text mappings h =
  (pure_maskPII text table,
   h ++ [Arr (sort by_length_desc (keys table))]).
Proof.
  intros Hm. unfold Store.maskPII, Object_keys.
  rewrite !run_bind, (run_read_obj h mappings table Hm). cbn [fst snd].
  rewrite !run_alloc. cbn [fst snd].
  rewrite !(run_Array_sort _ _ _ _ (nth_error_last h _)).
  rewrite (update_last h [] _ _). cbn [fst snd].
  rewrite !(run_read_arr _ _ _ (nth_error_last h _)). cbn [fst snd].
  apply for_of_reading. intros s x.
  now rewrite run_bind, (run_get_prop _ _ _ x (nth_error_old h _ _ _ Hm)).
Qed.

Lemma reverse_loop_store (h : heap) :
  forall (es : list (string * string)) (rev : obj string),
    for_of es
      (fun (_ : unit) (e : string * string) =>
         let '(realValue, placeholder) := e in
         unset <- falsy_prop (List.length h) placeholder ;;
         if unset
         then set_prop (List.length h) placeholder realValue
         else ret tt)
      tt (h ++ [Obj rev])
    = (tt, h ++ [Obj
         (fold_left
            (fun reverseMappings (e : string * string) =>
               let '(realValue, placeholder) := e in
               if falsy_at reverseMappings placeholder
               then assign reverseMappings placeholder realValue
               else reverseMappings) es rev)]).
Proof.
  induction es as [|[k p] es IH]; intros rev; simpl; [reflexivity|].
  rewrite !run_bind. unfold falsy_prop.
  rewrite !run_bind, (run_read_obj _ _ _ (nth_error_last h _)).
  cbn [fst snd]. rewrite run_ret. cbn [fst snd].
  destruct (falsy_at rev p).
  - unfold set_prop. cbn [fst snd].
    rewrite nth_error_last, (update_last h [] _ _). apply IH.
  - apply IH.
Qed.

Lemma unmaskPII_store (h : heap) (mappings : ref) (table : PIIMappings)
      (text : string) :
  nth_error h mappings = Some (Obj table) ->
  Store.unmaskPII text mappings h =
  (pure_unmaskPII text table, h ++ [Obj (reverse_mappings table)]).
Proof.
  intros Hm. unfold Store.unmaskPII, Object_entries.
  rewrite !run_bind, !run_alloc. cbn [fst snd].
  rewrite !(run_read_obj _ _ _ (nth_error_old h [Obj []] _ _ Hm)).
  cbn [fst snd]. rewrite ?run_ret. cbn [fst snd].
  rewrite !reverse_loop_store. cbn [fst snd].
  fold (reverse_mappings table).
  rewrite !(run_read_obj _ _ _ (nth_error_last h _)). cbn [fst snd].
  rewrite ?run_ret. cbn [fst snd].
  unfold pure_unmaskPII.
  apply (for_of_reading _ _
           (fun unmaskedText (e : string * string) =>
              let '(placeholder, realValue) := e in
              ret (replace unmaskedText
                           (RegExp (escapeRegExp placeholder) false)
                           realValue))
           (fun unmaskedText (e : string * string) =>
              let '(placeholder, realValue) := e in
              replace unmaskedText (RegExp (escapeRegExp placeholder) false)
                      realValue)).
  intros s [p r]. reflexivity.
Qed.

Lemma exposed_loop_store (h : heap) (text : string) (rest : heap) :
  forall (ks : list string) (acc : list string),
    for_of ks
      (fun (_ : unit) realValue =>
         if (2 <? length realValue)%nat
            && includes (toLowerCase text) (toLowerCase realValue)
         then Array_push (List.length h) realValue
         else ret tt)
      tt (h ++ Arr acc :: rest)
    = (tt, h ++ Arr
         (fold_left
            (fun exposed realValue =>
               if (2 <? length realValue)%nat
                  && includes (toLowerCase text) (toLowerCase realValue)
               then exposed ++ [realValue]
               else exposed) ks acc) :: rest).
Proof.
  induction ks as [|k ks IH]; intros acc; simpl; [reflexivity|].
  rewrite run_bind.
  destruct ((2 <? length k)%nat
            && includes (toLowerCase text) (toLowerCase k)).
  - unfold Array_push. cbn [fst snd].
    rewrite nth_error_middle, update_last. apply IH.
  - apply IH.
Qed.

Lemma validateNoExposedPII_store (h : heap) (mappings : ref)
      (table : PIIMappings) (text : string) :
  nth_error h mappings = Some (Obj table) ->
  Store.validateNoExposedPII text mappings h =
  (pure_validateNoExposedPII text table,
   h ++ [Arr (exposedValues (pure_validateNoExposedPII text table));
         Arr (keys table)]).
Proof.
  intros Hm. unfold Store.validateNoExposedPII, Object_keys.
  rewrite !run_bind, !run_alloc. cbn [fst snd].
  rewrite !(run_read_obj _ _ _ (nth_error_old h [Arr []] _ _ Hm)).
  cbn [fst snd]. rewrite ?run_alloc. cbn [fst snd].
  rewrite <- ?app_assoc. simpl app.
  assert (Hk : nth_error (h ++ [Arr []; Arr (keys table)])
                         (List.length (h ++ [Arr []]))
               = Some (Arr (keys table))).
  { rewrite nth_error_app2 by (rewrite length_app; simpl; lia).
    rewrite length_app. simpl.
    replace (List.length h + 1 - List.length h) with 1 by lia.
    reflexivity. }
  rewrite !(run_read_arr _ _ _ Hk). cbn [fst snd].
  rewrite !exposed_loop_store. cbn [fst snd].
  rewrite !(run_read_arr _ _ _ (nth_error_middle h _ _)).
  reflexivity.
Qed.

End StoreFacts.

(** C9. Run on a store that holds the table at [mappings], each of
    [maskPII], [unmaskPII] and [validateNoExposedPII] returns what the
    function of (text, table) returns and leaves every object of the
    store as it was, the table included (no key added, removed or
    remapped); what they write goes to objects they allocate. *)
Theorem table_is_never_written (h : Store.heap) (mappings : Store.ref)
        (table : PIIMappings) (text : string) :
  nth_error h mappings = Some (Store.Obj table) ->
  (fst (Store.maskPII text mappings h) = maskPII text table /\
   Store.preserved h (snd (Store.maskPII text mappings h)) /\
   nth_error (snd (Store.maskPII text mappings h)) mappings
   = Some (Store.Obj table)) /\
  (fst (Store.unmaskPII text mappings h) = unmaskPII text table /\
   Store.preserved h (snd (Store.unmaskPII text mappings h)) /\
   nth_error (snd (Store.unmaskPII text mappings h)) mappings
   = Some (Store.Obj table)) /\
  (fst (Store.validateNoExposedPII text mappings h)
   = validateNoExposedPII text table /\
   Store.preserved h (snd (Store.validateNoExposedPII text mappings h)) /\
   nth_error (snd (Store.validateNoExposedPII text mappings h)) mappings
   = Some (Store.Obj table)).
Proof.
  intros Hm.
  rewrite (maskPII_store h mappings table text Hm),
    (unmaskPII_store h mappings table text Hm),
    (validateNoExposedPII_store h mappings table text Hm).
  simpl fst. simpl snd.
  repeat split; auto using preserved_app, nth_error_old.
Qed.

Lemma table_is_never_written_witness :
  let table := createPIIMappings sample_host (only_name "John Smith") in
  let h := [Store.Arr ["unrelated"]; Store.Obj table] in
  nth_error (snd (Store.unmaskPII "[STUDENT_NAME]" 1 h)) 1
  = Some (Store.Obj table).
Proof.
  intros table h.
  apply (table_is_never_written h 1 table "[STUDENT_NAME]" eq_refl).
Defined.

(* ================================================================== *)
(** * Literal patterns and bracketed tokens *)
(* ================================================================== *)

Lemma not_syntax_not_backslash (c : ascii) :
  is_syntax_char c = false -> Ascii.eqb c "\" = false.
Proof.
  unfold is_syntax_char, syntax_chars. simpl.
  rewrite !orb_false_iff. tauto.
Qed.

(** The pattern [escapeRegExp] builds denotes the string it was given. *)
Lemma parse_literal_escapeRegExp (s : string) :
  parse_literal (escapeRegExp s) = Some s.
Proof.
  induction s as [|c s IH]; simpl; [reflexivity|].
  destruct (is_syntax_char c) eqn:E.
  - cbn [parse_literal]. rewrite Ascii.eqb_refl, E, IH. reflexivity.
  - cbn [parse_literal].
    rewrite (not_syntax_not_backslash c E), E, IH. reflexivity.
Qed.

Lemma RegExp_escapeRegExp (s : string) (ic : bool) :
  RegExp (escapeRegExp s) ic = Literal s ic.
Proof. unfold RegExp. now rewrite parse_literal_escapeRegExp. Qed.

Lemma substitution_plain (repl matched before after : string) :
  mem_char "$" repl = false ->
  substitution repl matched before after = repl.
Proof.
  induction repl as [|c r IH]; [reflexivity|].
  cbn [mem_char substitution]. rewrite orb_false_iff. intros [Hc Hr].
  rewrite Ascii.eqb_sym, Hc. now rewrite IH.
Qed.

Lemma append_eq_append (a b c d : string) :
  a ++ b = c ++ d ->
  (exists z, a = c ++ z /\ d = z ++ b) \/
  (exists z, c = a ++ z /\ b = z ++ d).
Proof.
  revert c. induction a as [|x a IH]; intros c H; simpl in H.
  - right. exists c. auto.
  - destruct c as [|y c]; simpl in H.
    + left. exists (String x a). auto.
    + injection H as -> H. destruct (IH _ H) as [(z & -> & ->)|(z & -> & ->)].
      * left. now exists z.
      * right. now exists z.
Qed.

Lemma bracket_free_append (a b : string) :
  bracket_free (a ++ b) = bracket_free a && bracket_free b.
Proof.
  induction a as [|c a IH]; simpl; [reflexivity|].
  now rewrite IH, andb_assoc.
Qed.

Lemma bracket_free_lower (s : string) :
  bracket_free (toLowerCase s) = bracket_free s.
Proof.
  induction s as [|c s IH]; simpl; [reflexivity|].
  unfold toLowerCase in *. now rewrite is_bracket_lower, IH.
Qed.

Lemma bracket_free_same_case (a b : string) :
  toLowerCase a = toLowerCase b -> bracket_free a = bracket_free b.
Proof.
  intros H. now rewrite <- (bracket_free_lower a), H, bracket_free_lower.
Qed.

Lemma char_eq_ci_bracket (a b : ascii) :
  char_eq_ci a b = true -> is_bracket a = is_bracket b.
Proof.
  intros H. apply char_eq_ci_iff in H.
  now rewrite <- (is_bracket_lower a), H, is_bracket_lower.
Qed.

Lemma char_eq_bracket (ic : bool) (a b : ascii) :
  char_eq ic a b = true -> is_bracket a = is_bracket b.
Proof.
  destruct ic; simpl.
  - apply char_eq_ci_bracket.
  - now intros ->%Ascii.eqb_eq.
Qed.

(** An occurrence of a bracket-free string does not cross a bracket. *)
Lemma occurs_ci_across_bracket (k x y : string) (c : ascii) :
  bracket_free k = true -> is_bracket c = true ->
  occurs_ci k (x ++ String c y) -> occurs_ci k x \/ occurs_ci k y.
Proof.
  intros Hk Hc (pre & mid & post & H & Hm).
  assert (Hmid : bracket_free mid = true)
    by now rewrite (bracket_free_same_case _ _ Hm).
  destruct (append_eq_append _ _ _ _ H) as [(z & Hx & H')|(z & Hpre & H')].
  - symmetry in H'.
    destruct (append_eq_append _ _ _ _ H')
      as [(w & Hz & Hw)|(w & Hmid' & Hw)].
    + left. exists pre, mid, w. split; [|exact Hm]. now rewrite Hx, Hz.
    + destruct w as [|d w]; simpl in Hw.
      * left. exists pre, mid, "". split; [|exact Hm].
        now rewrite Hx, Hmid', !append_nil_r.
      * injection Hw as Hd _. exfalso.
        rewrite Hmid', bracket_free_append in Hmid. simpl in Hmid.
        rewrite <- Hd, Hc in Hmid. simpl in Hmid.
        rewrite andb_false_r in Hmid. discriminate.
  - destruct z as [|d z]; simpl in H'.
    + destruct mid as [|d mid]; simpl in H'.
      * right. exists "", "", y. split; [reflexivity | exact Hm].
      * injection H' as Hd _. exfalso. simpl in Hmid.
        rewrite <- Hd, Hc in Hmid. discriminate.
    + injection H' as _ Hy. right. exists z, mid, post.
      split; [exact Hy | exact Hm].
Qed.

Lemma last_char_append (a : string) (c : ascii) :
  last_char (a ++ String c "") = Some c.
Proof.
  induction a as [|x a IH]; simpl; [reflexivity|].
  rewrite IH. now destruct (a ++ String c "").
Qed.

Lemma but_last_append (a : string) (c : ascii) :
  but_last (a ++ String c "") = a.
Proof.
  induction a as [|x a IH]; simpl; [reflexivity|].
  rewrite IH. destruct a; reflexivity.
Qed.

Lemma but_last_last (s : string) (c : ascii) :
  last_char s = Some c -> s = but_last s ++ String c "".
Proof.
  induction s as [|x s IH]; simpl; [discriminate|].
  destruct s as [|y s].
  - now intros [= ->].
  - intros H. simpl. f_equal. now apply IH.
Qed.

(** The shape of a bracketed token. *)
Lemma token_shape (p : string) :
  is_token p = true ->
  exists body,
    p = String "[" (body ++ "]") /\
    bracket_free body = true /\ mem_char "$" body = false.
Proof.
  destruct p as [|c rest]; simpl; [discriminate|].
  rewrite !andb_true_iff, negb_true_iff, Ascii.eqb_eq.
  intros [[[-> Hl] Hb] Hd].
  destruct (last_char rest) as [d|] eqn:E; [|discriminate].
  apply Ascii.eqb_eq in Hl as ->.
  exists (but_last rest). repeat split; auto.
  f_equal. now apply but_last_last.
Qed.

Lemma mem_char_append (c : ascii) (a b : string) :
  mem_char c (a ++ b) = mem_char c a || mem_char c b.
Proof.
  induction a as [|x a IH]; simpl; [reflexivity|].
  now rewrite IH, orb_assoc.
Qed.

Lemma token_plain (p : string) :
  is_token p = true -> mem_char "$" p = false.
Proof.
  intros (body & -> & _ & Hd)%token_shape. simpl.
  now rewrite mem_char_append, Hd.
Qed.

(** An occurrence of a bracket-free string around a token lies before
    it, inside its body or after it. *)
Lemma occurs_ci_around_token (k x body y : string) :
  bracket_free k = true ->
  occurs_ci k (x ++ String "[" (body ++ "]") ++ y) ->
  occurs_ci k x \/ occurs_ci k body \/ occurs_ci k y.
Proof.
  intros Hk H.
  apply (occurs_ci_across_bracket k x _ "[" Hk eq_refl) in H
    as [H|H]; [now left|].
  rewrite append_assoc in H. simpl in H.
  apply (occurs_ci_across_bracket k body y "]" Hk eq_refl) in H. tauto.
Qed.

Lemma all_placeholders_are_tokens :
  forallb is_token PLACEHOLDERS.all = true.
Proof. reflexivity. Qed.

(* ================================================================== *)
(** * One replacement pass that inserts a token *)
(* ================================================================== *)

Section TokenPass.
Variables (ic : bool) (lit body : string).
Hypothesis body_plain : mem_char "$" body = false.

Local Abbreviation token := (String "[" (body ++ "]")).

Lemma substitution_token (matched before after : string) :
  substitution token matched before after = token.
Proof.
  apply substitution_plain. simpl. now rewrite mem_char_append, body_plain.
Qed.

(** What starts the output of a pass, if it has no bracket, starts the
    input. *)
Lemma scan_prefix (s : string) : forall k before,
  bracket_free k = true ->
  matches_at true k (replace_scan ic lit token 0 before s) = true ->
  matches_at true k s = true.
Proof.
  induction s as [|c s IH]; intros k before Hk H; [exact H|].
  cbn [replace_scan] in H.
  destruct (matches_at ic lit (String c s)).
  - rewrite substitution_token in H.
    destruct k as [|d k]; [reflexivity|].
    simpl in H, Hk. apply andb_true_iff in H as [Hd _].
    apply char_eq_ci_bracket in Hd. simpl in Hd.
    rewrite Hd in Hk. discriminate.
  - destruct k as [|d k]; [reflexivity|].
    simpl in H |- *. apply andb_true_iff in H as [Hd H].
    simpl in Hk. apply andb_true_iff in Hk as [_ Hk].
    rewrite Hd. simpl. exact (IH k _ Hk H).
Qed.

(** A pass creates no occurrence of a bracket-free string, except inside
    the token it inserts. *)
Lemma scan_preserves (k : string) (Hk : bracket_free k = true) (s : string) :
  forall skip before,
    occurs_ci k (replace_scan ic lit token skip before s) ->
    occurs_ci k s \/ occurs_ci k body.
Proof.
  induction s as [|c s IH]; intros skip before H; [now left|].
  cbn [replace_scan] in H. destruct skip as [|n].
  - destruct (matches_at ic lit (String c s)) eqn:E.
    + rewrite substitution_token in H.
      apply (occurs_ci_around_token k "" body _ Hk) in H
        as [H|[H|H]].
      * left. apply occurs_ci_nil in H. subst k.
        now exists "", "", (String c s).
      * now right.
      * apply IH in H as [H|H]; [left; now apply occurs_ci_cons | now right].
    + apply occurs_ci_prefix_or_tail in H as [H|H].
      * left. apply matches_at_occurs_ci.
        apply (scan_prefix (String c s) k before Hk).
        cbn [replace_scan]. now rewrite E.
      * apply IH in H as [H|H]; [left; now apply occurs_ci_cons | now right].
  - apply IH in H as [H|H]; [left; now apply occurs_ci_cons | now right].
Qed.

(** The pass for a bracket-free literal that does not occur in the token
    leaves no occurrence of the literal. *)
Lemma scan_removes (s : string) :
  ic = true -> lit <> "" -> bracket_free lit = true ->
  ~ occurs_ci lit body ->
  forall skip before,
    ~ occurs_ci lit (replace_scan ic lit token skip before s).
Proof.
  intros Hic Hne Hk Hbody.
  induction s as [|c s IH]; intros skip before H.
  - apply occurs_ci_nil in H. contradiction.
  - cbn [replace_scan] in H. destruct skip as [|n].
    + destruct (matches_at ic lit (String c s)) eqn:E.
      * rewrite substitution_token in H.
        apply (occurs_ci_around_token lit "" body _ Hk) in H
          as [H|[H|H]].
        -- apply occurs_ci_nil in H. contradiction.
        -- contradiction.
        -- now apply IH in H.
      * apply occurs_ci_prefix_or_tail in H as [H|H].
        -- assert (E' : matches_at true lit (String c s) = true).
           { apply (scan_prefix (String c s) lit before Hk).
             cbn [replace_scan]. now rewrite E. }
           rewrite Hic in E. congruence.
        -- now apply IH in H.
    + now apply IH in H.
Qed.

(** The pass for the empty pattern puts the token before every code
    unit and at the end. *)
Lemma empty_preserves (k : string) (Hk : bracket_free k = true) (s : string) :
  forall before,
    occurs_ci k (replace_empty token before s) ->
    occurs_ci k s \/ occurs_ci k body.
Proof.
  induction s as [|c s IH]; intros before H; cbn [replace_empty] in H;
    rewrite substitution_token in H.
  - apply (occurs_ci_around_token k "" body "" Hk) in H as [H|[H|H]]; auto.
  - apply (occurs_ci_around_token k "" body _ Hk) in H as [H|[H|H]].
    + left. apply occurs_ci_nil in H. subst k.
      now exists "", "", (String c s).
    + now right.
    + apply occurs_ci_prefix_or_tail in H as [H|H].
      * left. destruct k as [|d k]; [now exists "", "", (String c s)|].
        simpl in H. apply andb_true_iff in H as [Hd H].
        destruct k as [|e k].
        -- apply matches_at_occurs_ci. simpl. now rewrite Hd.
        -- exfalso. destruct s as [|c' s]; cbn [replace_empty] in H;
             rewrite substitution_token in H; simpl in H;
             apply andb_true_iff in H as [He _];
             apply char_eq_ci_bracket in He; simpl in He;
             simpl in Hk; rewrite He in Hk; simpl in Hk;
             now rewrite andb_false_r in Hk.
      * apply IH in H as [H|H]; [left; now apply occurs_ci_cons | now right].
Qed.

End TokenPass.

(* ================================================================== *)
(** * Masking leaves no real value behind *)
(* ================================================================== *)

Lemma occurs_ci_body_token (k body : string) :
  occurs_ci k body -> occurs_ci k (String "[" (body ++ "]")).
Proof.
  intros (pre & mid & post & -> & Hm).
  exists (String "[" pre), mid, (post ++ "]"). split; [|exact Hm].
  simpl. now rewrite !append_assoc.
Qed.

Lemma replace_token_preserves (text k lit p : string) (ic : bool) :
  is_token p = true -> bracket_free k = true ->
  occurs_ci k (replace text (Literal lit ic) p) ->
  occurs_ci k text \/ occurs_ci k p.
Proof.
  intros (body & -> & _ & Hplain)%token_shape Hk H.
  assert (G : occurs_ci k text \/ occurs_ci k body).
  { destruct lit as [|c lit]; cbn [replace] in H.
    - now apply (empty_preserves body Hplain k Hk text "").
    - now apply (scan_preserves ic (String c lit) body Hplain k Hk text 0 ""). }
  destruct G as [G|G]; [now left | right; now apply occurs_ci_body_token].
Qed.

Lemma replace_token_removes (text lit p : string) :
  is_token p = true -> lit <> "" -> bracket_free lit = true ->
  ~ occurs_ci lit p ->
  ~ occurs_ci lit (replace text (Literal lit true) p).
Proof.
  intros (body & -> & _ & Hplain)%token_shape Hne Hk Hp.
  destruct lit as [|c lit]; [contradiction|]. cbn [replace].
  apply (scan_removes true (String c lit) body Hplain text eq_refl Hne Hk).
  intros H. apply Hp. now apply occurs_ci_body_token.
Qed.

Lemma maskPII_fold (text : string) (mappings : PIIMappings) :
  maskPII text mappings =
  fold_left (mask_pass mappings) (sort by_length_desc (keys mappings)) text.
Proof. reflexivity. Qed.

Lemma mask_pass_literal (mappings : PIIMappings) (acc k : string) :
  mask_pass mappings acc k =
  replace acc (Literal k true) (replace_value (obj_get mappings k)).
Proof. unfold mask_pass. now rewrite RegExp_escapeRegExp. Qed.

Section Separated.
Variable mappings : PIIMappings.
Hypothesis Hsep : separated mappings = true.

Lemma separated_token (k : string) :
  In k (keys mappings) ->
  exists p, obj_get mappings k = Some p /\ is_token p = true /\
            In p (values mappings).
Proof.
  intros Hk. apply (proj1 (in_keys _ _ _)) in Hk.
  destruct (in_obj_get _ _ _ Hk) as [p Hp]. exists p.
  assert (Hin : In p (values mappings)).
  { apply in_values. apply obj_get_in in Hp.
    now apply (in_map snd) in Hp. }
  unfold separated in Hsep. apply andb_true_iff in Hsep as [Ht _].
  rewrite forallb_forall in Ht. auto.
Qed.

Lemma separated_key (k : string) :
  In k (keys mappings) -> k <> "" ->
  bracket_free k = true /\
  forall p, In p (values mappings) -> ~ occurs_ci k p.
Proof.
  intros Hk Hne. unfold separated in Hsep.
  apply andb_true_iff in Hsep as [_ Hkeys].
  rewrite forallb_forall in Hkeys. specialize (Hkeys k Hk).
  apply orb_true_iff in Hkeys as [Hkeys | Hkeys].
  - destruct k; [contradiction | discriminate].
  - apply andb_true_iff in Hkeys as [Hb Hall]. split; [exact Hb|].
    intros p Hp Hocc. rewrite forallb_forall in Hall.
    specialize (Hall p Hp). apply negb_true_iff in Hall.
    apply includes_ci_occurs in Hocc. congruence.
Qed.

Lemma mask_passes_clean (L : list string) : forall (done : list string) acc,
  (forall k, In k (done ++ L)%list -> In k (keys mappings)) ->
  (forall k, In k done -> k <> "" -> ~ occurs_ci k acc) ->
  forall k, In k (done ++ L)%list -> k <> "" ->
            ~ occurs_ci k (fold_left (mask_pass mappings) L acc).
Proof.
  induction L as [|j L IH]; intros done acc Hkeys Hclean k Hk Hne.
  - rewrite app_nil_r in Hk. simpl. now apply Hclean.
  - simpl.
    assert (Hj : In j (keys mappings)).
    { apply Hkeys. apply in_or_app. right. now left. }
    destruct (separated_token j Hj) as (p & Hp & Htok & Hpin).
    apply (IH (done ++ [j])%list).
    + intros x Hx. apply Hkeys. now rewrite <- app_assoc in Hx.
    + intros x Hx Hxne. rewrite mask_pass_literal, Hp. simpl.
      apply in_app_or in Hx as [Hx|[<-|[]]].
      * assert (Hxk : In x (keys mappings)).
        { apply Hkeys. apply in_or_app. now left. }
        destruct (separated_key x Hxk Hxne) as [Hb Hvals].
        intros H. apply replace_token_preserves in H as [H|H]; auto.
        -- now apply (Hclean x Hx Hxne).
        -- now apply (Hvals p Hpin).
      * destruct (separated_key j Hj Hxne) as [Hb Hvals].
        apply replace_token_removes; auto.
    + now rewrite <- app_assoc.
    + exact Hne.
Qed.

Lemma maskPII_clean (text k : string) :
  In k (keys mappings) -> k <> "" -> ~ occurs_ci k (maskPII text mappings).
Proof.
  intros Hk Hne. rewrite maskPII_fold.
  assert (Hperm := sort_perm _ by_length_desc (keys mappings)).
  apply (mask_passes_clean _ [] text).
  - intros x Hx. simpl in Hx. now apply (Permutation_in _ Hperm).
  - intros x [].
  - simpl. apply (Permutation_in _ (Permutation_sym Hperm)). exact Hk.
  - exact Hne.
Qed.

End Separated.

(** C2 (as amended). For an ASCII text and an ASCII table whose
    placeholders are bracketed tokens and whose non-empty real values
    contain no bracket and occur, up to case, in none of its
    placeholders, the output of [maskPII] contains no occurrence, in any
    casing, of any non-empty key.  For every table and text the keys are
    taken in descending order of length, each once, and each is replaced
    as a literal, globally and up to case, in the output of the
    replacements before it. *)
Theorem maskPII_removes_keys (mappings : PIIMappings) (text : string) :
  (separated mappings = true -> ascii_table mappings = true ->
   ascii_only text = true ->
   forall realValue,
     In realValue (keys mappings) -> 0 < length realValue ->
     ~ occurs_ci realValue (maskPII text mappings)) /\
  (let sortedKeys := sort by_length_desc (keys mappings) in
   Permutation sortedKeys (keys mappings) /\
   StronglySorted (fun a b => length b <= length a) sortedKeys /\
   maskPII text mappings =
   fold_left
     (fun maskedText realValue =>
        replace maskedText (Literal realValue true)
                (replace_value (obj_get mappings realValue)))
     sortedKeys text).
Proof.
  split.
  - intros Hsep _ _ k Hk Hlen. apply (maskPII_clean mappings Hsep text k Hk).
    intros ->. simpl in Hlen. lia.
  - cbv zeta. split; [apply sort_perm|]. split; [apply sort_by_length_sorted|].
    rewrite maskPII_fold.
    generalize (sort by_length_desc (keys mappings)). intros L.
    revert text. induction L as [|k L IH]; intros text; simpl; [reflexivity|].
    now rewrite mask_pass_literal, IH.
Qed.

Lemma maskPII_removes_keys_witness :
  separated (createPIIMappings sample_host (only_name "John Smith")) = true /\
  ~ occurs_ci "john"
      (maskPII "JOHN SMITH said john is happy"
         (createPIIMappings sample_host (only_name "John Smith"))).
Proof.
  split; [reflexivity|].
  apply (proj1 (maskPII_removes_keys
                  (createPIIMappings sample_host (only_name "John Smith"))
                  "JOHN SMITH said john is happy") eq_refl eq_refl eq_refl).
  - simpl. tauto.
  - simpl. lia.
Defined.

(** With a first name that is spelt inside a placeholder the output of
    [maskPII] still contains the first name: here ["EVE"], inside the
    grade token. *)
Lemma maskPII_key_inside_placeholder :
  let table :=
    createPIIMappings sample_host
      {| name := "Eve Adams"; dateOfBirth := ""; studentId := "";
         school := ""; grade := "K"; parentName := "";
         parentEmail := None; address := None |} in
  maskPII "Eve Adams is in grade K" table
  = "[STUDENT_NAME] is in grade [GRADE_LEVEL]" /\
  existsb (String.eqb "Eve") (keys table) = true /\
  includes_ci (maskPII "Eve Adams is in grade K" table) "Eve" = true.
Proof. repeat split. Qed.

Lemma filter_none (A : Type) (f : A -> bool) (l : list A) :
  (forall x, In x l -> f x = false) -> filter f l = [].
Proof.
  induction l as [|x l IH]; simpl; intros H; [reflexivity|].
  rewrite (H x) by now left. apply IH. intros y Hy. apply H. now right.
Qed.

Lemma validation_of_no_exposed (text : string) (mappings : PIIMappings) :
  exposedValues (validateNoExposedPII text mappings) = [] ->
  validateNoExposedPII text mappings
  = {| isClean := true; exposedValues := [] |}.
Proof.
  unfold validateNoExposedPII. simpl. now intros ->.
Qed.

Lemma clean_after_maskPII (mappings : PIIMappings) (text : string) :
  separated mappings = true ->
  validateNoExposedPII (maskPII text mappings) mappings
  = {| isClean := true; exposedValues := [] |}.
Proof.
  intros Hsep. apply validation_of_no_exposed.
  rewrite exposedValues_filter. apply filter_none. intros k Hk.
  unfold reportable. destruct (Nat.ltb_spec 2 (length k)); [|reflexivity].
  simpl. destruct (includes_ci (maskPII text mappings) k) eqn:E;
    [|reflexivity].
  exfalso. apply includes_ci_occurs in E.
  apply (maskPII_clean mappings Hsep text k Hk); [|exact E].
  intros ->. simpl in *. lia.
Qed.

(** C3 (as amended). For an ASCII table whose placeholders are
    bracketed tokens and whose non-empty real values contain no bracket
    and occur, up to case, in none of its placeholders,
    [validateNoExposedPII] finds the output of [maskPII] over the same
    table clean, with an empty list, whatever the ASCII text: as given,
    in lower case or in upper case. *)
Theorem validateNoExposedPII_after_maskPII
        (mappings : PIIMappings) (text : string) :
  separated mappings = true -> ascii_table mappings = true ->
  ascii_only text = true ->
  validateNoExposedPII (maskPII text mappings) mappings
  = {| isClean := true; exposedValues := [] |} /\
  validateNoExposedPII (maskPII (toLowerCase text) mappings) mappings
  = {| isClean := true; exposedValues := [] |} /\
  validateNoExposedPII (maskPII (toUpperCase text) mappings) mappings
  = {| isClean := true; exposedValues := [] |}.
Proof.
  intros Hsep _ _. repeat split; now apply clean_after_maskPII.
Qed.

Lemma validateNoExposedPII_after_maskPII_witness :
  let table := createPIIMappings sample_host (only_name "John Smith") in
  validateNoExposedPII
    (maskPII (toUpperCase "John Smith said John is happy") table) table
  = {| isClean := true; exposedValues := [] |}.
Proof.
  intros table.
  apply (validateNoExposedPII_after_maskPII table
           "John Smith said John is happy" eq_refl eq_refl eq_refl).
Defined.

(** The first name ["Stu"] is spelt inside both name tokens: the masked
    text is reported as leaking it, under its three keys. *)
Lemma validateNoExposedPII_after_maskPII_leak :
  let table := createPIIMappings sample_host (only_name "Stu Smith") in
  maskPII "Stu is here" table
  = "[[[STUDENT_FIRST]DENT_FIRST]DENT_FIRST] is here" /\
  validateNoExposedPII (maskPII "Stu is here" table) table
  = {| isClean := false; exposedValues := ["Stu"; "stu"; "STU"] |}.
Proof. split; reflexivity. Qed.

(* ================================================================== *)
(** * The reverse table and unresolved tokens *)
(* ================================================================== *)

(** The test of the first loop of [unmaskPII] lets no assignment
    through that would reach the setter of the prototype. *)
Lemma assign_falsy (o : obj string) (k v : string) :
  falsy_at o k = true -> assign o k v = obj_set o k v.
Proof.
  unfold falsy_at, assign, has_own.
  destruct (obj_get o k) as [w|] eqn:E.
  - intros _. now rewrite andb_false_r.
  - intros H. destruct (String.eqb_spec k "__proto__") as [->|]; [|reflexivity].
    discriminate.
Qed.

Lemma reverse_mappings_fold (mappings : PIIMappings) :
  reverse_mappings mappings = fold_left reverse_step (entries mappings) [].
Proof.
  unfold reverse_mappings. generalize (@nil (string * string)).
  induction (entries mappings) as [|[k q] es IH]; intros rev;
    [reflexivity|].
  cbn [fold_left reverse_step].
  destruct (falsy_at rev q) eqn:E; [rewrite (assign_falsy rev q k E)|];
    apply IH.
Qed.

Lemma is_token_not_inherited (p : string) :
  is_token p = true -> inherited p = false.
Proof.
  destruct p as [|c p]; [discriminate|]. cbn [is_token].
  rewrite !andb_true_iff, Ascii.eqb_eq. intros [[[-> _] _] _]. reflexivity.
Qed.

Lemma unmaskPII_fold (text : string) (mappings : PIIMappings) :
  unmaskPII text mappings =
  fold_left unmask_pass (entries (reverse_mappings mappings)) text.
Proof. reflexivity. Qed.

(** Without empty real values, a token keeps the first real value the
    loop meets for it. *)
Lemma reverse_fold_lookup (es : list (string * string)) :
  forall (rev : obj string) (p : string),
    (forall e, In e es -> fst e <> "") ->
    (forall k v, obj_get rev k = Some v -> v <> "") ->
    obj_get (fold_left reverse_step es rev) p =
    match obj_get rev p with
    | Some v => Some v
    | None => if inherited p then None else first_real_value p es
    end.
Proof.
  induction es as [|[k q] es IH]; intros rev p Hes Hrev;
    cbn [fold_left reverse_step first_real_value].
  - destruct (obj_get rev p); [reflexivity|]. now destruct (inherited p).
  - assert (Hk : k <> "") by (apply (Hes (k, q)); now left).
    assert (Hes' : forall e, In e es -> fst e <> "")
      by (intros e He; apply Hes; now right).
    unfold falsy_at. destruct (obj_get rev q) as [v|] eqn:Eq.
    + assert (Hv : truthy v = true).
      { specialize (Hrev q v Eq). now destruct v. }
      rewrite Hv. cbn [negb]. rewrite (IH rev p Hes' Hrev).
      destruct (String.eqb_spec q p) as [->|Hqp]; [now rewrite Eq|].
      reflexivity.
    + destruct (inherited q) eqn:Hq; cbn [negb].
      * rewrite (IH rev p Hes' Hrev).
        destruct (String.eqb_spec q p) as [->|Hqp]; [|reflexivity].
        now rewrite Eq, Hq.
      * rewrite IH; [|exact Hes'|].
        -- rewrite obj_get_set.
           destruct (String.eqb_spec q p) as [->|Hqp];
             [now rewrite Eq, Hq | reflexivity].
        -- intros k' v'. rewrite obj_get_set.
           destruct (String.eqb q k'); [now intros [= <-] | apply Hrev].
Qed.

Lemma reverse_fold_keys (es : list (string * string)) :
  forall (rev : obj string) (p : string),
    In p (map fst (fold_left reverse_step es rev)) ->
    In p (map fst rev) \/ In p (map snd es).
Proof.
  induction es as [|[k q] es IH]; intros rev p H; simpl in *; [now left|].
  apply IH in H as [H|H]; [|now right; right].
  destruct (falsy_at rev q); [|now left].
  apply in_obj_set_keys in H as [->|H]; [right; now left | now left].
Qed.

Lemma reverse_mappings_keys (mappings : PIIMappings) (p : string) :
  In p (map fst (reverse_mappings mappings)) -> In p (values mappings).
Proof.
  rewrite reverse_mappings_fold. intros H.
  apply reverse_fold_keys in H as [[]|H]. exact H.
Qed.

Lemma index_entries_none (V : Type) (o : obj V) :
  (forall e, In e o -> array_index (fst e) = None) -> index_entries o = [].
Proof.
  induction o as [|[k v] o IH]; simpl; intros H; [reflexivity|].
  assert (Hk : array_index k = None) by (apply (H (k, v)); now left).
  rewrite Hk. apply IH. intros e He. apply H. now right.
Qed.

Lemma named_entries_all (V : Type) (o : obj V) :
  (forall e, In e o -> array_index (fst e) = None) -> named_entries o = o.
Proof.
  unfold named_entries.
  induction o as [|[k v] o IH]; simpl; intros H; [reflexivity|].
  assert (Hk : array_index k = None) by (apply (H (k, v)); now left).
  unfold is_index at 1. simpl. rewrite Hk. simpl.
  f_equal. apply IH. intros e He. apply H. now right.
Qed.

(** When no key is an array index, enumeration order is creation order. *)
Lemma entries_without_indices (V : Type) (o : obj V) :
  (forall k, In k (keys o) -> array_index k = None) -> entries o = o.
Proof.
  intros H.
  assert (H' : forall e, In e o -> array_index (fst e) = None).
  { intros e He. apply H, in_keys. now apply in_map. }
  unfold entries. now rewrite index_entries_none, named_entries_all.
Qed.

Lemma count_occurrences_append_r (t a b : string) :
  count_occurrences t b <= count_occurrences t (a ++ b).
Proof.
  induction a as [|x a IH]; simpl; [lia|].
  destruct (matches_at false t (String x (a ++ b))); lia.
Qed.

Lemma take_append_length (a b : string) : take (length a) (a ++ b) = a.
Proof. induction a as [|x a IH]; simpl; [now destruct b | now rewrite IH]. Qed.

Lemma bracket_free_no_open (s : string) :
  bracket_free s = true -> mem_char "[" s = false.
Proof.
  induction s as [|c s IH]; simpl; [reflexivity|].
  rewrite andb_true_iff, negb_true_iff. unfold is_bracket.
  rewrite orb_false_iff. intros [[Hc _] Hs].
  rewrite Ascii.eqb_sym in Hc. now rewrite (IH Hs), orb_false_r.
Qed.

Section TokenCount.
Variables (pb tb repl : string).
Hypothesis pb_free : bracket_free pb = true.
Hypothesis tb_free : bracket_free tb = true.
Hypothesis distinct : pb <> tb.

Local Abbreviation p := (String "[" (pb ++ "]")).
Local Abbreviation t := (String "[" (tb ++ "]")).

Lemma close_not_in_body (b z : string) :
  bracket_free (b ++ String "]" z) = false.
Proof.
  rewrite bracket_free_append. simpl. apply andb_false_r.
Qed.

(** Two different tokens do not start at the same place. *)
Lemma tokens_exclusive (s : string) :
  matches_at false p s = true -> matches_at false t s = false.
Proof.
  intros Hp. destruct (matches_at false t s) eqn:Ht; [|reflexivity].
  exfalso. apply matches_at_exact in Hp as [r1 H1].
  apply matches_at_exact in Ht as [r2 H2]. rewrite H1 in H2.
  simpl in H2. injection H2 as H. rewrite !append_assoc in H.
  destruct (append_eq_append _ _ _ _ H) as [(z & Hz & Hz')|(z & Hz & Hz')];
    (destruct z as [|c z];
     [ rewrite append_nil_r in Hz; congruence
     | simpl in Hz'; injection Hz' as Hc _; subst c ]).
  - rewrite Hz, close_not_in_body in pb_free. discriminate.
  - rewrite Hz, close_not_in_body in tb_free. discriminate.
Qed.

Lemma not_open_not_token (c : ascii) (s : string) (q : string) :
  Ascii.eqb "[" c = false ->
  matches_at false (String "[" q) (String c s) = false.
Proof. intros H. cbn [matches_at char_eq]. now rewrite H. Qed.

(** Text without an opening bracket goes through the pass as it is. *)
Lemma scan_keeps_plain_prefix (u : string) : forall s before,
  mem_char "[" u = false ->
  matches_at false u s = true ->
  matches_at false u (replace_scan false p repl 0 before s) = true.
Proof.
  induction u as [|d u IH]; intros s before Hu H; [reflexivity|].
  destruct s as [|c s]; [discriminate|].
  cbn [matches_at char_eq] in H. apply andb_true_iff in H as [Hd H].
  apply Ascii.eqb_eq in Hd as <-.
  cbn [mem_char] in Hu. apply orb_false_iff in Hu as [Hd Hu].
  cbn [replace_scan]. rewrite (not_open_not_token d s _ Hd).
  cbn [matches_at char_eq]. rewrite Ascii.eqb_refl. simpl.
  now apply IH.
Qed.

Lemma count_scan (s : string) : forall skip before,
  mem_char "[" (take skip s) = false ->
  count_occurrences t s
  <= count_occurrences t (replace_scan false p repl skip before s).
Proof.
  induction s as [|c s IH]; intros skip before Hskip.
  - simpl. lia.
  - cbn [replace_scan]. destruct skip as [|n].
    + destruct (matches_at false p (String c s)) eqn:E.
      * cbn [count_occurrences]. rewrite (tokens_exclusive _ E).
        etransitivity; [|apply count_occurrences_append_r].
        simpl plus. apply IH.
        apply matches_at_exact in E as [r Hr]. simpl in Hr.
        injection Hr as _ ->.
        replace (length p - 1) with (length (pb ++ "]")) by (simpl; lia).
        rewrite take_append_length, mem_char_append.
        now rewrite (bracket_free_no_open _ pb_free).
      * cbn [count_occurrences].
        assert (Hrest := IH 0 (before ++ String c "") eq_refl).
        destruct (matches_at false t (String c s)) eqn:Et; [|lia].
        assert (Et' : matches_at false t
                  (String c (replace_scan false p repl 0
                               (before ++ String c "") s)) = true).
        { cbn [matches_at char_eq] in Et |- *.
          apply andb_true_iff in Et as [Hc Et]. rewrite Hc. simpl.
          apply scan_keeps_plain_prefix; [|exact Et].
          rewrite mem_char_append.
          now rewrite (bracket_free_no_open _ tb_free). }
        rewrite Et'. lia.
    + cbn [take mem_char] in Hskip. apply orb_false_iff in Hskip as [Hc Hn].
      cbn [count_occurrences]. rewrite (not_open_not_token c s _ Hc).
      simpl plus. now apply IH.
Qed.

End TokenCount.

(** A pass of [unmaskPII] for one token removes no occurrence of another
    token. *)
Lemma replace_keeps_other_token (text p t repl : string) :
  is_token p = true -> is_token t = true -> p <> t ->
  count_occurrences t text
  <= count_occurrences t (replace text (Literal p false) repl).
Proof.
  intros (pb & -> & Hpb & _)%token_shape (tb & -> & Htb & _)%token_shape Hne.
  cbn [replace].
  apply (count_scan pb tb repl Hpb Htb); [|reflexivity].
  intros ->. now apply Hne.
Qed.

Lemma unmask_passes_keep_token (t : string) (es : list (string * string)) :
  is_token t = true ->
  forall text,
    (forall e, In e es -> is_token (fst e) = true /\ fst e <> t) ->
    count_occurrences t text
    <= count_occurrences t (fold_left unmask_pass es text).
Proof.
  intros Ht. induction es as [|[p r] es IH]; intros text Hes; simpl; [lia|].
  destruct (Hes (p, r) (or_introl eq_refl)) as [Hp Hne]. simpl in Hp, Hne.
  etransitivity; [|apply IH; intros e He; apply Hes; now right].
  rewrite RegExp_escapeRegExp. now apply replace_keeps_other_token.
Qed.

(** C6 (as amended). For a table without an empty real value, the
    reverse table gives each placeholder the first real value that the
    enumeration of the table associates with it, and the later ones are
    not kept; a placeholder spelt like a member of [Object.prototype]
    gets no entry, since the test [!reverseMappings[placeholder]] finds
    the inherited member.  The enumeration is the creation order when no
    key is an array index (such keys are enumerated first, in ascending
    numeric order).  When the placeholders of the table are bracketed
    tokens, a bracketed token without an entry in the reverse table
    occurs in the output of [unmaskPII] at least as often as in its
    input: no occurrence is removed or blanked. *)
Theorem unmaskPII_reverse_table (mappings : PIIMappings) :
  (~ In "" (keys mappings) ->
   forall placeholder,
     obj_get (reverse_mappings mappings) placeholder
     = if inherited placeholder then None
       else first_real_value placeholder (entries mappings)) /\
  ((forall k, In k (keys mappings) -> array_index k = None) ->
   entries mappings = mappings) /\
  (forallb is_token (values mappings) = true ->
   forall token text,
     is_token token = true ->
     obj_get (reverse_mappings mappings) token = None ->
     count_occurrences token text
     <= count_occurrences token (unmaskPII text mappings)).
Proof.
  split; [|split].
  - intros Hne p. rewrite reverse_mappings_fold, reverse_fold_lookup.
    + reflexivity.
    + intros e He Hk. apply Hne. unfold keys. rewrite <- Hk.
      now apply in_map.
    + discriminate.
  - apply entries_without_indices.
  - intros Htok t text Ht Hnone. rewrite unmaskPII_fold.
    apply unmask_passes_keep_token; [exact Ht|].
    intros e He. apply (proj1 (in_entries _ _ _)) in He.
    assert (Hk : In (fst e) (map fst (reverse_mappings mappings)))
      by now apply in_map.
    split.
    + rewrite forallb_forall in Htok. apply Htok.
      now apply reverse_mappings_keys.
    + intros Heq. apply obj_get_none in Hnone. apply Hnone. now rewrite <- Heq.
Qed.

Lemma unmaskPII_reverse_table_witness :
  let table := createPIIMappings sample_host (only_name "John Smith") in
  obj_get (reverse_mappings table) PLACEHOLDERS.STUDENT_NAME
  = Some "John Smith" /\
  2 <= count_occurrences PLACEHOLDERS.HE_SHE
         (unmaskPII "[HE/SHE] said [STUDENT_NAME] is [HE/SHE]" table).
Proof.
  intros table.
  destruct (unmaskPII_reverse_table table) as (H1 & _ & H3). split.
  - rewrite H1; [reflexivity|]. simpl. intuition discriminate.
  - apply (H3 eq_refl PLACEHOLDERS.HE_SHE
              "[HE/SHE] said [STUDENT_NAME] is [HE/SHE]" eq_refl eq_refl).
Defined.

(** A real value that is an array index is enumerated before a value
    created earlier: the token is restored to ["7"], not to ["Jo"]. *)
Lemma unmaskPII_reverse_table_index_key :
  let table : PIIMappings :=
    assign (assign [] "Jo" PLACEHOLDERS.STUDENT_FIRST)
           "7" PLACEHOLDERS.STUDENT_FIRST in
  first_real_value PLACEHOLDERS.STUDENT_FIRST table = Some "Jo" /\
  obj_get (reverse_mappings table) PLACEHOLDERS.STUDENT_FIRST = Some "7" /\
  unmaskPII "[STUDENT_FIRST]" table = "7".
Proof. repeat split. Qed.

(** A placeholder spelt like a member of [Object.prototype] is never
    entered in the reverse table, and stays in the text. *)
Example reverse_mappings_inherited_name :
  reverse_mappings [("John", "constructor")] = [] /\
  unmaskPII "constructor" [("John", "constructor")] = "constructor".
Proof. split; reflexivity. Qed.

(** An empty real value does not hold its place in the reverse table. *)
Example reverse_mappings_empty_first :
  obj_get
    (reverse_mappings [("", PLACEHOLDERS.STUDENT_FIRST);
                       ("Jo", PLACEHOLDERS.STUDENT_FIRST)])
    PLACEHOLDERS.STUDENT_FIRST
  = Some "Jo".
Proof. reflexivity. Qed.

(* ================================================================== *)
(** * Text that holds nothing to replace *)
(* ================================================================== *)

Lemma matches_at_exact_ci (p s : string) :
  matches_at false p s = true -> matches_at true p s = true.
Proof.
  revert s. induction p as [|a p IH]; intros s H; [reflexivity|].
  destruct s as [|b s]; [discriminate|].
  cbn [matches_at char_eq] in *. apply andb_true_iff in H as [Hab H].
  apply Ascii.eqb_eq in Hab as ->.
  unfold char_eq_ci. now rewrite Ascii.eqb_refl, (IH s H).
Qed.

(** A pass whose pattern matches nowhere returns its input. *)
Lemma replace_scan_no_match (ic : bool) (lit repl : string) (s : string) :
  forall before,
    (forall pre post, s = pre ++ post -> matches_at ic lit post = false) ->
    replace_scan ic lit repl 0 before s = s.
Proof.
  induction s as [|c s IH]; intros before H; [reflexivity|].
  cbn [replace_scan]. rewrite (H "" (String c s) eq_refl). f_equal.
  apply IH. intros pre post ->. now apply (H (String c pre) post).
Qed.

Lemma replace_no_occurrence_ci (text k p : string) :
  ~ occurs_ci k text -> replace text (Literal k true) p = text.
Proof.
  intros H. destruct k as [|c k].
  - exfalso. apply H. now exists "", "", text.
  - cbn [replace]. apply replace_scan_no_match. intros pre post ->.
    destruct (matches_at true (String c k) post) eqn:E; [|reflexivity].
    exfalso. apply H. apply occurs_ci_append_r. now apply matches_at_occurs_ci.
Qed.

Lemma replace_no_occurrence (text q r : string) :
  ~ occurs q text -> replace text (Literal q false) r = text.
Proof.
  intros H. destruct q as [|c q].
  - exfalso. apply H. now exists "", text.
  - cbn [replace]. apply replace_scan_no_match. intros pre post ->.
    destruct (matches_at false (String c q) post) eqn:E; [|reflexivity].
    exfalso. apply H. apply matches_at_exact in E as [rest ->].
    now exists pre, rest.
Qed.

Lemma mask_passes_untouched (mappings : PIIMappings) (text : string)
      (L : list string) :
  (forall k, In k L -> ~ occurs_ci k text) ->
  fold_left (mask_pass mappings) L text = text.
Proof.
  induction L as [|k L IH]; intros H; simpl; [reflexivity|].
  rewrite mask_pass_literal, replace_no_occurrence_ci by (apply H; now left).
  apply IH. intros j Hj. apply H. now right.
Qed.

Lemma free_of_keys_spec (text : string) (mappings : PIIMappings) :
  free_of_keys text mappings = true ->
  forall k, In k (keys mappings) -> ~ occurs_ci k text.
Proof.
  unfold free_of_keys. rewrite forallb_forall. intros H k Hk Hocc.
  specialize (H k Hk). apply negb_true_iff in H.
  apply includes_ci_occurs in Hocc. congruence.
Qed.

Lemma maskPII_untouched (text : string) (mappings : PIIMappings) :
  free_of_keys text mappings = true -> maskPII text mappings = text.
Proof.
  intros H. rewrite maskPII_fold. apply mask_passes_untouched.
  intros k Hk. apply (free_of_keys_spec text mappings H).
  apply (Permutation_in _ (sort_perm _ by_length_desc (keys mappings)) Hk).
Qed.

(** X1. For an ASCII text and table, [maskPII] returns the text as it
    is when no key of the table occurs in it in any casing; in
    particular with an empty table. *)
Theorem maskPII_leaves_other_text (text : string) (mappings : PIIMappings) :
  ascii_only text = true -> ascii_table mappings = true ->
  free_of_keys text mappings = true -> maskPII text mappings = text.
Proof. intros _ _. apply maskPII_untouched. Qed.

Lemma maskPII_leaves_other_text_witness :
  maskPII "Reads at grade level"
    (createPIIMappings sample_host (only_name "John Smith"))
  = "Reads at grade level".
Proof.
  apply (maskPII_leaves_other_text "Reads at grade level"
           (createPIIMappings sample_host (only_name "John Smith"))
           eq_refl eq_refl eq_refl).
Defined.

Lemma unmask_passes_untouched (text : string) (es : list (string * string)) :
  (forall e, In e es -> ~ occurs (fst e) text) ->
  fold_left unmask_pass es text = text.
Proof.
  induction es as [|[p r] es IH]; intros H; simpl; [reflexivity|].
  rewrite RegExp_escapeRegExp, replace_no_occurrence
    by (apply (H (p, r)); now left).
  apply IH. intros e He. apply H. now right.
Qed.

Lemma unmaskPII_untouched (text : string) (mappings : PIIMappings) :
  free_of_placeholders text mappings = true ->
  unmaskPII text mappings = text.
Proof.
  unfold free_of_placeholders. rewrite forallb_forall. intros H.
  rewrite unmaskPII_fold. apply unmask_passes_untouched.
  intros e He Hocc. apply (proj1 (in_entries _ _ _)) in He.
  assert (Hv : In (fst e) (values mappings)).
  { apply reverse_mappings_keys. now apply in_map. }
  specialize (H _ Hv). apply negb_true_iff in H.
  apply includes_occurs in Hocc. congruence.
Qed.

(** X2. [unmaskPII] returns the text as it is when no placeholder of the
    table occurs in it: text the model wrote without placeholders is
    shown unchanged. *)
Theorem unmaskPII_leaves_other_text (text : string) (mappings : PIIMappings) :
  free_of_placeholders text mappings = true ->
  unmaskPII text mappings = text.
Proof. apply unmaskPII_untouched. Qed.

Lemma unmaskPII_leaves_other_text_witness :
  unmaskPII "The student met [HIS/HER] goal"
    (createPIIMappings sample_host (only_name "John Smith"))
  = "The student met [HIS/HER] goal".
Proof.
  apply (unmaskPII_leaves_other_text "The student met [HIS/HER] goal"
           (createPIIMappings sample_host (only_name "John Smith")) eq_refl).
Defined.

(* ================================================================== *)
(** * Masking twice, and masking a real value *)
(* ================================================================== *)

Lemma no_empty_key_spec (mappings : PIIMappings) :
  no_empty_key mappings = true ->
  forall k, In k (keys mappings) -> k <> "".
Proof.
  unfold no_empty_key. rewrite forallb_forall. intros H k Hk ->.
  now specialize (H _ Hk).
Qed.

Lemma maskPII_twice (text : string) (mappings : PIIMappings) :
  separated mappings = true -> no_empty_key mappings = true ->
  maskPII (maskPII text mappings) mappings = maskPII text mappings.
Proof.
  intros Hsep Hne. rewrite (maskPII_fold (maskPII text mappings)).
  apply mask_passes_untouched. intros k Hk.
  assert (Hk' : In k (keys mappings))
    by apply (Permutation_in _ (sort_perm _ by_length_desc _) Hk).
  apply (maskPII_clean mappings Hsep text k Hk').
  now apply (no_empty_key_spec mappings Hne).
Qed.

(** X3. For an ASCII text and an ASCII table whose placeholders are
    bracketed tokens, whose keys are not empty, contain no bracket and
    occur in no placeholder, masking a masked text changes nothing. *)
Theorem maskPII_idempotent (text : string) (mappings : PIIMappings) :
  ascii_only text = true -> ascii_table mappings = true ->
  separated mappings = true -> no_empty_key mappings = true ->
  maskPII (maskPII text mappings) mappings = maskPII text mappings.
Proof. intros _ _. apply maskPII_twice. Qed.

Lemma maskPII_idempotent_witness :
  let table := createPIIMappings sample_host (only_name "John Smith") in
  maskPII (maskPII "JOHN and John Smith" table) table
  = maskPII "JOHN and John Smith" table.
Proof.
  intros table.
  apply (maskPII_idempotent "JOHN and John Smith" table
           eq_refl eq_refl eq_refl eq_refl).
Defined.

Lemma replace_scan_skip_all (ic : bool) (lit repl : string) (s : string) :
  forall skip before,
    length s <= skip -> replace_scan ic lit repl skip before s = "".
Proof.
  induction s as [|c s IH]; intros skip before H; [reflexivity|].
  cbn [replace_scan]. destruct skip as [|n]; simpl in H; [lia|].
  apply IH. lia.
Qed.

(** A pattern that matches the whole text turns it into the replacement. *)
Lemma replace_scan_whole (ic : bool) (lit repl s : string) :
  lit <> "" ->
  matches_at ic lit s = true -> length s = length lit ->
  mem_char "$" repl = false ->
  forall before, replace_scan ic lit repl 0 before s = repl.
Proof.
  intros Hlit Hm Hlen Hplain before. destruct s as [|c s].
  - destruct lit; [contradiction | discriminate].
  - cbn [replace_scan]. rewrite Hm, substitution_plain by exact Hplain.
    rewrite replace_scan_skip_all by (simpl in Hlen; lia).
    apply append_nil_r.
Qed.

Lemma occurs_ci_whole (j s : string) :
  occurs_ci j s -> length s <= length j -> toLowerCase s = toLowerCase j.
Proof.
  intros (pre & mid & post & -> & Hm) Hlen.
  assert (Hmid : length mid = length j).
  { now rewrite <- (toLowerCase_length mid), Hm, toLowerCase_length. }
  rewrite !length_append in Hlen.
  destruct pre; [|simpl in Hlen; lia].
  destruct post; [|simpl in Hlen; lia].
  simpl. now rewrite append_nil_r.
Qed.

Lemma same_case_matches (j s : string) :
  toLowerCase s = toLowerCase j -> matches_at true j s = true.
Proof.
  intros H. apply matches_at_ci. exists s, "". now rewrite append_nil_r.
Qed.

Lemma sorted_before (A : Type) (R : A -> A -> Prop) (l1 l2 : list A) (x : A) :
  StronglySorted R (l1 ++ x :: l2) -> Forall (fun y => R y x) l1.
Proof.
  induction l1 as [|a l1 IH]; simpl; intros H; [constructor|].
  inversion H as [|? ? Hs Hall]; subst. constructor; [|now apply IH].
  rewrite Forall_forall in Hall. apply Hall. apply in_or_app. right. now left.
Qed.

Section MaskOfKey.
Variables (mappings : PIIMappings) (k p : string).
Hypothesis Hsep : separated mappings = true.
Hypothesis Hne : no_empty_key mappings = true.
Hypothesis Hk : In k (keys mappings).
Hypothesis Hvar : variants_carry mappings k p = true.

Lemma variant_placeholder (j : string) :
  In j (keys mappings) -> toLowerCase j = toLowerCase k ->
  obj_get mappings j = Some p.
Proof.
  intros Hj Hlow. destruct (separated_token mappings Hsep j Hj)
    as (q & Hq & _ & _).
  rewrite Hq. f_equal.
  assert (Hin : In (j, q) (entries mappings)).
  { apply in_entries. now apply obj_get_in. }
  unfold variants_carry in Hvar. rewrite forallb_forall in Hvar.
  specialize (Hvar _ Hin). simpl in Hvar.
  rewrite Hlow, String.eqb_refl in Hvar. simpl in Hvar.
  now apply String.eqb_eq in Hvar.
Qed.

Lemma key_placeholder : obj_get mappings k = Some p.
Proof. now apply variant_placeholder. Qed.

Lemma key_placeholder_token : is_token p = true /\ In p (values mappings).
Proof.
  destruct (separated_token mappings Hsep k Hk) as (q & Hq & Ht & Hin).
  rewrite key_placeholder in Hq. injection Hq as <-. now split.
Qed.

Lemma pass_on_placeholder (j : string) :
  In j (keys mappings) -> mask_pass mappings p j = p.
Proof.
  intros Hj. rewrite mask_pass_literal. apply replace_no_occurrence_ci.
  apply (separated_key mappings Hsep j Hj).
  - now apply (no_empty_key_spec mappings Hne).
  - apply key_placeholder_token.
Qed.

Lemma pass_on_key (j : string) :
  In j (keys mappings) -> length k <= length j ->
  mask_pass mappings k j = k \/ mask_pass mappings k j = p.
Proof.
  intros Hj Hlen. rewrite mask_pass_literal.
  destruct (includes_ci k j) eqn:E.
  - right. apply includes_ci_occurs in E.
    assert (Hlow := occurs_ci_whole j k E Hlen).
    rewrite (variant_placeholder j Hj (eq_sym Hlow)). simpl.
    assert (Hjne : j <> "") by now apply (no_empty_key_spec mappings Hne).
    destruct j as [|c j]; [contradiction|]. cbn [replace].
    apply replace_scan_whole.
    + exact Hjne.
    + now apply same_case_matches.
    + now rewrite <- (toLowerCase_length k), Hlow, toLowerCase_length.
    + apply token_plain, key_placeholder_token.
  - left. apply replace_no_occurrence_ci. intros H.
    apply includes_ci_occurs in H. congruence.
Qed.

Lemma passes_on_placeholder (L : list string) :
  (forall j, In j L -> In j (keys mappings)) ->
  fold_left (mask_pass mappings) L p = p.
Proof.
  induction L as [|j L IH]; intros H; simpl; [reflexivity|].
  rewrite pass_on_placeholder by (apply H; now left).
  apply IH. intros x Hx. apply H. now right.
Qed.

Lemma passes_before_key (L : list string) :
  (forall j, In j L -> In j (keys mappings) /\ length k <= length j) ->
  fold_left (mask_pass mappings) L k = k \/
  fold_left (mask_pass mappings) L k = p.
Proof.
  induction L as [|j L IH]; intros H; simpl; [now left|].
  destruct (H j (or_introl eq_refl)) as [Hj Hlen].
  destruct (pass_on_key j Hj Hlen) as [-> | ->].
  - apply IH. intros x Hx. apply H. now right.
  - right. apply passes_on_placeholder. intros x Hx. apply H. now right.
Qed.

Lemma maskPII_key : maskPII k mappings = p.
Proof.
  rewrite maskPII_fold.
  assert (Hperm := sort_perm _ by_length_desc (keys mappings)).
  assert (Hsorted := sort_by_length_sorted (keys mappings)).
  assert (HkL : In k (sort by_length_desc (keys mappings)))
    by apply (Permutation_in _ (Permutation_sym Hperm) Hk).
  destruct (in_split _ _ HkL) as (L1 & L2 & HL).
  rewrite HL in Hperm, Hsorted |- *.
  assert (Hkeys : forall j, In j (L1 ++ k :: L2)%list -> In j (keys mappings))
    by (intros j Hj; apply (Permutation_in _ Hperm Hj)).
  assert (Hlen := sorted_before _ _ _ _ _ Hsorted).
  rewrite Forall_forall in Hlen.
  rewrite fold_left_app. cbn [fold_left].
  assert (H1 : fold_left (mask_pass mappings) L1 k = k \/
               fold_left (mask_pass mappings) L1 k = p).
  { apply passes_before_key. intros j Hj. split; [|now apply Hlen].
    apply Hkeys. apply in_or_app. now left. }
  assert (H2 : mask_pass mappings (fold_left (mask_pass mappings) L1 k) k
               = p).
  { destruct H1 as [-> | ->].
    - destruct (pass_on_key k Hk (le_n _)) as [E|E]; [|exact E].
      exfalso. rewrite mask_pass_literal in E.
      assert (Hkne : k <> "")
        by now apply (no_empty_key_spec mappings Hne).
      apply (replace_token_removes k k
               (replace_value (obj_get mappings k))).
      + rewrite key_placeholder. apply key_placeholder_token.
      + exact Hkne.
      + now apply (separated_key mappings Hsep k Hk).
      + rewrite key_placeholder. simpl.
        apply (separated_key mappings Hsep k Hk Hkne), key_placeholder_token.
      + rewrite E. exists "", k, "". simpl. now rewrite append_nil_r.
    - now apply pass_on_placeholder. }
  rewrite H2. apply passes_on_placeholder.
  intros j Hj. apply Hkeys. apply in_or_app. right. now right.
Qed.

End MaskOfKey.

(** X4. For such an ASCII table, masking a text that is one of its real values
    gives exactly the placeholder of that value, provided the keys equal
    to it up to case carry that placeholder: a longer value is replaced
    before the values it contains, which then find nothing left. *)
Theorem maskPII_of_real_value
        (mappings : PIIMappings) (realValue placeholder : string) :
  ascii_table mappings = true ->
  separated mappings = true -> no_empty_key mappings = true ->
  In realValue (keys mappings) ->
  variants_carry mappings realValue placeholder = true ->
  maskPII realValue mappings = placeholder.
Proof. intros _. apply maskPII_key. Qed.

Lemma maskPII_of_real_value_witness :
  maskPII "john smith"
    (createPIIMappings sample_host (only_name "John Smith"))
  = PLACEHOLDERS.STUDENT_NAME.
Proof.
  apply (maskPII_of_real_value
           (createPIIMappings sample_host (only_name "John Smith"))
           "john smith" PLACEHOLDERS.STUDENT_NAME eq_refl eq_refl eq_refl).
  - simpl. tauto.
  - reflexivity.
Defined.

(* ================================================================== *)
(** * Restoring a masked real value *)
(* ================================================================== *)

Lemma reverse_mappings_nodup (mappings : PIIMappings) :
  NoDup (map fst (reverse_mappings mappings)).
Proof.
  rewrite reverse_mappings_fold.
  assert (G : forall es (rev : obj string),
             NoDup (map fst rev) ->
             NoDup (map fst (fold_left reverse_step es rev))).
  { induction es as [|[k q] es IH]; intros rev H; simpl; [exact H|].
    apply IH. destruct (falsy_at rev q); [|exact H].
    now apply nodup_obj_set. }
  apply G. constructor.
Qed.

Lemma in_obj_get_nodup (V : Type) (o : obj V) (k : string) (v : V) :
  NoDup (map fst o) -> In (k, v) o -> obj_get o k = Some v.
Proof.
  induction o as [|[k0 v0] o IH]; simpl; intros Hnd H; [contradiction|].
  destruct H as [H|H].
  - injection H as -> ->. now rewrite String.eqb_refl.
  - inversion Hnd as [|? ? Hn Hd]; subst.
    destruct (String.eqb_spec k0 k) as [->|Hk].
    + exfalso. apply Hn. now apply (in_map fst) in H.
    + now apply IH.
Qed.

Lemma first_real_value_some (p k : string) (es : list (string * string)) :
  In (k, p) es ->
  exists r, first_real_value p es = Some r /\ In (r, p) es.
Proof.
  induction es as [|[k0 q] es IH]; simpl; intros H; [contradiction|].
  destruct (String.eqb_spec q p) as [->|Hq].
  - exists k0. split; [reflexivity | now left].
  - destruct H as [H|H]; [injection H as _ ->; contradiction|].
    destruct (IH H) as (r & Hr & Hin). exists r. split; [exact Hr | now right].
Qed.

Lemma token_has_open_bracket (q : string) :
  is_token q = true -> exists rest, q = String "[" rest.
Proof. intros (body & -> & _)%token_shape. now eexists. Qed.

Lemma bracket_free_no_token (q r : string) :
  is_token q = true -> bracket_free r = true -> ~ occurs q r.
Proof.
  intros (rest & ->)%token_has_open_bracket Hr (pre & post & ->).
  rewrite bracket_free_append in Hr. simpl in Hr.
  now rewrite andb_false_r in Hr.
Qed.

(** A token does not occur in another token. *)
Lemma tokens_no_occurrence (p q : string) :
  is_token p = true -> is_token q = true -> p <> q -> ~ occurs q p.
Proof.
  intros (pb & -> & Hpb & _)%token_shape (qb & -> & Hqb & _)%token_shape
         Hne (pre & post & H).
  destruct pre as [|c pre]; simpl in H.
  - assert (E : matches_at false (String "[" (qb ++ "]"))
                           (String "[" (pb ++ "]")) = true).
    { apply matches_at_exact. exists post. exact H. }
    rewrite (tokens_exclusive pb qb Hpb Hqb) in E; [discriminate| |].
    + intros ->. now apply Hne.
    + apply matches_at_exact. exists "". now rewrite append_nil_r.
  - injection H as _ H.
    assert (Hno : mem_char "[" (pb ++ "]") = false).
    { rewrite mem_char_append, (bracket_free_no_open _ Hpb). reflexivity. }
    rewrite H, mem_char_append in Hno. simpl in Hno.
    now rewrite orb_true_r in Hno.
Qed.

Section Restore.
Variables (p r : string) (es : list (string * string)).
Hypothesis p_token : is_token p = true.
Hypothesis r_free : bracket_free r = true.
Hypothesis r_plain : mem_char "$" r = false.
Hypothesis es_tokens : forall e, In e es -> is_token (fst e) = true.
Hypothesis es_value : forall r', In (p, r') es -> r' = r.

Lemma passes_on_real_value (l : list (string * string)) :
  (forall e, In e l -> is_token (fst e) = true) ->
  fold_left unmask_pass l r = r.
Proof.
  intros H. apply unmask_passes_untouched. intros e He.
  apply bracket_free_no_token; auto.
Qed.

Lemma passes_on_token (l : list (string * string)) :
  (forall e, In e l -> In e es) -> In (p, r) l ->
  fold_left unmask_pass l p = r.
Proof.
  induction l as [|[q r'] l IH]; intros Hl Hin; [contradiction|].
  cbn [fold_left]. unfold unmask_pass at 2.
  rewrite RegExp_escapeRegExp.
  assert (Hq : is_token q = true)
    by (apply (es_tokens (q, r')), Hl; now left).
  destruct (String.eqb_spec q p) as [->|Hne].
  - assert (r' = r) by (apply es_value, Hl; now left). subst r'.
    destruct (token_has_open_bracket p p_token) as (rest & Hp).
    rewrite Hp at 2. cbn [replace]. rewrite <- Hp.
    rewrite replace_scan_whole.
    + apply passes_on_real_value. intros e He.
      apply es_tokens, Hl. now right.
    + rewrite Hp. discriminate.
    + apply matches_at_exact. exists "". now rewrite append_nil_r.
    + reflexivity.
    + exact r_plain.
  - rewrite replace_no_occurrence
      by (apply tokens_no_occurrence; auto).
    apply IH.
    + intros e He. apply Hl. now right.
    + destruct Hin as [H|H]; [|exact H]. injection H as -> _. contradiction.
Qed.

End Restore.

Lemma unmaskPII_placeholder (mappings : PIIMappings) (p r : string) :
  separated mappings = true -> no_empty_key mappings = true ->
  plain_keys mappings = true ->
  In p (values mappings) ->
  first_real_value p (entries mappings) = Some r ->
  unmaskPII p mappings = r.
Proof.
  intros Hsep Hne Hplain Hp Hr.
  assert (Hnoempty : ~ In "" (keys mappings)).
  { intros H. now apply (no_empty_key_spec mappings Hne "" H). }
  assert (Htokens : forall q, In q (values mappings) -> is_token q = true).
  { unfold separated in Hsep. apply andb_true_iff in Hsep as [Ht _].
    now rewrite forallb_forall in Ht. }
  assert (Hrev : obj_get (reverse_mappings mappings) p = Some r).
  { rewrite reverse_mappings_fold, reverse_fold_lookup.
    - cbn [obj_get].
      now rewrite (is_token_not_inherited p (Htokens p Hp)).
    - intros e He Hk. apply Hnoempty. unfold keys. rewrite <- Hk.
      now apply in_map.
    - discriminate. }
  assert (Hrk : In r (keys mappings)).
  { clear -Hr. unfold keys. revert Hr.
    induction (entries mappings) as [|[k0 q] es IH]; simpl; [discriminate|].
    destruct (String.eqb q p); [intros [= ->]; now left|].
    intros H. right. now apply IH. }
  rewrite unmaskPII_fold.
  apply (passes_on_token p r (entries (reverse_mappings mappings))).
  - now apply Htokens.
  - apply (separated_key mappings Hsep r Hrk).
    now apply (no_empty_key_spec mappings Hne).
  - unfold plain_keys in Hplain. rewrite forallb_forall in Hplain.
    specialize (Hplain r Hrk). now apply negb_true_iff in Hplain.
  - intros e He. apply Htokens, reverse_mappings_keys.
    apply (proj1 (in_entries _ _ _)) in He. now apply in_map.
  - intros r' Hr'. apply (proj1 (in_entries _ _ _)) in Hr'.
    apply (in_obj_get_nodup _ _ _ _ (reverse_mappings_nodup mappings)) in Hr'.
    congruence.
  - auto.
  - apply in_entries. now apply obj_get_in.
Qed.

(** X5. For such an ASCII table whose real values contain no dollar sign,
    unmasking the masked form of a real value gives the first real value
    that the enumeration of the table associates with its placeholder:
    the canonical spelling, whatever variant was masked. *)
Theorem unmaskPII_of_masked_real_value
        (mappings : PIIMappings) (realValue placeholder : string) :
  ascii_table mappings = true ->
  separated mappings = true -> no_empty_key mappings = true ->
  plain_keys mappings = true ->
  In realValue (keys mappings) ->
  variants_carry mappings realValue placeholder = true ->
  exists restored,
    first_real_value placeholder (entries mappings) = Some restored /\
    unmaskPII (maskPII realValue mappings) mappings = restored.
Proof.
  intros _ Hsep Hne Hplain Hk Hvar.
  rewrite (maskPII_key mappings realValue placeholder Hsep Hne Hk Hvar).
  assert (Hget := key_placeholder mappings realValue placeholder Hsep Hk Hvar).
  assert (Hin : In (realValue, placeholder) (entries mappings)).
  { apply in_entries. now apply obj_get_in. }
  destruct (first_real_value_some _ _ _ Hin) as (r & Hr & _).
  exists r. split; [exact Hr|].
  apply unmaskPII_placeholder; auto.
  apply (key_placeholder_token mappings realValue placeholder Hsep Hk Hvar).
Qed.

Lemma unmaskPII_of_masked_real_value_witness :
  unmaskPII
    (maskPII "JOHN SMITH"
       (createPIIMappings sample_host (only_name "John Smith")))
    (createPIIMappings sample_host (only_name "John Smith"))
  = "John Smith".
Proof.
  destruct (unmaskPII_of_masked_real_value
              (createPIIMappings sample_host (only_name "John Smith"))
              "JOHN SMITH" PLACEHOLDERS.STUDENT_NAME
              eq_refl eq_refl eq_refl eq_refl)
    as (restored & Hfirst & Hout).
  - simpl. tauto.
  - reflexivity.
  - injection Hfirst as <-. exact Hout.
Defined.

(* ================================================================== *)
(** * The table the builder returns *)
(* ================================================================== *)

Lemma in_assign_into_values (V : Type) (ws : list (string * V)) :
  forall (o : obj V) (v : V),
    In v (map snd (assign_into o ws)) ->
    In v (map snd o) \/ In v (map snd ws).
Proof.
  induction ws as [|[k w] ws IH]; intros o v H; simpl in *; [now left|].
  unfold assign_into in *. simpl in H. apply IH in H as [H|H].
  - apply in_obj_set_values in H as [->|H]; [right; now left | now left].
  - right. now right.
Qed.

Lemma length_obj_set (V : Type) (o : obj V) (k : string) (v : V) :
  List.length (obj_set o k v) <= S (List.length o).
Proof.
  induction o as [|[k0 v0] o IH]; simpl; [lia|].
  destruct (String.eqb k0 k); simpl; lia.
Qed.

Lemma length_assign_into (V : Type) (ws : list (string * V)) :
  forall o : obj V,
    List.length (assign_into o ws) <= List.length o + List.length ws.
Proof.
  induction ws as [|[k w] ws IH]; intros o; simpl; [lia|].
  unfold assign_into in *. simpl.
  specialize (IH (obj_set o k w)).
  pose proof (length_obj_set V o k w). lia.
Qed.

Lemma writes_values (host : DateHost) (studentInfo : StudentInfo) :
  forall e, In e (writes host studentInfo) -> In (snd e) data_tokens.
Proof.
  intros e. unfold writes, writes_after_dob. rewrite !in_app_iff.
  unfold name_writes, dob_writes, id_writes, school_writes, grade_writes,
    parent_writes, address_writes.
  intros [H|[H|[H|[H|[H|[H|H]]]]]].
  - destruct (truthy (name studentInfo)); [|contradiction]. cbv zeta in H.
    destruct (truthy (split_head " " (name studentInfo))
              && negb (String.eqb (split_head " " (name studentInfo))
                                  (name studentInfo)));
      simpl in H; repeat (destruct H as [<-|H]; [simpl; tauto|]);
      contradiction.
  - destruct (truthy (dateOfBirth studentInfo)); [|contradiction].
    destruct (date_parse host (dateOfBirth studentInfo));
      simpl in H; repeat (destruct H as [<-|H]; [simpl; tauto|]);
      contradiction.
  - destruct (truthy (studentId studentInfo)); [|contradiction].
    simpl in H; repeat (destruct H as [<-|H]; [simpl; tauto|]); contradiction.
  - destruct (truthy (school studentInfo)); [|contradiction].
    simpl in H; repeat (destruct H as [<-|H]; [simpl; tauto|]); contradiction.
  - destruct (truthy (grade studentInfo)); [|contradiction].
    simpl in H; repeat (destruct H as [<-|H]; [simpl; tauto|]); contradiction.
  - destruct (truthy (parentName studentInfo)); [|contradiction].
    simpl in H; repeat (destruct H as [<-|H]; [simpl; tauto|]); contradiction.
  - destruct (opt_truthy (address studentInfo)); [|contradiction].
    simpl in H; repeat (destruct H as [<-|H]; [simpl; tauto|]); contradiction.
Qed.

Lemma writes_length (host : DateHost) (studentInfo : StudentInfo) :
  List.length (writes host studentInfo) <= 18.
Proof.
  unfold writes, writes_after_dob. rewrite !length_app.
  assert (List.length (name_writes studentInfo) <= 6).
  { unfold name_writes. destruct (truthy (name studentInfo)); [|simpl; lia].
    cbv zeta.
    destruct (truthy (split_head " " (name studentInfo))
              && negb (String.eqb (split_head " " (name studentInfo))
                                  (name studentInfo))); simpl; lia. }
  assert (List.length (dob_writes host studentInfo) <= 3).
  { unfold dob_writes.
    destruct (truthy (dateOfBirth studentInfo)); [|simpl; lia].
    destruct (date_parse host (dateOfBirth studentInfo)); simpl; lia. }
  assert (List.length (id_writes studentInfo) <= 1)
    by (unfold id_writes; destruct (truthy _); simpl; lia).
  assert (List.length (school_writes studentInfo) <= 3)
    by (unfold school_writes; destruct (truthy _); simpl; lia).
  assert (List.length (grade_writes studentInfo) <= 1)
    by (unfold grade_writes; destruct (truthy _); simpl; lia).
  assert (List.length (parent_writes studentInfo) <= 3)
    by (unfold parent_writes; destruct (truthy _); simpl; lia).
  assert (List.length (address_writes studentInfo) <= 1)
    by (unfold address_writes; destruct (opt_truthy _); simpl; lia).
  lia.
Qed.

Lemma createPIIMappings_nodup (host : DateHost) (studentInfo : StudentInfo) :
  NoDup (keys (createPIIMappings host studentInfo)).
Proof.
  apply (Permutation_NoDup
           (Permutation_sym (keys_perm _ (createPIIMappings host studentInfo)))).
  rewrite createPIIMappings_writes. apply nodup_assign_into. constructor.
Qed.

Lemma createPIIMappings_values (host : DateHost) (studentInfo : StudentInfo)
      (p : string) :
  In p (values (createPIIMappings host studentInfo)) -> In p data_tokens.
Proof.
  intros H. apply (proj1 (in_values _ _ _)) in H.
  rewrite createPIIMappings_writes in H.
  apply in_assign_into_values in H as [[]|H].
  apply in_map_iff in H as (e & <- & He).
  apply in_own_writes in He as [_ He].
  now apply (writes_values host studentInfo).
Qed.

(** X6. Whatever the record, the table [createPIIMappings] returns has
    pairwise distinct keys, at most 18 of them, and every placeholder in
    it is one of the eight data tokens (never a pronoun token), so a
    bracketed token. *)
Theorem createPIIMappings_table_shape
        (host : DateHost) (studentInfo : StudentInfo) :
  let table := createPIIMappings host studentInfo in
  NoDup (keys table) /\
  List.length (keys table) <= 18 /\
  (forall p, In p (values table) -> In p data_tokens) /\
  forallb is_token (values table) = true.
Proof.
  intros table.
  assert (Hv : forall p, In p (values table) -> In p data_tokens)
    by apply createPIIMappings_values.
  split; [apply createPIIMappings_nodup|]. split; [|split; [exact Hv|]].
  - rewrite (Permutation_length (keys_perm _ table)), length_map.
    unfold table. rewrite createPIIMappings_writes.
    pose proof (length_assign_into _ (own_writes (writes host studentInfo))
                                   []).
    pose proof (filter_length_le
                  (fun e : string * string =>
                     negb (String.eqb (fst e) "__proto__"))
                  (writes host studentInfo)).
    pose proof (writes_length host studentInfo).
    unfold own_writes in *. cbn [List.length] in *. lia.
  - apply forallb_forall. intros p Hp. specialize (Hv p Hp).
    simpl in Hv.
    repeat (destruct Hv as [<-|Hv]; [reflexivity|]). contradiction.
Qed.

(** X7. The table maps a string to a token only if the string is a form
    the builder derives from the non-empty field of that token: the
    value, its lower-case or upper-case form for names and the school,
    the first name, a rendering of the date of birth.  An empty or absent
    field contributes nothing. *)
Theorem createPIIMappings_sound
        (host : DateHost) (studentInfo : StudentInfo) (k tok : string) :
  obj_get (createPIIMappings host studentInfo) k = Some tok ->
  (tok = PLACEHOLDERS.STUDENT_NAME /\ truthy (name studentInfo) = true /\
   In k (variants (name studentInfo))) \/
  (tok = PLACEHOLDERS.STUDENT_FIRST /\ truthy (name studentInfo) = true /\
   In k (variants (split_head " " (name studentInfo)))) \/
  (tok = PLACEHOLDERS.DOB /\ truthy (dateOfBirth studentInfo) = true /\
   (k = dateOfBirth studentInfo \/
    exists dobDate,
      date_parse host (dateOfBirth studentInfo) = Some dobDate /\
      (k = toLocaleDateString host dobDate \/
       k = split_head "T" (toISOString host dobDate)))) \/
  (tok = PLACEHOLDERS.STUDENT_ID /\ truthy (studentId studentInfo) = true /\
   k = studentId studentInfo) \/
  (tok = PLACEHOLDERS.SCHOOL /\ truthy (school studentInfo) = true /\
   In k (variants (school studentInfo))) \/
  (tok = PLACEHOLDERS.GRADE /\ truthy (grade studentInfo) = true /\
   k = grade studentInfo) \/
  (tok = PLACEHOLDERS.PARENT_NAME /\ truthy (parentName studentInfo) = true /\
   In k (variants (parentName studentInfo))) \/
  (tok = PLACEHOLDERS.ADDRESS /\ opt_truthy (address studentInfo) = true /\
   k = opt_value (address studentInfo)).
Proof.
  rewrite obj_get_createPIIMappings. intros H.
  destruct (String.eqb k "__proto__"); [discriminate|].
  apply last_write_in in H.
  unfold writes, writes_after_dob in H. rewrite !in_app_iff in H.
  unfold name_writes, dob_writes, id_writes, school_writes, grade_writes,
    parent_writes, address_writes, variants in *.
  destruct H as [H|[H|[H|[H|[H|[H|H]]]]]].
  - destruct (truthy (name studentInfo)); [|contradiction]. cbv zeta in H.
    destruct (truthy (split_head " " (name studentInfo))
              && negb (String.eqb (split_head " " (name studentInfo))
                                  (name studentInfo)));
      simpl in H;
      repeat (destruct H as [H|H];
              [injection H as <- <-; simpl; tauto|]);
      contradiction.
  - do 2 right. left.
    destruct (truthy (dateOfBirth studentInfo)); [|contradiction].
    destruct (date_parse host (dateOfBirth studentInfo)) as [d|];
      simpl in H.
    + destruct H as [H|[H|[H|[]]]]; injection H as <- <-;
        (split; [reflexivity|]; split; [reflexivity|]).
      * now left.
      * right. exists d. auto.
      * right. exists d. auto.
    + destruct H as [H|[]]. injection H as <- <-. auto.
  - do 3 right. left.
    destruct (truthy (studentId studentInfo)); [|contradiction].
    destruct H as [H|[]]. injection H as <- <-. auto.
  - do 4 right. left.
    destruct (truthy (school studentInfo)); [|contradiction].
    simpl in H.
    repeat (destruct H as [H|H]; [injection H as <- <-; simpl; tauto|]);
      contradiction.
  - do 5 right. left.
    destruct (truthy (grade studentInfo)); [|contradiction].
    destruct H as [H|[]]. injection H as <- <-. auto.
  - do 6 right. left.
    destruct (truthy (parentName studentInfo)); [|contradiction].
    simpl in H.
    repeat (destruct H as [H|H]; [injection H as <- <-; simpl; tauto|]);
      contradiction.
  - do 7 right.
    destruct (opt_truthy (address studentInfo)); [|contradiction].
    destruct H as [H|[]]. injection H as <- <-. auto.
Qed.

Lemma createPIIMappings_sound_witness :
  In "OAK HILL" (variants "Oak Hill").
Proof.
  destruct (createPIIMappings_sound sample_host
              {| name := ""; dateOfBirth := ""; studentId := "";
                 school := "Oak Hill"; grade := ""; parentName := "";
                 parentEmail := None; address := None |}
              "OAK HILL" PLACEHOLDERS.SCHOOL eq_refl)
    as [(H & _)|[(H & _)|[(H & _)|[(H & _)|[(_ & _ & H)|
       [(H & _)|[(H & _)|(H & _)]]]]]]];
    try discriminate H. exact H.
Defined.

Lemma first_name_variants_present
      (host : DateHost) (studentInfo : StudentInfo) :
  truthy (name studentInfo) = true ->
  toLowerCase (split_head " " (name studentInfo)) <> "__proto__" ->
  In (toLowerCase (split_head " " (name studentInfo)))
     (keys (createPIIMappings host studentInfo)).
Proof.
  intros H Hne. apply in_createPIIMappings_keys. split; [exact Hne|].
  unfold writes, writes_after_dob, name_writes. rewrite H.
  cbv zeta. rewrite !map_app, !in_app_iff. simpl. tauto.
Qed.

(** X8. The exact value of every non-empty field is a key of the table,
    whatever the other fields are, and so are the lower-case and
    upper-case forms of the name, of the first name, of the school and of
    the guardian's name: a later field can take over a key, not remove
    it.  The one exception is a value spelt [__proto__], which a plain
    object does not take as a key. *)
Theorem createPIIMappings_covers
        (host : DateHost) (studentInfo : StudentInfo) :
  let ks := keys (createPIIMappings host studentInfo) in
  let present (v : string) : Prop := v <> "__proto__" -> In v ks in
  (truthy (name studentInfo) = true ->
   (forall v, In v (variants (name studentInfo)) -> present v) /\
   present (toLowerCase (split_head " " (name studentInfo))) /\
   present (toUpperCase (split_head " " (name studentInfo)))) /\
  (truthy (dateOfBirth studentInfo) = true ->
   present (dateOfBirth studentInfo)) /\
  (truthy (studentId studentInfo) = true ->
   present (studentId studentInfo)) /\
  (truthy (school studentInfo) = true ->
   forall v, In v (variants (school studentInfo)) -> present v) /\
  (truthy (grade studentInfo) = true -> present (grade studentInfo)) /\
  (truthy (parentName studentInfo) = true ->
   forall v, In v (variants (parentName studentInfo)) -> present v) /\
  (opt_truthy (address studentInfo) = true ->
   present (opt_value (address studentInfo))).
Proof.
  intros ks present. unfold present, ks, variants.
  repeat match goal with
         | |- _ /\ _ => split
         | |- _ -> _ => intro
         | |- forall _, _ => intro
         end;
    apply in_createPIIMappings_keys; (split; [assumption|]);
    unfold writes, writes_after_dob, name_writes, dob_writes, id_writes,
      school_writes, grade_writes, parent_writes, address_writes;
    repeat match goal with
           | H : truthy _ = true |- _ => rewrite H; clear H
           | H : opt_truthy _ = true |- _ => rewrite H; clear H
           end;
    cbv zeta; rewrite !map_app, !in_app_iff; simpl in *; tauto.
Qed.

Lemma createPIIMappings_covers_witness :
  In "Oak Hill"
     (keys (createPIIMappings sample_host
              {| name := "Oak Hill"; dateOfBirth := ""; studentId := "";
                 school := "Oak Hill"; grade := ""; parentName := "";
                 parentEmail := None; address := None |})).
Proof.
  apply (proj1 (proj2 (proj2 (proj2
           (createPIIMappings_covers sample_host
              {| name := "Oak Hill"; dateOfBirth := ""; studentId := "";
                 school := "Oak Hill"; grade := ""; parentName := "";
                 parentEmail := None; address := None |})))) eq_refl
           "Oak Hill").
  - now left.
  - discriminate.
Defined.

(** A name spelt [__proto__] is no key of the table. *)
Example createPIIMappings_proto_name (host : DateHost) :
  createPIIMappings host (only_name "__proto__")
  = [("__PROTO__", PLACEHOLDERS.STUDENT_FIRST)].
Proof. reflexivity. Qed.

(* ================================================================== *)
(** * A table with the empty string as a key *)
(* ================================================================== *)

Lemma sorted_after (A : Type) (R : A -> A -> Prop) (l1 l2 : list A) (x : A) :
  StronglySorted R (l1 ++ x :: l2) -> Forall (R x) l2.
Proof.
  induction l1 as [|a l1 IH]; simpl; intros H.
  - now inversion H.
  - inversion H; subst. now apply IH.
Qed.

(** In the order of [maskPII], the empty key comes last. *)
Lemma sorted_empty_last (L : list string) :
  StronglySorted (fun a b => length b <= length a) L ->
  NoDup L -> In "" L -> exists L', L = (L' ++ [""])%list.
Proof.
  intros Hs Hnd Hin. destruct (in_split _ _ Hin) as (L1 & L2 & ->).
  exists L1. f_equal. f_equal.
  destruct L2 as [|y L2]; [reflexivity|]. exfalso.
  apply sorted_after in Hs. inversion Hs as [|? ? Hy _]; subst.
  simpl in Hy. assert (y = "") by (destruct y; [reflexivity | simpl in Hy; lia]).
  subst y. apply NoDup_remove_2 in Hnd. apply Hnd.
  apply in_or_app. right. now left.
Qed.

Lemma replace_empty_starts (p before s : string) :
  mem_char "$" p = false ->
  exists out, replace_empty p before s = p ++ out.
Proof.
  intros Hp. destruct s as [|c s]; cbn [replace_empty];
    rewrite substitution_plain by exact Hp; eexists; reflexivity.
Qed.

Lemma maskPII_empty_key (text : string) (mappings : PIIMappings) (p : string) :
  NoDup (keys mappings) -> In "" (keys mappings) ->
  obj_get mappings "" = Some p -> mem_char "$" p = false ->
  exists out, maskPII text mappings = p ++ out.
Proof.
  intros Hnd Hin Hget Hp. rewrite maskPII_fold.
  assert (Hperm := sort_perm _ by_length_desc (keys mappings)).
  destruct (sorted_empty_last (sort by_length_desc (keys mappings)))
    as (L' & ->).
  - apply sort_by_length_sorted.
  - apply (Permutation_NoDup (Permutation_sym Hperm) Hnd).
  - apply (Permutation_in _ (Permutation_sym Hperm) Hin).
  - rewrite fold_left_app. cbn [fold_left].
    rewrite mask_pass_literal, Hget. cbn [replace replace_value].
    now apply replace_empty_starts.
Qed.

(** X9. When the name begins with a space, the first name is empty and
    the builder enters the empty string as a key; masking any text, the
    empty text included, then returns a text that begins with a
    placeholder: the last replacement matches before every character. *)
Theorem maskPII_name_with_leading_space
        (host : DateHost) (studentInfo : StudentInfo) (rest text : string) :
  name studentInfo = String " " rest ->
  let table := createPIIMappings host studentInfo in
  In "" (keys table) /\
  exists placeholder out,
    In placeholder data_tokens /\
    maskPII text table = placeholder ++ out.
Proof.
  intros Hname table.
  assert (Hin : In "" (keys table)).
  { assert (Ht : truthy (name studentInfo) = true)
      by now rewrite Hname.
    assert (Hlow := first_name_variants_present host studentInfo Ht).
    rewrite Hname in Hlow. apply Hlow. discriminate. }
  split; [exact Hin|].
  destruct (in_obj_get _ _ _ (proj1 (in_keys _ _ _) Hin)) as (p & Hp).
  assert (Htok : In p data_tokens).
  { apply (createPIIMappings_values host studentInfo).
    apply in_values. apply obj_get_in in Hp. now apply (in_map snd) in Hp. }
  destruct (maskPII_empty_key text table p) as (out & Hout); auto.
  - apply createPIIMappings_nodup.
  - simpl in Htok.
    repeat (destruct Htok as [<-|Htok]; [reflexivity|]). contradiction.
  - now exists p, out.
Qed.

Lemma maskPII_name_with_leading_space_witness :
  exists placeholder out,
    In placeholder data_tokens /\
    maskPII "" (createPIIMappings sample_host (only_name " John"))
    = placeholder ++ out.
Proof.
  apply (maskPII_name_with_leading_space sample_host (only_name " John")
           "John" "" eq_refl).
Defined.

(** For the name [" John"] the text ["ab"] is masked to three tokens
    around its two characters. *)
Example maskPII_leading_space_sample (host : DateHost) :
  maskPII "ab" (createPIIMappings host (only_name " John"))
  = "[STUDENT_FIRST]a[STUDENT_FIRST]b[STUDENT_FIRST]".
Proof. reflexivity. Qed.

(* ================================================================== *)
(** * More on the leak validator *)
(* ================================================================== *)

Lemma validateNoExposedPII_lower (text text' : string)
      (mappings : PIIMappings) :
  toLowerCase text = toLowerCase text' ->
  validateNoExposedPII text mappings = validateNoExposedPII text' mappings.
Proof. intros H. unfold validateNoExposedPII. now rewrite H. Qed.

Lemma occurs_ci_nonempty_text (k : string) :
  occurs_ci k "" -> length k = 0.
Proof. intros ->%occurs_ci_nil. reflexivity. Qed.

(** X10. The result of [validateNoExposedPII] does not depend on the
    case of the letters of an ASCII text: the text, its lower-case and
    its upper-case form get the same result.  The empty text is clean
    for every table. *)
Theorem validateNoExposedPII_ignores_case
        (text : string) (mappings : PIIMappings) :
  (ascii_only text = true ->
   validateNoExposedPII (toLowerCase text) mappings
   = validateNoExposedPII text mappings /\
   validateNoExposedPII (toUpperCase text) mappings
   = validateNoExposedPII text mappings) /\
  validateNoExposedPII "" mappings
  = {| isClean := true; exposedValues := [] |}.
Proof.
  split; [intros _; split|].
  - apply validateNoExposedPII_lower, toLowerCase_idem.
  - apply validateNoExposedPII_lower, toLowerCase_upper.
  - apply validation_of_no_exposed. rewrite exposedValues_filter.
    apply filter_none. intros k _. unfold reportable.
    destruct (Nat.ltb_spec 2 (length k)); [|reflexivity]. simpl.
    destruct (includes_ci "" k) eqn:E; [|reflexivity].
    apply includes_ci_occurs, occurs_ci_nonempty_text in E. lia.
Qed.

Lemma validateNoExposedPII_ignores_case_witness :
  validateNoExposedPII (toUpperCase "ask John")
    [("John", PLACEHOLDERS.STUDENT_FIRST)]
  = validateNoExposedPII "ask John" [("John", PLACEHOLDERS.STUDENT_FIRST)].
Proof.
  exact (proj2 (proj1 (validateNoExposedPII_ignores_case "ask John"
                         [("John", PLACEHOLDERS.STUDENT_FIRST)]) eq_refl)).
Defined.

Lemma occurs_ci_inside (k pre text post : string) :
  occurs_ci k text -> occurs_ci k (pre ++ text ++ post).
Proof.
  intros (a & mid & b & -> & Hm).
  exists (pre ++ a), mid, (b ++ post). split; [|exact Hm].
  now rewrite !append_assoc.
Qed.

(** X11. ASCII text around an ASCII text hides nothing from the
    validator: every value reported for a text is reported for any text
    that contains it, so a text is clean whenever a text containing it
    is. *)
Theorem validateNoExposedPII_monotone
        (pre text post : string) (mappings : PIIMappings) :
  ascii_only (pre ++ text ++ post) = true ->
  (forall realValue,
      In realValue (exposedValues (validateNoExposedPII text mappings)) ->
      In realValue
         (exposedValues
            (validateNoExposedPII (pre ++ text ++ post) mappings))) /\
  (isClean (validateNoExposedPII (pre ++ text ++ post) mappings) = true ->
   isClean (validateNoExposedPII text mappings) = true).
Proof.
  intros _.
  assert (H : forall k,
             In k (exposedValues (validateNoExposedPII text mappings)) ->
             In k (exposedValues
                     (validateNoExposedPII (pre ++ text ++ post) mappings))).
  { intros k Hk. apply in_exposedValues in Hk as (Hin & Hlen & Hocc).
    apply in_exposedValues. repeat split; auto.
    now apply occurs_ci_inside. }
  split; [exact H|].
  unfold validateNoExposedPII at 1 2. cbn [isClean].
  rewrite !Nat.eqb_eq, !length_zero_iff_nil. intros Hnil.
  change (exposedValues (validateNoExposedPII text mappings) = []).
  remember (exposedValues (validateNoExposedPII text mappings)) as found eqn:E.
  destruct found as [|k l]; [reflexivity|].
  exfalso. specialize (H k (or_introl eq_refl)).
  unfold validateNoExposedPII in H. cbn [exposedValues] in H.
  now rewrite Hnil in H.
Qed.

Lemma validateNoExposedPII_monotone_witness :
  In "John"
     (exposedValues
        (validateNoExposedPII ("Dear " ++ "john" ++ ", welcome")
           [("John", PLACEHOLDERS.STUDENT_FIRST)])).
Proof.
  apply (proj1 (validateNoExposedPII_monotone "Dear " "john" ", welcome"
                  [("John", PLACEHOLDERS.STUDENT_FIRST)] eq_refl)).
  now left.
Defined.

(* ================================================================== *)
(** * The texts of a masked structured value *)
(* ================================================================== *)

Lemma leaves_masked (mappings : PIIMappings) (v : JsValue) :
  forall s,
    In s (leaves (maskPIIInObject v mappings)) ->
    exists t, In t (leaves v) /\ s = maskPII t mappings.
Proof.
  induction v as [t|items IH|props IH|n|b| |] using JsValue_induction;
    intros s Hs; try (now destruct Hs).
  - destruct Hs as [<-|[]]. exists t. split; [now left | reflexivity].
  - cbn [maskPIIInObject leaves] in Hs.
    apply in_flat_map in Hs as (y & Hy & Hs).
    apply in_map_iff in Hy as (x & <- & Hx).
    rewrite Forall_forall in IH.
    destruct (IH x Hx s Hs) as (t & Ht & ->).
    exists t. split; [|reflexivity].
    cbn [leaves]. apply in_flat_map. now exists x.
  - cbn [maskPIIInObject leaves] in Hs.
    apply in_flat_map in Hs as ([k y] & Hy & Hs).
    assert (Hy' : In y (map snd
                    (assign_into []
                       (own_writes
                          (entries
                             (map (fun e : string * JsValue =>
                                     let (key, value) := e in
                                     (key, maskPIIInObject value mappings))
                                  props)))))).
    { rewrite <- (assign_each_own _ _ []) by reflexivity.
      apply in_map_iff. now exists (k, y). }
    apply in_assign_into_values in Hy' as [[]|Hy'].
    apply in_map_iff in Hy' as ([k' y'] & Hyy & He). simpl in Hyy. subst y'.
    apply in_own_writes in He as [_ He].
    apply (proj1 (in_entries _ _ _)) in He.
    apply in_map_iff in He as ([k0 x] & Heq & Hx).
    injection Heq as -> <-.
    rewrite Forall_forall in IH.
    destruct (IH (k', x) Hx s Hs) as (t & Ht & ->).
    exists t. split; [|reflexivity].
    cbn [leaves]. apply in_flat_map. now exists (k', x).
Qed.

(** X12. Every text of the value [maskPIIInObject] returns is the
    [maskPII] of a text of the value it was given, whatever the value
    (records with a repeated key or a key [__proto__] included); so with
    an ASCII table that keeps its keys apart from its placeholders, and
    ASCII texts in the value, no text of the result holds a non-empty
    key of the table, in any case of the letters. *)
Theorem maskPIIInObject_texts (v : JsValue) (mappings : PIIMappings) :
  (forall s,
      In s (leaves (maskPIIInObject v mappings)) ->
      exists t, In t (leaves v) /\ s = maskPII t mappings) /\
  (separated mappings = true -> ascii_table mappings = true ->
   forallb ascii_only (leaves v) = true ->
   forall s realValue,
     In s (leaves (maskPIIInObject v mappings)) ->
     In realValue (keys mappings) -> 0 < length realValue ->
     ~ occurs_ci realValue s).
Proof.
  split; [apply leaves_masked|].
  intros Hsep _ _ s k Hs Hk Hlen.
  apply leaves_masked in Hs as (t & _ & ->).
  apply (maskPII_clean mappings Hsep t k Hk).
  intros ->. simpl in Hlen. lia.
Qed.

Lemma maskPIIInObject_texts_witness :
  let table := createPIIMappings sample_host (only_name "John Smith") in
  let v := JObject [("note", JString "John is here");
                    ("tags", JArray [JString "smith"; JNumber 3%Z])] in
  In "[STUDENT_FIRST] is here" (leaves (maskPIIInObject v table)) /\
  ~ occurs_ci "John" "[STUDENT_FIRST] is here".
Proof.
  intros table v. split; [now left|].
  apply (proj2 (maskPIIInObject_texts v table) eq_refl eq_refl eq_refl
               "[STUDENT_FIRST] is here" "John").
  - now left.
  - vm_compute. tauto.
  - simpl. lia.
Defined.

(* ================================================================== *)
(** * The chat route and the call of the model *)
(* ================================================================== *)

Section Conversation.

Import ChatRoute.
Local Open Scope list_scope.

Lemma at_index_last (A : Type) (l : list A) (a : A) :
  at_index (l ++ [a]) (Z.of_nat (List.length (l ++ [a])) - 1)%Z = Some a.
Proof.
  unfold at_index. rewrite length_app. simpl.
  destruct (Z.ltb_spec (Z.of_nat (List.length l + 1) - 1) 0); [lia|].
  replace (Z.to_nat (Z.of_nat (List.length l + 1) - 1)) with (List.length l)
    by lia.
  rewrite nth_error_app2 by lia. now rewrite Nat.sub_diag.
Qed.

Lemma at_index_empty (A : Type) :
  at_index (@nil A) (Z.of_nat (List.length (@nil A)) - 1)%Z = None.
Proof. reflexivity. Qed.

Lemma slice_but_last_app (A : Type) (l : list A) (a : A) :
  slice_but_last (l ++ [a]) = l.
Proof.
  unfold slice_but_last. rewrite length_app. simpl.
  replace (List.length l + 1 - 1) with (List.length l + 0) by lia.
  rewrite firstn_app_2. simpl. apply app_nil_r.
Qed.

Lemma ends_with_last (A : Type) (l : list A) :
  l <> [] -> exists l' a, l = l' ++ [a].
Proof.
  intros H. destruct (exists_last H) as (l' & a & ->). now exists l', a.
Qed.

Lemma chat_sends (apiKey : option string) (l : list ChatMessage)
      (a : ChatMessage) (systemPrompt : option string) :
  opt_truthy apiKey = true ->
  chat apiKey (l ++ [a]) systemPrompt =
  SendMessage systemPrompt
    (map (fun msg => {| content_role := role msg; parts := [content msg] |})
         l)
    (content a).
Proof.
  intros Hkey. unfold chat. rewrite Hkey. cbn [negb].
  rewrite at_index_last, slice_but_last_app. f_equal.
  apply map_ext. intros [[] c]; reflexivity.
Qed.

Lemma flat_map_parts (l : list ChatMessage) :
  flat_map parts
    (map (fun msg => {| content_role := role msg; parts := [content msg] |})
         l)
  = map content l.
Proof. induction l as [|m l IH]; simpl; [reflexivity | now rewrite IH]. Qed.

(** X13. With an API key in the environment and at least one message,
    [chat] hands the model every message text exactly once and in order:
    all but the last as the history, each with the role of its message,
    and the last as the message sent; the system prompt is passed on as
    it is. *)
Theorem chat_sends_every_message
        (apiKey : option string) (messages : list ChatMessage)
        (systemPrompt : option string) :
  opt_truthy apiKey = true -> messages <> [] ->
  exists history text,
    chat apiKey messages systemPrompt
    = SendMessage systemPrompt history text /\
    map content_role history = map role (slice_but_last messages) /\
    List.length history = List.length messages - 1 /\
    texts_sent (chat apiKey messages systemPrompt) = map content messages.
Proof.
  intros Hkey Hne. destruct (ends_with_last _ messages Hne) as (l & a & ->).
  rewrite (chat_sends apiKey l a systemPrompt Hkey).
  eexists _, _. split; [reflexivity|]. repeat split.
  - rewrite slice_but_last_app, map_map. reflexivity.
  - rewrite length_map, length_app. simpl. lia.
  - cbn [texts_sent]. rewrite flat_map_parts, map_app. reflexivity.
Qed.

Lemma chat_sends_every_message_witness :
  texts_sent
    (chat (Some "key")
          [ {| role := user; content := "first" |};
            {| role := model; content := "second" |};
            {| role := user; content := "third" |} ]
          None)
  = ["first"; "second"; "third"].
Proof.
  destruct (chat_sends_every_message (Some "key")
              [ {| role := user; content := "first" |};
                {| role := model; content := "second" |};
                {| role := user; content := "third" |} ]
              None eq_refl) as (history & text & _ & _ & _ & H).
  - discriminate.
  - exact H.
Defined.

(** X14. [chat] stops with the error of [getGeminiClient] whenever the
    environment has no API key (or an empty one), whatever the messages;
    with a key it fails on reading the last message exactly when the
    list of messages is empty. *)
Theorem chat_failures
        (apiKey : option string) (messages : list ChatMessage)
        (systemPrompt : option string) :
  (chat apiKey messages systemPrompt = MissingKey
   <-> opt_truthy apiKey = false) /\
  (chat apiKey messages systemPrompt = NoLastMessage
   <-> opt_truthy apiKey = true /\ messages = []).
Proof.
  destruct (opt_truthy apiKey) eqn:Hkey.
  - destruct messages as [|m l].
    + unfold chat. rewrite Hkey. cbn. split; split; intuition discriminate.
    + assert (Hne : m :: l <> []) by discriminate.
      destruct (ends_with_last _ _ Hne) as (l' & a & ->).
      rewrite (chat_sends apiKey l' a systemPrompt Hkey).
      split; split; try discriminate.
      intros [_ H]. destruct l'; discriminate.
  - unfold chat. rewrite Hkey. cbn.
    split; split; try reflexivity; try discriminate.
    intros [H _]. discriminate.
Qed.

Lemma masked_messages_some (host : DateHost) (iepCase : IEPCase)
      (l : list ChatMessage) (a : ChatMessage) :
  let table := createPIIMappings host (student_info iepCase) in
  masked_messages host iepCase (l ++ [a]) =
  Some (map (fun msg => {| role := role msg;
                           content := maskPII (content msg) table |})
            (l ++ [a]),
        validateNoExposedPII (maskPII (content a) table) table).
Proof.
  intros table. unfold masked_messages. fold table.
  rewrite map_app. cbn [map]. rewrite at_index_last. reflexivity.
Qed.

(** X15. In the chat route, when the request carries at least one
    message and the environment has an API key, the texts handed to the
    model are the [maskPII] of the texts of the request, one for one and
    in order, under the table built from the case; the roles are kept.
    When that table is ASCII and keeps its keys apart from its
    placeholders, and the texts of the request are ASCII, the check of
    the last message is clean and no text handed to the model holds a
    non-empty key of the table, in any case of the letters. *)
Theorem chat_route_sends_masked_texts
        (host : DateHost) (iepCase : IEPCase)
        (messages : list ChatMessage)
        (apiKey systemPrompt : option string) :
  opt_truthy apiKey = true -> messages <> [] ->
  let table := createPIIMappings host (student_info iepCase) in
  exists maskedMessages validation,
    masked_messages host iepCase messages
    = Some (maskedMessages, validation) /\
    map role maskedMessages = map role messages /\
    texts_sent (chat apiKey maskedMessages systemPrompt)
    = map (fun msg => maskPII (content msg) table) messages /\
    (separated table = true -> ascii_table table = true ->
     forallb (fun msg => ascii_only (content msg)) messages = true ->
     validation = {| isClean := true; exposedValues := [] |} /\
     forall text realValue,
       In text (texts_sent (chat apiKey maskedMessages systemPrompt)) ->
       In realValue (keys table) -> 0 < length realValue ->
       ~ occurs_ci realValue text).
Proof.
  intros Hkey Hne table.
  destruct (ends_with_last _ messages Hne) as (l & a & ->).
  eexists _, _. split; [apply masked_messages_some|]. fold table.
  assert (Hsent :
    texts_sent
      (chat apiKey
            (map (fun msg => {| role := role msg;
                                content := maskPII (content msg) table |})
                 (l ++ [a])) systemPrompt)
    = map (fun msg => maskPII (content msg) table) (l ++ [a])).
  { rewrite map_app. cbn [map].
    rewrite (chat_sends apiKey _ _ systemPrompt Hkey).
    cbn [texts_sent content]. rewrite flat_map_parts, map_map, map_app.
    reflexivity. }
  split; [|split; [exact Hsent|]].
  - rewrite map_map. reflexivity.
  - intros Hsep _ _. split; [now apply clean_after_maskPII|].
    intros text k Ht Hk Hlen. rewrite Hsent in Ht.
    apply in_map_iff in Ht as (msg & <- & _).
    apply (maskPII_clean table Hsep (content msg) k Hk).
    intros ->. simpl in Hlen. lia.
Qed.

Lemma chat_route_sends_masked_texts_witness :
  texts_sent
    (chat (Some "key")
          (map (fun msg =>
                  {| role := role msg;
                     content :=
                       maskPII (content msg)
                         (createPIIMappings sample_host
                            (student_info sample_case)) |})
               [ {| role := user; content := "Who is John Smith?" |};
                 {| role := model; content := "A student." |};
                 {| role := user; content := "Is JOHN here?" |} ])
          None)
  = ["Who is [STUDENT_NAME]?"; "A student."; "Is [STUDENT_FIRST] here?"] /\
  validateNoExposedPII "Is [STUDENT_FIRST] here?"
    (createPIIMappings sample_host (student_info sample_case))
  = {| isClean := true; exposedValues := [] |}.
Proof.
  destruct (chat_route_sends_masked_texts sample_host sample_case
              [ {| role := user; content := "Who is John Smith?" |};
                {| role := model; content := "A student." |};
                {| role := user; content := "Is JOHN here?" |} ]
              (Some "key") None eq_refl)
    as (maskedMessages & validation & Hm & _ & Hs & Hclean).
  - discriminate.
  - destruct (Hclean eq_refl eq_refl eq_refl) as [Hv _].
    vm_compute in Hm. injection Hm as <- <-.
    split; [exact Hs | reflexivity].
Defined.

(** X16. The chat route fails on reading the last message (and answers
    with status 500) exactly when the request carries no message;
    otherwise it goes on with as many masked messages as the request
    has, and what it checks is the last of them only. *)
Theorem chat_route_last_message
        (host : DateHost) (iepCase : IEPCase)
        (messages : list ChatMessage) :
  (masked_messages host iepCase messages = None <-> messages = []) /\
  (forall maskedMessages validation,
      masked_messages host iepCase messages
      = Some (maskedMessages, validation) ->
      List.length maskedMessages = List.length messages /\
      exists earlier lastMessage,
        messages = earlier ++ [lastMessage] /\
        validation =
        validateNoExposedPII
          (maskPII (content lastMessage)
                   (createPIIMappings host (student_info iepCase)))
          (createPIIMappings host (student_info iepCase))).
Proof.
  destruct messages as [|m l].
  - split; [split; reflexivity|]. intros ms v H. discriminate.
  - assert (Hne : m :: l <> []) by discriminate.
    destruct (ends_with_last _ _ Hne) as (l' & a & E). rewrite E.
    rewrite (masked_messages_some host iepCase l' a).
    split.
    + split; [discriminate|]. intros H. destruct l'; discriminate.
    + intros ms v H. injection H as <- <-. split.
      * now rewrite length_map.
      * now exists l', a.
Qed.

End Conversation.

(* ================================================================== *)
(** * Unmasking leaves no placeholder of the table behind *)
(* ================================================================== *)

Lemma occurs_is_occurs_ci (t s : string) : occurs t s -> occurs_ci t s.
Proof. intros (pre & post & ->). now exists pre, t, post. Qed.

Lemma occurs_tail (t : string) (c : ascii) (s : string) :
  occurs t s -> occurs t (String c s).
Proof. intros (pre & post & ->). now exists (String c pre), post. Qed.

Lemma occurs_head_or_tail (t : string) (c : ascii) (s : string) :
  occurs t (String c s) ->
  matches_at false t (String c s) = true \/ occurs t s.
Proof.
  intros (pre & post & H). destruct pre as [|d pre]; simpl in H.
  - left. apply matches_at_exact. now exists post.
  - right. injection H as _ ->. now exists pre, post.
Qed.

Lemma bracket_free_last (s : string) (c : ascii) :
  bracket_free s = true -> last_char s = Some c -> is_bracket c = false.
Proof.
  induction s as [|x s IH]; simpl; [discriminate|].
  rewrite andb_true_iff, negb_true_iff. intros [Hx Hs].
  destruct s as [|y s].
  - now intros [= <-].
  - now apply IH.
Qed.

(** A text without brackets in front of a text adds no occurrence of a
    string that starts with a bracket. *)
Lemma occurs_after_bracket_free (w t x : string) :
  bracket_free w = true ->
  occurs (String "[" t) (w ++ x) -> occurs (String "[" t) x.
Proof.
  induction w as [|c w IH]; intros Hw H; [exact H|].
  simpl in Hw. apply andb_true_iff in Hw as [Hc Hw].
  simpl in H. apply occurs_head_or_tail in H as [H|H].
  - apply matches_at_exact in H as [r H]. simpl in H.
    injection H as Hc' _. subst c. discriminate.
  - now apply IH.
Qed.

Section RealValuePass.
Variables (ic : bool) (lit v : string).
Hypothesis v_plain : mem_char "$" v = false.
Hypothesis v_free : bracket_free v = true.

Lemma substitution_value (matched before after : string) :
  substitution v matched before after = v.
Proof. now apply substitution_plain. Qed.

(** What starts with the real value and ends with a closing bracket
    holds the real value. *)
Lemma starts_with_value (P r : string) :
  last_char P = Some "]"%char ->
  matches_at false P (v ++ r) = true -> occurs v P.
Proof.
  intros Hlast H. apply matches_at_exact in H as [r' H].
  destruct (append_eq_append _ _ _ _ H) as [(z & Hv & _)|(z & HP & _)].
  - exfalso. assert (Hf := v_free).
    rewrite Hv, bracket_free_append in Hf.
    apply andb_true_iff in Hf as [HPf _].
    discriminate (bracket_free_last P "]" HPf Hlast).
  - exists "", z. now rewrite HP.
Qed.

(** What starts the output of a pass starts its input, when it ends with
    a closing bracket and does not hold the real value. *)
Lemma scan_prefix_token (s : string) : forall P before,
  P = "" \/ last_char P = Some "]"%char ->
  ~ occurs v P ->
  matches_at false P (replace_scan ic lit v 0 before s) = true ->
  matches_at false P s = true.
Proof.
  induction s as [|c s IH]; intros P before Hclose Hv H; [exact H|].
  destruct Hclose as [->|Hlast]; [reflexivity|].
  cbn [replace_scan] in H.
  destruct (matches_at ic lit (String c s)).
  - rewrite substitution_value in H. exfalso. apply Hv.
    exact (starts_with_value P _ Hlast H).
  - destruct P as [|d P]; [reflexivity|].
    simpl in H |- *. apply andb_true_iff in H as [Hd H].
    rewrite Hd. simpl. apply (IH P (before ++ String c "")).
    + destruct P as [|e P]; [now left | right; exact Hlast].
    + intros Hocc. apply Hv. now apply occurs_tail.
    + exact H.
Qed.

Variable body : string.
Local Abbreviation token := (String "[" (body ++ "]")).
Hypothesis v_apart : ~ occurs v token.

Lemma token_closes : last_char token = Some "]"%char.
Proof. exact (last_char_append (String "[" body) "]"). Qed.

(** A pass that inserts the real value creates no occurrence of the
    token. *)
Lemma scan_keeps_out (s : string) : forall skip before,
  occurs token (replace_scan ic lit v skip before s) -> occurs token s.
Proof.
  induction s as [|c s IH]; intros skip before H; [exact H|].
  cbn [replace_scan] in H. destruct skip as [|n].
  - destruct (matches_at ic lit (String c s)) eqn:E.
    + rewrite substitution_value in H.
      apply (occurs_after_bracket_free v _ _ v_free) in H.
      apply occurs_tail. now apply IH in H.
    + apply occurs_head_or_tail in H as [H|H].
      * assert (G : matches_at false token (String c s) = true).
        { apply (scan_prefix_token (String c s) token before).
          - right. exact token_closes.
          - exact v_apart.
          - cbn [replace_scan]. now rewrite E. }
        apply matches_at_exact in G as [r G]. exists "", r. exact G.
      * apply occurs_tail. now apply IH in H.
  - apply occurs_tail. now apply IH in H.
Qed.

End RealValuePass.

(** The pass for a token leaves no occurrence of the token. *)
Lemma scan_resolves (v body : string) :
  mem_char "$" v = false -> bracket_free v = true ->
  ~ occurs v (String "[" (body ++ "]")) ->
  forall s skip before,
    ~ occurs (String "[" (body ++ "]"))
      (replace_scan false (String "[" (body ++ "]")) v skip before s).
Proof.
  intros Hplain Hfree Hapart.
  induction s as [|c s IH]; intros skip before H.
  - destruct H as (pre & post & H). destruct pre; discriminate.
  - cbn [replace_scan] in H. destruct skip as [|n].
    + destruct (matches_at false (String "[" (body ++ "]")) (String c s))
        eqn:E.
      * rewrite (substitution_value v Hplain) in H.
        apply (occurs_after_bracket_free v _ _ Hfree) in H.
        now apply IH in H.
      * apply occurs_head_or_tail in H as [H|H].
        -- assert (G : matches_at false (String "[" (body ++ "]"))
                                  (String c s) = true).
           { apply (scan_prefix_token false (String "[" (body ++ "]")) v
                      Hplain Hfree (String c s) _ before).
             - right. apply token_closes.
             - exact Hapart.
             - cbn [replace_scan]. now rewrite E. }
           congruence.
        -- now apply IH in H.
    + now apply IH in H.
Qed.

Lemma replace_value_keeps_out (text lit p r : string) (ic : bool) :
  is_token p = true -> lit <> "" ->
  mem_char "$" r = false -> bracket_free r = true -> ~ occurs r p ->
  occurs p (replace text (Literal lit ic) r) -> occurs p text.
Proof.
  intros (body & -> & _ & _)%token_shape Hne Hplain Hfree Hapart H.
  destruct lit as [|c lit]; [contradiction|]. cbn [replace] in H.
  exact (scan_keeps_out ic (String c lit) r Hplain Hfree body Hapart
                        text 0 "" H).
Qed.

Lemma replace_value_resolves (text p r : string) :
  is_token p = true ->
  mem_char "$" r = false -> bracket_free r = true -> ~ occurs r p ->
  ~ occurs p (replace text (Literal p false) r).
Proof.
  intros (body & -> & _ & _)%token_shape Hplain Hfree Hapart.
  cbn [replace]. now apply scan_resolves.
Qed.

(** Every placeholder of the table that no plain object inherits has
    an entry in the reverse table. *)
Lemma reverse_fold_complete (es : list (string * string)) :
  forall (rev : obj string) (p : string),
    inherited p = false ->
    In p (map fst rev) \/ In p (map snd es) ->
    In p (map fst (fold_left reverse_step es rev)).
Proof.
  induction es as [|[k q] es IH]; intros rev p Hp H;
    cbn [fold_left reverse_step].
  - destruct H as [H|[]]. exact H.
  - apply (IH _ _ Hp). simpl in H.
    destruct H as [H|[<-|H]]; [| |now right]; left.
    + destruct (falsy_at rev q); [|exact H].
      apply in_obj_set_keys. now right.
    + unfold falsy_at. destruct (obj_get rev q) as [w|] eqn:E.
      * assert (Hin : In q (map fst rev)).
        { apply obj_get_in in E. now apply (in_map fst) in E. }
        destruct (negb (truthy w)); [|exact Hin].
        apply in_obj_set_keys. now left.
      * rewrite Hp. cbn [negb]. apply in_obj_set_keys. now left.
Qed.

(** The real values of the reverse table are real values of the table. *)
Lemma reverse_fold_values (es : list (string * string)) :
  forall (rev : obj string) (r : string),
    In r (map snd (fold_left reverse_step es rev)) ->
    In r (map snd rev) \/ In r (map fst es).
Proof.
  induction es as [|[k q] es IH]; intros rev r H; simpl in *; [now left|].
  apply IH in H as [H|H]; [|now right; right].
  destruct (falsy_at rev q); [|now left].
  apply in_obj_set_values in H as [->|H]; [right; now left | now left].
Qed.

Section Resolve.
Variable mappings : PIIMappings.
Hypothesis Hsep : separated mappings = true.
Hypothesis Hne : no_empty_key mappings = true.
Hypothesis Hplain : plain_keys mappings = true.

Local Abbreviation rev := (reverse_mappings mappings).

Lemma reverse_entry (p r : string) :
  In (p, r) (entries rev) ->
  is_token p = true /\ In p (values mappings) /\
  mem_char "$" r = false /\ bracket_free r = true /\
  forall q, In q (values mappings) -> ~ occurs r q.
Proof.
  intros H. apply (proj1 (in_entries _ _ _)) in H.
  assert (Hp : In p (values mappings)).
  { apply reverse_mappings_keys. now apply (in_map fst) in H. }
  assert (Hr : In r (keys mappings)).
  { apply (in_map snd) in H. simpl in H.
    rewrite reverse_mappings_fold in H.
    apply reverse_fold_values in H as [[]|H]. exact H. }
  assert (Hrne : r <> "") by now apply (no_empty_key_spec mappings Hne).
  destruct (separated_key mappings Hsep r Hr Hrne) as [Hfree Hvals].
  repeat split; auto.
  - unfold separated in Hsep. apply andb_true_iff in Hsep as [Ht _].
    rewrite forallb_forall in Ht. now apply Ht.
  - unfold plain_keys in Hplain. rewrite forallb_forall in Hplain.
    specialize (Hplain r Hr). now apply negb_true_iff in Hplain.
  - intros q Hq Hocc. apply (Hvals q Hq). now apply occurs_is_occurs_ci.
Qed.

Lemma unmask_passes_resolve (L : list (string * string)) :
  forall (done : list (string * string)) acc,
    (forall e, In e (done ++ L)%list -> In e (entries rev)) ->
    (forall e, In e done -> ~ occurs (fst e) acc) ->
    forall e, In e (done ++ L)%list ->
              ~ occurs (fst e) (fold_left unmask_pass L acc).
Proof.
  induction L as [|[p r] L IH]; intros done acc Hin Hclean e He.
  - rewrite app_nil_r in He. simpl. now apply Hclean.
  - cbn [fold_left].
    assert (Hpr : In (p, r) (entries rev)).
    { apply Hin. apply in_or_app. right. now left. }
    destruct (reverse_entry p r Hpr) as (Htok & Hpv & Hd & Hf & Hap).
    apply (IH (done ++ [(p, r)])%list).
    + intros x Hx. apply Hin. now rewrite <- app_assoc in Hx.
    + intros [q w] Hx. unfold unmask_pass. rewrite RegExp_escapeRegExp.
      cbn [fst]. apply in_app_or in Hx as [Hx|[Hx|[]]].
      * assert (Hqw : In (q, w) (entries rev)).
        { apply Hin. apply in_or_app. now left. }
        destruct (reverse_entry q w Hqw) as (Hqtok & Hqv & _).
        intros H.
        apply (replace_value_keeps_out acc p q r false Hqtok) in H; auto.
        -- exact (Hclean (q, w) Hx H).
        -- intros ->. discriminate.
      * injection Hx as <- <-.
        apply replace_value_resolves; auto.
    + now rewrite <- app_assoc.
Qed.

Lemma unmaskPII_resolves (text p : string) :
  In p (values mappings) -> ~ occurs p (unmaskPII text mappings).
Proof.
  intros Hp. rewrite unmaskPII_fold.
  assert (Hk : In p (map fst rev)).
  { rewrite reverse_mappings_fold. apply reverse_fold_complete.
    - apply is_token_not_inherited. assert (Hs := Hsep).
      unfold separated in Hs. apply andb_true_iff in Hs as [Ht _].
      rewrite forallb_forall in Ht. now apply Ht.
    - right. exact Hp. }
  apply in_map_iff in Hk as ([p' r] & Hfst & Hin). simpl in Hfst. subst p'.
  assert (Hpr : In (p, r) ([] ++ entries rev)%list)
    by (simpl; apply in_entries; exact Hin).
  exact (unmask_passes_resolve (entries rev) [] text (fun e He => He)
           (fun e (F : In e []) => match F with end) (p, r) Hpr).
Qed.

End Resolve.

(** X17. When the table keeps its keys apart from its placeholders, has
    no empty key and no dollar sign in a key, the text [unmaskPII]
    returns holds none of the placeholders of the table: each one is
    replaced, and no replacement puts one together again. *)
Theorem unmaskPII_resolves_placeholders
        (mappings : PIIMappings) (text placeholder : string) :
  separated mappings = true -> no_empty_key mappings = true ->
  plain_keys mappings = true ->
  In placeholder (values mappings) ->
  ~ occurs placeholder (unmaskPII text mappings).
Proof. intros Hsep Hne Hplain. now apply unmaskPII_resolves. Qed.

Lemma unmaskPII_resolves_placeholders_witness :
  let table := createPIIMappings sample_host (only_name "John Smith") in
  In "[STUDENT_FIRST]" (values table) /\
  ~ occurs "[STUDENT_FIRST]"
      (unmaskPII "[STUDENT_NAME] met [[STUDENT_FIRST]]" table).
Proof.
  intros table. split; [vm_compute; tauto|].
  apply (unmaskPII_resolves_placeholders table
           "[STUDENT_NAME] met [[STUDENT_FIRST]]" "[STUDENT_FIRST]"
           eq_refl eq_refl eq_refl).
  vm_compute. tauto.
Defined.

(** The sample text, restored. *)
Example unmaskPII_resolves_sample :
  unmaskPII "[STUDENT_NAME] met [[STUDENT_FIRST]]"
            (createPIIMappings sample_host (only_name "John Smith"))
  = "John Smith met [John]".
Proof. reflexivity. Qed.

(* ================================================================== *)
(** * Escaping a string for a pattern *)
(* ================================================================== *)

Lemma escapeRegExp_append (a b : string) :
  escapeRegExp (a ++ b) = escapeRegExp a ++ escapeRegExp b.
Proof.
  induction a as [|c a IH]; simpl; [reflexivity|].
  destruct (is_syntax_char c); simpl; now rewrite IH.
Qed.

Lemma escapeRegExp_length (s : string) :
  length s <= length (escapeRegExp s) <= 2 * length s.
Proof.
  induction s as [|c s IH]; simpl; [lia|].
  destruct (is_syntax_char c); simpl; lia.
Qed.

Lemma escapeRegExp_fixed (s : string) :
  escapeRegExp s = s <->
  forall c, mem_char c s = true -> is_syntax_char c = false.
Proof.
  induction s as [|c s IH]; simpl.
  - split; [intros _ c; discriminate | reflexivity].
  - destruct (is_syntax_char c) eqn:E.
    + split.
      * intros H. apply (f_equal length) in H. simpl in H.
        pose proof (escapeRegExp_length s). lia.
      * intros H. specialize (H c). rewrite Ascii.eqb_refl in H.
        simpl in H. specialize (H eq_refl). congruence.
    + split.
      * intros H. injection H as H. intros d Hd.
        apply orb_true_iff in Hd as [Hd|Hd].
        -- apply Ascii.eqb_eq in Hd. now subst d.
        -- now apply (proj1 IH H).
      * intros H. f_equal. apply IH. intros d Hd. apply H.
        rewrite Hd. apply orb_true_r.
Qed.

(** X18. [escapeRegExp] loses nothing and adds only backslashes:
    different strings have different escaped forms, the escaped form of
    a concatenation is the concatenation of the escaped forms, it is at
    most twice as long as the string, and it is the string itself
    exactly when the string has none of the characters
    [. * + ? ^ $ { } ( ) | [ ] \]. *)
Theorem escapeRegExp_faithful (a b : string) :
  (escapeRegExp a = escapeRegExp b -> a = b) /\
  escapeRegExp (a ++ b) = escapeRegExp a ++ escapeRegExp b /\
  length a <= length (escapeRegExp a) <= 2 * length a /\
  (escapeRegExp a = a <->
   forall c, mem_char c a = true -> is_syntax_char c = false).
Proof.
  split; [|split; [|split]].
  - intros H. apply (f_equal parse_literal) in H.
    rewrite !parse_literal_escapeRegExp in H. now injection H.
  - apply escapeRegExp_append.
  - apply escapeRegExp_length.
  - apply escapeRegExp_fixed.
Qed.

(* ================================================================== *)
(** * The round trip of the specification's example, for a full record *)
(* ================================================================== *)

Lemma obj_set_after (V : Type) (o acc : obj V) (k : string) (v : V) :
  ~ In k (map fst o) -> obj_set (o ++ acc)%list k v = (o ++ obj_set acc k v)%list.
Proof.
  induction o as [|[k0 v0] o IH]; simpl; intros H; [reflexivity|].
  destruct (String.eqb_spec k0 k) as [->|]; [exfalso; tauto|].
  rewrite IH; tauto.
Qed.

Lemma assign_into_after (V : Type) (o : obj V) (ws : list (string * V)) :
  (forall e, In e ws -> ~ In (fst e) (map fst o)) ->
  forall acc, assign_into (o ++ acc)%list ws = (o ++ assign_into acc ws)%list.
Proof.
  induction ws as [|[k v] ws IH]; intros H acc; [reflexivity|].
  unfold assign_into in *. cbn [fold_left fst snd].
  rewrite obj_set_after by (apply (H (k, v)); now left).
  apply IH. intros e He. apply H. now right.
Qed.

Lemma first_real_value_skip (p : string) (l1 l2 : list (string * string)) :
  (forall e, In e l1 -> snd e <> p) ->
  first_real_value p (l1 ++ l2) = first_real_value p l2.
Proof.
  induction l1 as [|[k q] l1 IH]; intros H; [reflexivity|].
  cbn [app first_real_value].
  destruct (String.eqb_spec q p) as [E|_].
  - exfalso. now apply (H (k, q)); [left|].
  - apply IH. intros e He. apply H. now right.
Qed.

Lemma other_writes_tokens (host : DateHost) (studentInfo : StudentInfo) :
  forall e,
    In e (dob_writes host studentInfo ++ writes_after_dob studentInfo) ->
    In (snd e) other_tokens.
Proof.
  intros e. unfold writes_after_dob. rewrite !in_app_iff.
  unfold dob_writes, id_writes, school_writes, grade_writes,
    parent_writes, address_writes.
  intros [H|[H|[H|[H|[H|H]]]]].
  - destruct (truthy (dateOfBirth studentInfo)); [|contradiction].
    destruct (date_parse host (dateOfBirth studentInfo));
      simpl in H; repeat (destruct H as [<-|H]; [simpl; tauto|]);
      contradiction.
  - destruct (truthy (studentId studentInfo)); [|contradiction].
    simpl in H; repeat (destruct H as [<-|H]; [simpl; tauto|]); contradiction.
  - destruct (truthy (school studentInfo)); [|contradiction].
    simpl in H; repeat (destruct H as [<-|H]; [simpl; tauto|]); contradiction.
  - destruct (truthy (grade studentInfo)); [|contradiction].
    simpl in H; repeat (destruct H as [<-|H]; [simpl; tauto|]); contradiction.
  - destruct (truthy (parentName studentInfo)); [|contradiction].
    simpl in H; repeat (destruct H as [<-|H]; [simpl; tauto|]); contradiction.
  - destruct (opt_truthy (address studentInfo)); [|contradiction].
    simpl in H; repeat (destruct H as [<-|H]; [simpl; tauto|]); contradiction.
Qed.

(** Restoring a text that holds no other token than the two name
    tokens: [restored a b] is the text when the full-name token has been
    replaced ([a]) and when the first-name token has ([b]). *)
Section Restoring.
Variable restored : bool -> bool -> string.
Hypothesis full_name_pass : forall a b,
  replace (restored a b) (Literal PLACEHOLDERS.STUDENT_NAME false)
          "John Smith" = restored true b.
Hypothesis first_name_pass : forall a b,
  replace (restored a b) (Literal PLACEHOLDERS.STUDENT_FIRST false)
          "John" = restored a true.
Hypothesis no_other_token : forall a b,
  forallb (fun p => negb (includes (restored a b) p)) other_tokens = true.

Lemma other_token_pass (a b : bool) (p r : string) :
  In p other_tokens ->
  replace (restored a b) (Literal p false) r = restored a b.
Proof.
  intros Hp. apply replace_no_occurrence. intros Hocc.
  apply includes_occurs in Hocc.
  assert (H := no_other_token a b). rewrite forallb_forall in H.
  specialize (H p Hp). now rewrite Hocc in H.
Qed.

Lemma restore_passes (L : list (string * string)) :
  (forall e, In e L ->
             (fst e = PLACEHOLDERS.STUDENT_NAME /\ snd e = "John Smith") \/
             (fst e = PLACEHOLDERS.STUDENT_FIRST /\ snd e = "John") \/
             In (fst e) other_tokens) ->
  forall a b,
    fold_left unmask_pass L (restored a b) =
    restored
      (a || existsb (fun e => String.eqb (fst e) PLACEHOLDERS.STUDENT_NAME) L)
      (b || existsb (fun e => String.eqb (fst e) PLACEHOLDERS.STUDENT_FIRST) L).
Proof.
  induction L as [|[p r] L IH]; intros H a b.
  - cbn [fold_left existsb]. now rewrite !orb_false_r.
  - cbn [fold_left existsb fst]. unfold unmask_pass at 2.
    rewrite RegExp_escapeRegExp.
    assert (HL : forall e, In e L ->
               (fst e = PLACEHOLDERS.STUDENT_NAME /\ snd e = "John Smith") \/
               (fst e = PLACEHOLDERS.STUDENT_FIRST /\ snd e = "John") \/
               In (fst e) other_tokens)
      by (intros e He; apply H; now right).
    destruct (H (p, r) (or_introl eq_refl)) as [[Hp Hr]|[[Hp Hr]|Hp]];
      cbn [fst snd] in *.
    + subst p r. rewrite full_name_pass, (IH HL). cbn.
      now rewrite !orb_true_r.
    + subst p r. rewrite first_name_pass, (IH HL). cbn.
      now rewrite !orb_true_r.
    + rewrite (other_token_pass a b p r Hp), (IH HL).
      assert (E1 : String.eqb p PLACEHOLDERS.STUDENT_NAME = false).
      { apply String.eqb_neq. intros ->. simpl in Hp. unfold_tokens.
        intuition discriminate. }
      assert (E2 : String.eqb p PLACEHOLDERS.STUDENT_FIRST = false).
      { apply String.eqb_neq. intros ->. simpl in Hp. unfold_tokens.
        intuition discriminate. }
      now rewrite E1, E2.
Qed.

End Restoring.

Section JohnSmith.
Variables (host : DateHost) (studentInfo : StudentInfo).
Hypothesis Hname : name studentInfo = "John Smith".
Hypothesis Hapart :
  apart john_smith_stages (other_keys host studentInfo) = true.

Local Abbreviation table := (createPIIMappings host studentInfo).
Local Abbreviation others :=
  (dob_writes host studentInfo ++ writes_after_dob studentInfo)%list.
Local Abbreviation rest := (assign_into [] (own_writes others)).
Local Abbreviation T0 := "John Smith said John is happy".
Local Abbreviation T1 := "[STUDENT_NAME] said John is happy".
Local Abbreviation T2 := "[STUDENT_NAME] said [STUDENT_FIRST] is happy".

Lemma writes_john_smith :
  writes host studentInfo = (john_smith_keys ++ others)%list.
Proof. unfold writes, name_writes. rewrite Hname. reflexivity. Qed.

Lemma other_key_apart (k t : string) :
  In k (other_keys host studentInfo) -> In t john_smith_stages ->
  includes_ci t k = false.
Proof.
  intros Hk Ht. assert (H := Hapart). unfold apart in H.
  rewrite forallb_forall in H. specialize (H k Hk).
  rewrite forallb_forall in H. specialize (H t Ht).
  now apply negb_true_iff in H.
Qed.

Lemma other_key_not_name (k : string) :
  In k (other_keys host studentInfo) -> ~ In k (map fst john_smith_keys).
Proof.
  intros Hk Hin.
  assert (H := other_key_apart k T0 Hk (or_introl eq_refl)).
  simpl in Hin.
  repeat (destruct Hin as [<-|Hin]; [discriminate H|]). contradiction.
Qed.

Lemma table_split : table = (john_smith_keys ++ rest)%list.
Proof.
  rewrite createPIIMappings_writes, writes_john_smith.
  unfold own_writes at 1. rewrite filter_app.
  change (filter (fun e : string * string =>
                    negb (String.eqb (fst e) "__proto__")) john_smith_keys)
    with john_smith_keys.
  fold (own_writes others).
  rewrite assign_into_app.
  change (assign_into [] john_smith_keys) with (john_smith_keys ++ [])%list.
  apply assign_into_after. intros e He.
  apply in_own_writes in He as [_ He].
  apply other_key_not_name. unfold other_keys. now apply in_map.
Qed.

Lemma rest_entry (e : string * string) :
  In e rest ->
  In (fst e) (other_keys host studentInfo) /\ In (snd e) other_tokens.
Proof.
  intros He. split.
  - apply (in_map fst) in He. apply in_assign_into_keys in He as [[]|He].
    apply in_own_writes_keys in He as [_ He]. exact He.
  - apply (in_map snd) in He. apply in_assign_into_values in He as [[]|He].
    apply in_map_iff in He as (e' & <- & He').
    apply in_own_writes in He' as [_ He'].
    now apply (other_writes_tokens host studentInfo).
Qed.

Lemma table_key (k : string) :
  In k (keys table) <->
  In k (map fst john_smith_keys) \/
  (In k (map fst rest) /\ In k (other_keys host studentInfo)).
Proof.
  rewrite in_keys, table_split, map_app, in_app_iff. split.
  - intros [H|H]; [now left|]. right. split; [exact H|].
    apply in_map_iff in H as (e & <- & He). now apply rest_entry.
  - tauto.
Qed.

Lemma name_key_token (k tok : string) :
  In (k, tok) john_smith_keys -> obj_get table k = Some tok.
Proof.
  rewrite table_split. simpl.
  intros H; repeat (destruct H as [[= <- <-]|H]; [reflexivity|]);
    contradiction.
Qed.

Lemma name_pass (k tok t : string) :
  In (k, tok) john_smith_keys ->
  mask_pass table t k = replace t (Literal k true) tok.
Proof.
  intros H. now rewrite mask_pass_literal, (name_key_token k tok H).
Qed.

Lemma other_pass (k t : string) :
  In k (other_keys host studentInfo) -> In t john_smith_stages ->
  mask_pass table t k = t.
Proof.
  intros Hk Ht. rewrite mask_pass_literal.
  apply replace_no_occurrence_ci. intros Hocc.
  apply includes_ci_occurs in Hocc.
  now rewrite (other_key_apart k t Hk Ht) in Hocc.
Qed.

Lemma passes_after_both (L : list string) :
  (forall k, In k L -> In k (keys table)) ->
  fold_left (mask_pass table) L T2 = T2.
Proof.
  induction L as [|k L IH]; intros HL; [reflexivity|].
  cbn [fold_left].
  assert (Hk : In k (keys table)) by (apply HL; now left).
  assert (IH' := IH (fun j Hj => HL j (or_intror Hj))).
  apply table_key in Hk as [Hk|[_ Hk]].
  - simpl in Hk.
    destruct Hk as [<-|[<-|[<-|[<-|[<-|[<-|[]]]]]]];
      [ rewrite (name_pass "John Smith" PLACEHOLDERS.STUDENT_NAME)
      | rewrite (name_pass "John" PLACEHOLDERS.STUDENT_FIRST)
      | rewrite (name_pass "john smith" PLACEHOLDERS.STUDENT_NAME)
      | rewrite (name_pass "JOHN SMITH" PLACEHOLDERS.STUDENT_NAME)
      | rewrite (name_pass "john" PLACEHOLDERS.STUDENT_FIRST)
      | rewrite (name_pass "JOHN" PLACEHOLDERS.STUDENT_FIRST) ];
      try (simpl; tauto); exact IH'.
  - rewrite other_pass; [exact IH' | exact Hk | simpl; tauto].
Qed.

Lemma passes_after_full_name (L : list string) :
  (forall k, In k L -> In k (keys table)) -> In "John" L ->
  fold_left (mask_pass table) L T1 = T2.
Proof.
  induction L as [|k L IH]; intros HL Hin; [contradiction|].
  cbn [fold_left].
  assert (Hk : In k (keys table)) by (apply HL; now left).
  assert (HL' : forall j, In j L -> In j (keys table))
    by (intros j Hj; apply HL; now right).
  apply table_key in Hk as [Hk|[_ Hk]].
  - simpl in Hk.
    destruct Hk as [<-|[<-|[<-|[<-|[<-|[<-|[]]]]]]];
      [ rewrite (name_pass "John Smith" PLACEHOLDERS.STUDENT_NAME)
      | rewrite (name_pass "John" PLACEHOLDERS.STUDENT_FIRST)
      | rewrite (name_pass "john smith" PLACEHOLDERS.STUDENT_NAME)
      | rewrite (name_pass "JOHN SMITH" PLACEHOLDERS.STUDENT_NAME)
      | rewrite (name_pass "john" PLACEHOLDERS.STUDENT_FIRST)
      | rewrite (name_pass "JOHN" PLACEHOLDERS.STUDENT_FIRST) ];
      try (simpl; tauto);
      first [ exact (passes_after_both L HL')
            | apply (IH HL'); destruct Hin as [Hin|Hin];
              [discriminate Hin | exact Hin] ].
  - rewrite other_pass; [| exact Hk | simpl; tauto].
    apply (IH HL'). destruct Hin as [Hin|Hin]; [|exact Hin].
    exfalso. apply (other_key_not_name k Hk). rewrite Hin. simpl. tauto.
Qed.

Lemma passes_from_text (L : list string) :
  StronglySorted (fun a b => length b <= length a) L ->
  (forall k, In k L -> In k (keys table)) ->
  In "John Smith" L -> In "John" L ->
  fold_left (mask_pass table) L T0 = T2.
Proof.
  induction L as [|k L IH]; intros Hs HL Hfull Hfirst; [contradiction|].
  cbn [fold_left].
  assert (Hk : In k (keys table)) by (apply HL; now left).
  assert (HL' : forall j, In j L -> In j (keys table))
    by (intros j Hj; apply HL; now right).
  inversion Hs as [|? ? Hs' Hall]; subst.
  rewrite Forall_forall in Hall.
  apply table_key in Hk as [Hk|[_ Hk]].
  - simpl in Hk.
    destruct Hk as [<-|[<-|[<-|[<-|[<-|[<-|[]]]]]]];
      [ rewrite (name_pass "John Smith" PLACEHOLDERS.STUDENT_NAME)
      | exfalso
      | rewrite (name_pass "john smith" PLACEHOLDERS.STUDENT_NAME)
      | rewrite (name_pass "JOHN SMITH" PLACEHOLDERS.STUDENT_NAME)
      | exfalso
      | exfalso ];
      try (simpl; tauto);
      first [ (destruct Hfull as [Hfull|Hfull]; [discriminate Hfull|]);
              specialize (Hall _ Hfull); simpl in Hall; lia
            | apply (passes_after_full_name L HL');
              destruct Hfirst as [Hfirst|Hfirst];
              [discriminate Hfirst | exact Hfirst] ].
  - rewrite other_pass; [| exact Hk | simpl; tauto].
    apply (IH Hs' HL').
    + destruct Hfull as [Hfull|Hfull]; [|exact Hfull].
      exfalso. apply (other_key_not_name k Hk). rewrite Hfull. simpl. tauto.
    + destruct Hfirst as [Hfirst|Hfirst]; [|exact Hfirst].
      exfalso. apply (other_key_not_name k Hk). rewrite Hfirst. simpl. tauto.
Qed.

Lemma maskPII_john_smith : maskPII T0 table = T2.
Proof.
  rewrite maskPII_fold.
  assert (Hperm := sort_perm _ by_length_desc (keys table)).
  apply passes_from_text.
  - apply sort_by_length_sorted.
  - intros k Hk. exact (Permutation_in _ Hperm Hk).
  - apply (Permutation_in _ (Permutation_sym Hperm)).
    apply table_key. left. simpl. tauto.
  - apply (Permutation_in _ (Permutation_sym Hperm)).
    apply table_key. left. simpl. tauto.
Qed.

Lemma no_empty_key_john_smith : ~ In "" (keys table).
Proof.
  intros H. apply table_key in H as [H|[_ H]].
  - simpl in H. intuition discriminate.
  - discriminate (other_key_apart "" T0 H (or_introl eq_refl)).
Qed.

Lemma reverse_get (p : string) :
  obj_get (reverse_mappings table) p =
  if inherited p then None else first_real_value p (entries table).
Proof.
  rewrite reverse_mappings_fold, reverse_fold_lookup; [reflexivity| |].
  - intros e He Hk. apply no_empty_key_john_smith. unfold keys.
    rewrite <- Hk. now apply in_map.
  - discriminate.
Qed.

Lemma entries_john_smith :
  entries table =
  (map snd (index_entries rest) ++ john_smith_keys ++ named_entries rest)%list.
Proof. rewrite table_split. reflexivity. Qed.

Lemma index_entry_token (e : string * string) :
  In e (map snd (index_entries rest)) -> In (snd e) other_tokens.
Proof.
  intros He.
  apply (Permutation_in _ (index_entries_perm _ rest)) in He.
  apply filter_In in He as [He _]. now apply rest_entry.
Qed.

Lemma first_real_value_name :
  first_real_value PLACEHOLDERS.STUDENT_NAME (entries table)
  = Some "John Smith" /\
  first_real_value PLACEHOLDERS.STUDENT_FIRST (entries table)
  = Some "John".
Proof.
  rewrite entries_john_smith. split;
    (rewrite first_real_value_skip; [reflexivity|]);
    intros e He Heq; apply index_entry_token in He; rewrite Heq in He;
    simpl in He; unfold_tokens; intuition discriminate.
Qed.

Lemma reverse_entries (e : string * string) :
  In e (entries (reverse_mappings table)) ->
  (fst e = PLACEHOLDERS.STUDENT_NAME /\ snd e = "John Smith") \/
  (fst e = PLACEHOLDERS.STUDENT_FIRST /\ snd e = "John") \/
  In (fst e) other_tokens.
Proof.
  destruct e as [p r]. intros He. cbn [fst snd].
  apply (proj1 (in_entries _ _ _)) in He.
  assert (Hget := in_obj_get_nodup _ _ _ _
                    (reverse_mappings_nodup table) He).
  assert (Hp : In p data_tokens).
  { apply (createPIIMappings_values host studentInfo).
    apply reverse_mappings_keys. now apply (in_map fst) in He. }
  rewrite reverse_get in Hget.
  destruct first_real_value_name as [Hfull Hfirst].
  simpl in Hp.
  destruct Hp as [<-|[<-|Hp]].
  - left. split; [reflexivity|]. cbn [inherited] in Hget.
    change (inherited PLACEHOLDERS.STUDENT_NAME) with false in Hget.
    rewrite Hfull in Hget. now injection Hget.
  - right. left. split; [reflexivity|].
    change (inherited PLACEHOLDERS.STUDENT_FIRST) with false in Hget.
    rewrite Hfirst in Hget. now injection Hget.
  - right. right. simpl. tauto.
Qed.

Lemma reverse_has_names :
  existsb (fun e => String.eqb (fst e) PLACEHOLDERS.STUDENT_NAME)
          (entries (reverse_mappings table)) = true /\
  existsb (fun e => String.eqb (fst e) PLACEHOLDERS.STUDENT_FIRST)
          (entries (reverse_mappings table)) = true.
Proof.
  destruct first_real_value_name as [Hfull Hfirst].
  split; apply existsb_exists.
  - exists (PLACEHOLDERS.STUDENT_NAME, "John Smith").
    split; [|reflexivity]. apply in_entries, obj_get_in.
    rewrite reverse_get. exact Hfull.
  - exists (PLACEHOLDERS.STUDENT_FIRST, "John").
    split; [|reflexivity]. apply in_entries, obj_get_in.
    rewrite reverse_get. exact Hfirst.
Qed.

Lemma unmaskPII_john_smith (restored : bool -> bool -> string) :
  (forall a b,
      replace (restored a b) (Literal PLACEHOLDERS.STUDENT_NAME false)
              "John Smith" = restored true b) ->
  (forall a b,
      replace (restored a b) (Literal PLACEHOLDERS.STUDENT_FIRST false)
              "John" = restored a true) ->
  (forall a b,
      forallb (fun p => negb (includes (restored a b) p)) other_tokens
      = true) ->
  unmaskPII (restored false false) table = restored true true.
Proof.
  intros H1 H2 H3. rewrite unmaskPII_fold.
  rewrite (restore_passes restored H1 H2 H3 _ reverse_entries).
  destruct reverse_has_names as [-> ->]. reflexivity.
Qed.

End JohnSmith.

(** C1 (as amended). For an ASCII record named ["John Smith"] whose other
    fields give no key that occurs, up to case, in the text
    ["John Smith said John is happy"] or in what it becomes when the
    full name, then the first name have been replaced, masking the text
    gives the text with the full-name and the first-name token and no
    occurrence of the name in any casing, and unmasking gives the
    original text back: the full-name token is restored to
    ["John Smith"] and the first-name token to ["John"]. *)
Theorem john_smith_round_trip (host : DateHost) (studentInfo : StudentInfo) :
  name studentInfo = "John Smith" ->
  ascii_table (createPIIMappings host studentInfo) = true ->
  apart john_smith_stages (other_keys host studentInfo) = true ->
  let table := createPIIMappings host studentInfo in
  let masked := maskPII john_smith_text table in
  masked = "[STUDENT_NAME] said [STUDENT_FIRST] is happy" /\
  includes_ci masked "John Smith" = false /\
  includes_ci masked "John" = false /\
  unmaskPII masked table = john_smith_text /\
  unmaskPII PLACEHOLDERS.STUDENT_NAME table = "John Smith" /\
  unmaskPII PLACEHOLDERS.STUDENT_FIRST table = "John".
Proof.
  intros Hname _ Hapart table masked.
  assert (Hm : masked = "[STUDENT_NAME] said [STUDENT_FIRST] is happy")
    by apply (maskPII_john_smith host studentInfo Hname Hapart).
  rewrite Hm. repeat split.
  - apply (unmaskPII_john_smith host studentInfo Hname Hapart
             (fun a b =>
                (if a then "John Smith" else PLACEHOLDERS.STUDENT_NAME)
                ++ " said "
                ++ (if b then "John" else PLACEHOLDERS.STUDENT_FIRST)
                ++ " is happy"));
      intros [] []; reflexivity.
  - apply (unmaskPII_john_smith host studentInfo Hname Hapart
             (fun a _ =>
                if a then "John Smith" else PLACEHOLDERS.STUDENT_NAME));
      intros [] []; reflexivity.
  - apply (unmaskPII_john_smith host studentInfo Hname Hapart
             (fun _ b =>
                if b then "John" else PLACEHOLDERS.STUDENT_FIRST));
      intros [] []; reflexivity.
Qed.

Lemma john_smith_round_trip_witness :
  let table := createPIIMappings sample_host full_record in
  maskPII john_smith_text table
  = "[STUDENT_NAME] said [STUDENT_FIRST] is happy" /\
  unmaskPII (maskPII john_smith_text table) table = john_smith_text.
Proof.
  intros table.
  destruct (john_smith_round_trip sample_host full_record
              eq_refl eq_refl eq_refl) as (H1 & _ & _ & H4 & _).
  split; [exact H1 | exact H4].
Defined.

(** The table of the full record. *)
Example full_record_table :
  createPIIMappings sample_host full_record =
  [("John Smith", PLACEHOLDERS.STUDENT_NAME);
   ("John", PLACEHOLDERS.STUDENT_FIRST);
   ("john smith", PLACEHOLDERS.STUDENT_NAME);
   ("JOHN SMITH", PLACEHOLDERS.STUDENT_NAME);
   ("john", PLACEHOLDERS.STUDENT_FIRST);
   ("JOHN", PLACEHOLDERS.STUDENT_FIRST);
   ("2015-04-02", PLACEHOLDERS.DOB);
   ("4/2/2015", PLACEHOLDERS.DOB);
   ("S-100", PLACEHOLDERS.STUDENT_ID);
   ("Oak Hill", PLACEHOLDERS.SCHOOL);
   ("oak hill", PLACEHOLDERS.SCHOOL);
   ("OAK HILL", PLACEHOLDERS.SCHOOL);
   ("3", PLACEHOLDERS.GRADE);
   ("Mary Jones", PLACEHOLDERS.PARENT_NAME);
   ("mary jones", PLACEHOLDERS.PARENT_NAME);
   ("MARY JONES", PLACEHOLDERS.PARENT_NAME);
   ("12 Elm St", PLACEHOLDERS.ADDRESS)].
Proof. reflexivity. Qed.
